(** * discordnewsbot: the Discord client and the Twitter updater

    A shallow embedding of [src/discordClient.py] and [src/newsBot.py].

    - A Python [int] is a [Z].  A Python [str] is the [string] of its bytes
      (UTF-8): [\d] and [str.lower] are those of the ASCII characters, and
      names compare byte by byte, which is the order of their code points.
      On a text of ASCII characters ([is_ascii_text]) this is what Python
      does; on other text Python also takes the other decimal digits of
      Unicode for [\d] and lower-cases the other cased letters.  So what
      is proved of [\d] or of [str.lower] is proved of the messages that
      the bot formats itself, or of text that is assumed to be ASCII.
    - [time.time()] returns a float; every float is a rational and Python
      compares an [int] with a float exactly, so clock readings are [Q].
    - [DiscordClient.rateLimits] is a dict keyed by URL: a [gmap string].
    - [TwitterUpdater.twitterLists] is a dict that is iterated in insertion
      order and whose entries are mutated in place: an association list,
      gone through entry by entry.
    - The methods are computations over the rest of the state, which return,
      raise, or (for the one loop that sleeps) run out of rounds.
    - The remote services (Discord, Twitter) are an oracle that answers each
      request from the history of the requests made so far. *)

From Stdlib Require Import ZArith QArith Qround Lia Lqa List Ascii String.
From Stdlib Require Import DecimalString DecimalZ DecimalPos DecimalN.
From Stdlib Require Import Sorted Permutation.
From stdpp Require Import base option list gmap strings.

Local Open Scope Z_scope.

(* ===================================================================== *)
(** ** discordClient.py                                                   *)
(* ===================================================================== *)

Definition BASE_URL : string := "https://discordapp.com/api".

Module ChannelTypes.
Definition GUILD_TEXT : Z := 0.
Definition DM : Z := 1.
Definition GUILD_VOICE : Z := 2.
Definition GROUP_DM : Z := 3.
Definition GUILD_CATEGORY : Z := 4.
End ChannelTypes.

(** [Route]: a path with one [{}] hole, kept as the text before and after the
    hole.  [makeURL None] returns the path as it is, hole included. *)
Record Route := mkRoute { route_before : string; route_after : string }.

Definition makeURL (r : Route) (formatID : option string) : string :=
  match formatID with
  | None => BASE_URL +:+ route_before r +:+ "{}" +:+ route_after r
  | Some i => BASE_URL +:+ route_before r +:+ i +:+ route_after r
  end.

Module Routes.
Definition CHANNEL_MESSAGES : Route := mkRoute "/channels/" "/messages".
Definition GUILD_CHANNELS : Route := mkRoute "/guilds/" "/channels".
End Routes.

(** One entry of [rateLimits]: the two integers read from the headers
    [X-RateLimit-Remaining] and [X-RateLimit-Reset]. *)
Record RateLimit := mkRateLimit { remaining : Z; reset : Z }.

(** What [checkResponse] looks at in a [requests.Response]: its [url], the
    two rate-limit headers when they are there (as the integers they parse
    to), whether the status is an error, and the decoded body. *)
Record Response (A : Type) := mkResponse {
  url : string;
  rate_headers : option RateLimit;   (* present iff X-RateLimit-Remaining is *)
  status_ok : bool;                  (* raise_for_status does not raise *)
  json : A
}.
Arguments mkResponse {A}.
Arguments url {A}.
Arguments rate_headers {A}.
Arguments status_ok {A}.
Arguments json {A}.

Definition Qltb (x y : Q) : bool := negb (Qle_bool y x).

(** [checkResponse], the part that writes [rateLimits]. *)
Definition record_rate_limit {A} (resp : Response A)
    (limits : gmap string RateLimit) : gmap string RateLimit :=
  match rate_headers resp with
  | Some rl => <[url resp := rl]> limits
  | None => limits
  end.

(** [atRateLimit(url)], with the reading of [time.time()] as [now]. *)
Definition atRateLimit (limits : gmap string RateLimit) (now : Q) (u : string) : bool :=
  match limits !! u with
  | Some rateLimit =>
      if remaining rateLimit =? 0 then
        if Qltb (inject_Z (reset rateLimit)) now then false else true
      else false
  | None => false
  end.


(* ===================================================================== *)
(** ** newsBot.py: the message format and its parser                      *)
(* ===================================================================== *)

Definition newline : ascii := ascii_of_nat 10.
Definition nl : string := String newline EmptyString.

(** [str(n)] for a Python [int]: decimal digits, a leading [-] when negative. *)
Definition str_of_int (n : Z) : string := NilZero.string_of_int (Z.to_int n).

(** [MESSAGE_FORMAT.format(screenName=.., id=.., date=.., retweetStatus=..)] *)
Definition MESSAGE_FORMAT (screenName : string) (id : Z) (date retweetStatus : string) : string :=
  "URL: https://twitter.com/" +:+ screenName +:+ "/status/" +:+ str_of_int id +:+ nl
  +:+ "Date: " +:+ date +:+ retweetStatus.

(** ["\n<Retweet>" if post.retweeted_status else ""] *)
Definition retweetStatus_of (retweeted : bool) : string :=
  if retweeted then nl +:+ "<Retweet>" else "".

(** A text of ASCII characters: the texts on which [is_digit] is the class
    [\d] and [lower] is [str.lower]. *)
Definition is_ascii_char (c : ascii) : bool := (nat_of_ascii c <? 128)%nat.

Fixpoint is_ascii_text (s : string) : bool :=
  match s with
  | EmptyString => true
  | String c rest => is_ascii_char c && is_ascii_text rest
  end.

(** The class [\d], on the characters the model has (bytes): [0]..[9].  On
    a text that is not ASCII, [\d] also matches the other decimal digits of
    Unicode, which this does not. *)
Definition is_digit (c : ascii) : bool :=
  (48 <=? nat_of_ascii c)%nat && (nat_of_ascii c <=? 57)%nat.

(** [$] under [re.M]: at the end of the text or just before a newline. *)
Definition at_eol (s : string) : bool :=
  match s with
  | EmptyString => true
  | String c _ => Ascii.eqb c newline
  end.

(** [(\d+)$] tried at the start of [s]: the greedy [\d+] takes as many digits
    as it can and gives them back one by one until [$] matches.  The result is
    the text of group 1. *)
Fixpoint match_digits_eol (s : string) : option string :=
  match s with
  | EmptyString => None
  | String c rest =>
      if is_digit c then
        match match_digits_eol rest with
        | Some more => Some (String c more)
        | None => if at_eol rest then Some (String c EmptyString) else None
        end
      else None
  end.

(** [DISCORD_MESSAGE_RE.search]: the match at the leftmost position that has one. *)
Fixpoint re_search (s : string) : option string :=
  match match_digits_eol s with
  | Some group1 => Some group1
  | None =>
      match s with
      | EmptyString => None
      | String _ rest => re_search rest
      end
  end.

Definition digit_value (c : ascii) : Z := Z.of_nat (nat_of_ascii c) - 48.

(** [int(text)] on a text of decimal digits. *)
Fixpoint int_of_digits (acc : Z) (s : string) : Z :=
  match s with
  | EmptyString => acc
  | String c rest => int_of_digits (10 * acc + digit_value c) rest
  end.

Definition getIDFromMessage (message : string) : option Z :=
  match re_search message with
  | Some group1 => Some (int_of_digits 0 group1)
  | None => None
  end.

(** The lines of a text, split at newlines (there is always at least one line). *)
Fixpoint lines_from (cur : string) (s : string) : list string :=
  match s with
  | EmptyString => [cur]
  | String c rest =>
      if Ascii.eqb c newline then cur :: lines_from "" rest
      else lines_from (cur +:+ String c EmptyString) rest
  end.

Definition lines (s : string) : list string := lines_from "" s.

Definition first_line (s : string) : string := List.hd "" (lines s).
Definition final_line (s : string) : string := List.last (lines s) "".

Fixpoint all_digits (s : string) : bool :=
  match s with
  | EmptyString => true
  | String c rest => is_digit c && all_digits rest
  end.

Fixpoint has_newline (s : string) : bool :=
  match s with
  | EmptyString => false
  | String c rest => Ascii.eqb c newline || has_newline rest
  end.

(** The last character of [s], if any, is not a digit. *)
Fixpoint ends_nondigit (s : string) : bool :=
  match s with
  | EmptyString => true
  | String c EmptyString => negb (is_digit c)
  | String _ rest => ends_nondigit rest
  end.

(** The first line of a message, up to the identifier. *)
Definition url_prefix (screenName : string) : string :=
  "URL: https://twitter.com/" +:+ screenName +:+ "/status/".

(* ===================================================================== *)
(** ** The remote services and the state of the bot                       *)
(* ===================================================================== *)

(** A channel object of the Discord API, with the keys the bot reads
    ([id], [name], [type], [parent_id]) and its [position]. *)
Record Channel := mkChannel {
  ch_id : string;
  ch_name : string;
  ch_type : Z;
  ch_parent_id : option string;
  ch_position : Z
}.

Global Instance Channel_eq_dec : EqDecision Channel.
Proof. solve_decision. Defined.

Record DiscordMessage := mkDiscordMessage { content : string }.

(** A [twitter.List] and a [twitter.Status], with the attributes the bot reads. *)
Record ListInfo := mkListInfo { li_name : string; li_id : Z }.
Record Post := mkPost {
  post_id : Z;
  created_at : string;
  screen_name : string;
  retweeted_status : bool   (* truthiness of [post.retweeted_status] *)
}.

(** Every call that leaves the process. *)
Inductive Request :=
| GetGuildChannels (guild : string)
| CreateGuildChannel (guild : string) (name : option string) (channelType : Z)
                     (parentID : option string)
| ModifyGuildChannelPositions (guild : string) (positionPairs : list (string * nat))
| CreateChannelMessage (channel : option string) (text : string)
| GetChannelMessages (channel : option string) (count : option Z)
| GetLists
| GetListTimeline (list_id : Z) (since_id count : option Z)
| CheckRateLimit (endpoint : string)
| Sleep (seconds : Z).

(** A non-negative length of time, in seconds. *)
Record Duration := mkDuration { dur_num : N; dur_den : positive }.
Definition seconds (d : Duration) : Q := Z.of_N (dur_num d) # dur_den d.

(** The remote services: each answer is a function of the requests made so
    far, the one being answered last.  [None] from Twitter is a raised
    [TwitterError]. *)
Record Oracle := mkOracle {
  answer_channels : list Request -> Response (list Channel);
  answer_channel : list Request -> Response Channel;
  answer_patch : list Request -> bool;
  answer_message : list Request -> Response unit;
  answer_messages : list Request -> Response (list DiscordMessage);
  answer_lists : list Request -> option (list ListInfo);
  answer_timeline : list Request -> option (list Post);
  answer_reset : list Request -> option Z;
  elapsed : list Request -> Duration
}.

(** One value of the dict [twitterLists]. *)
Record TwitterList := mkTwitterList {
  list_id : Z;
  channelID : option string;
  messages : list string
}.

(** The two callables the scheduler is given. *)
Inductive Task := DoUpdate | SendMessages.

(** An event of [sched.scheduler]: absolute time, priority, action. *)
Record Event := mkEvent { ev_time : Q; ev_priority : Z; ev_action : Task }.

(** The state of the bot is the dict [twitterLists] together with a [Sys],
    which is everything else: the other attributes of [TwitterUpdater], the
    [rateLimits] of its [DiscordClient], the events of its scheduler, the
    clock, the requests made so far, and (as a record of what happened) the
    messages whose creation succeeded, with the channel they went to. *)
Record Sys := mkSys {
  categoryName : option string;
  guildID : string;
  sendingMessages : bool;
  rateLimits : gmap string RateLimit;
  events : list Event;
  now : Q;
  history : list Request;
  delivered : list (option string * string)
}.

Definition set_sendingMessages (b : bool) (s : Sys) : Sys :=
  mkSys (categoryName s) (guildID s) b (rateLimits s) (events s) (now s)
        (history s) (delivered s).

Definition set_rateLimits (r : gmap string RateLimit) (s : Sys) : Sys :=
  mkSys (categoryName s) (guildID s) (sendingMessages s) r (events s) (now s)
        (history s) (delivered s).

Definition add_event (e : Event) (s : Sys) : Sys :=
  mkSys (categoryName s) (guildID s) (sendingMessages s) (rateLimits s)
        (events s ++ [e]) (now s) (history s) (delivered s).

Definition add_delivered (channel : option string) (text : string) (s : Sys) : Sys :=
  mkSys (categoryName s) (guildID s) (sendingMessages s) (rateLimits s) (events s)
        (now s) (history s) (delivered s ++ [(channel, text)]).

(** A request leaves: it joins the history and the clock moves on. *)
Definition after_request (r : Request) (took : Q) (s : Sys) : Sys :=
  mkSys (categoryName s) (guildID s) (sendingMessages s) (rateLimits s) (events s)
        (now s + took)%Q (history s ++ [r]) (delivered s).

Definition set_channelID (c : option string) (l : TwitterList) : TwitterList :=
  mkTwitterList (list_id l) c (messages l).

Definition set_messages (m : list string) (l : TwitterList) : TwitterList :=
  mkTwitterList (list_id l) (channelID l) m.

(** *** Computations

    A computation returns a value and a new state, or raises, or is still in
    a wait that the given number of rounds did not finish.  Nothing in the
    bot catches an exception: it leaves [scheduler.run()] and the process
    ends, so of the state at that point only the [Sys] is kept. *)

Inductive Result (A : Type) :=
| Ok (a : A) (s : Sys)
| Raise (s : Sys)
| Waiting.
Arguments Ok {A}.
Arguments Raise {A}.
Arguments Waiting {A}.

Definition M (A : Type) : Type := Sys -> Result A.

Definition ret {A} (a : A) : M A := fun s => Ok a s.
Definition raise {A} : M A := fun s => Raise s.
Definition bind {A B} (m : M A) (k : A -> M B) : M B :=
  fun s => match m s with
           | Ok a s' => k a s'
           | Raise s' => Raise s'
           | Waiting => Waiting
           end.
Definition gets {A} (f : Sys -> A) : M A := fun s => Ok (f s) s.
Definition modify (f : Sys -> Sys) : M unit := fun s => Ok tt (f s).

Declare Scope bot_scope.
Delimit Scope bot_scope with bot.
Notation "x <- m ;; k" := (bind m (fun x => k))
  (at level 100, m at next level, right associativity) : bot_scope.
Notation "m ;;; k" := (bind m (fun _ => k))
  (at level 100, right associativity) : bot_scope.

Local Open Scope bot_scope.

(* ===================================================================== *)
(** ** [DiscordClient] and the Twitter client                             *)
(* ===================================================================== *)

Section Clients.
Context (oracle : Oracle).

(** Make a request; the result is the history the answer depends on. *)
Definition request (r : Request) : M (list Request) :=
  fun s =>
    let h := history s ++ [r] in
    Ok h (after_request r (seconds (elapsed oracle h)) s).

(** [time.sleep(n)] *)
Definition sleep (n : Z) : M unit :=
  fun s =>
    let h := history s ++ [Sleep n] in
    Ok tt (after_request (Sleep n) (inject_Z n + seconds (elapsed oracle h)) s).

(** [DiscordClient.checkResponse] *)
Definition checkResponse {A} (response : Response A) : M A :=
  modify (fun s => set_rateLimits (record_rate_limit response (rateLimits s)) s) ;;;
  if status_ok response then ret (json response) else raise.

(** [DiscordClient.atRateLimit], reading the clock and [rateLimits]. *)
Definition atRateLimitM (u : string) : M bool :=
  gets (fun s => atRateLimit (rateLimits s) (now s) u).

Definition createChannelMessage (channel : option string) (text : string) : M unit :=
  h <- request (CreateChannelMessage channel text) ;;
  checkResponse (answer_message oracle h) ;;;
  modify (add_delivered channel text).

Definition getChannelMessages (channel : option string) (count : option Z)
    : M (list DiscordMessage) :=
  h <- request (GetChannelMessages channel count) ;;
  checkResponse (answer_messages oracle h).

Definition createGuildChannel (guild : string) (name : option string)
    (channelType : Z) (parentID : option string) : M Channel :=
  h <- request (CreateGuildChannel guild name channelType parentID) ;;
  checkResponse (answer_channel oracle h).

Definition getGuildChannels (guild : string) : M (list Channel) :=
  h <- request (GetGuildChannels guild) ;;
  checkResponse (answer_channels oracle h).

Definition modifyGuildChannelPositions (guild : string)
    (positionPairs : list (string * nat)) : M unit :=
  if (length positionPairs =? 0)%nat then ret tt
  else
    h <- request (ModifyGuildChannelPositions guild positionPairs) ;;
    if answer_patch oracle h then ret tt else raise.

(** The calls of [twitter.Api] that the updater makes. *)
Definition twitter_call {A} (r : Request) (answer : list Request -> option A) : M A :=
  h <- request r ;;
  match answer h with
  | Some a => ret a
  | None => raise
  end.

Definition GetListsM : M (list ListInfo) :=
  twitter_call GetLists (answer_lists oracle).

Definition GetListTimelineM (list_id : Z) (since_id count : option Z) : M (list Post) :=
  twitter_call (GetListTimeline list_id since_id count) (answer_timeline oracle).

Definition CheckRateLimitM (endpoint : string) : M Z :=
  twitter_call (CheckRateLimit endpoint) (answer_reset oracle).
End Clients.

(** [sched.scheduler.enter(delay, priority, action)] and [enterabs]. *)
Definition scheduler_enterabs (time : Q) (priority : Z) (action : Task) : M unit :=
  modify (add_event (mkEvent time priority action)).

Definition scheduler_enter (delay : Z) (priority : Z) (action : Task) : M unit :=
  t <- gets now ;;
  scheduler_enterabs (t + inject_Z delay)%Q priority action.

(* ===================================================================== *)
(** ** [TwitterUpdater]                                                   *)
(* ===================================================================== *)

(** The dict [twitterLists], in insertion order.  Its keys are distinct. *)
Abbreviation Lists := (list (string * TwitterList)).

(** [str.lower], on the letters [A]..[Z]: what [str.lower] does to a text
    of ASCII characters.  The other cased letters of Unicode, which
    [str.lower] changes too, are left as they are. *)
Definition lower_char (c : ascii) : ascii :=
  let n := nat_of_ascii c in
  if (65 <=? n)%nat && (n <=? 90)%nat then ascii_of_nat (n + 32) else c.

Fixpoint lower (s : string) : string :=
  match s with
  | EmptyString => EmptyString
  | String c rest => String (lower_char c) (lower rest)
  end.

(** [name in self.twitterLists] *)
Definition has_key (name : string) (lists : Lists) : bool :=
  existsb (fun entry => String.eqb (fst entry) name) lists.

(** The body of the loop of [updateTwitterLists]. *)
Definition add_list (lists : Lists) (twitterList : ListInfo) : Lists :=
  if has_key (li_name twitterList) lists then lists
  else lists ++ [(li_name twitterList, mkTwitterList (li_id twitterList) None [])].

(** [list.sort(key=nameSort)]: the sort is stable, and a stable sort has one
    result, the one of this insertion sort.  Names compare as Python compares
    [str]: character by character. *)
Fixpoint insert_by_name (channel : Channel) (sorted : list Channel) : list Channel :=
  match sorted with
  | [] => [channel]
  | other :: rest =>
      if String.leb (ch_name channel) (ch_name other) then channel :: other :: rest
      else other :: insert_by_name channel rest
  end.

Definition sort_by_name (channels : list Channel) : list Channel :=
  foldr insert_by_name [] channels.

(** [[(channel["id"], i) for (i, channel) in enumerate(currentChannels)
      if channel != oldChannels[i]]], from index [i] on.  The two lists have
    the same length, so [oldChannels[i]] is always there. *)
Fixpoint positionPairs_from (i : nat) (currentChannels oldChannels : list Channel)
    : list (string * nat) :=
  match currentChannels with
  | [] => []
  | channel :: rest =>
      let pairs := positionPairs_from (S i) rest oldChannels in
      if bool_decide (oldChannels !! i = Some channel) then pairs
      else (ch_id channel, i) :: pairs
  end.

Definition positionPairs (oldChannels : list Channel) : list (string * nat) :=
  positionPairs_from 0 (sort_by_name oldChannels) oldChannels.

Definition is_category (name : option string) (channel : Channel) : bool :=
  (ch_type channel =? ChannelTypes.GUILD_CATEGORY) && bool_decide (Some (ch_name channel) = name).

(** The first loop of [channelMaintenance]: it has no [break], the last
    channel that fits stays. *)
Definition find_category (name : option string) (currentChannels : list Channel)
    : option Channel :=
  fold_left (fun found channel => if is_category name channel then Some channel else found)
            currentChannels None.

Definition under (channelCategory channel : Channel) : bool :=
  bool_decide (ch_parent_id channel = Some (ch_id channelCategory)).

Definition is_channel_of (channelCategory : Channel) (listName : string) (channel : Channel)
    : bool :=
  under channelCategory channel && String.eqb (ch_name channel) (lower listName).

Section Updater.
Context (oracle : Oracle).

Definition updateTwitterLists (lists : Lists) : M Lists :=
  fetched <- GetListsM oracle ;;
  ret (fold_left add_list fetched lists).

(** [while self.discordClient.atRateLimit(url): time.sleep(10)], for at
    most [rounds] sleeps. *)
Fixpoint wait_while_rate_limited (rounds : nat) (u : string) : M unit :=
  limited <- atRateLimitM u ;;
  if limited then
    match rounds with
    | O => fun _ => Waiting
    | S rounds' => sleep oracle 10 ;;; wait_while_rate_limited rounds' u
    end
  else ret tt.

(** The body of the second loop of [channelMaintenance], for one list. *)
Definition ensure_channel (rounds : nat) (channelCategory : Channel)
    (listName : string) (twitterList : TwitterList) (currentChannels : list Channel)
    : M (TwitterList * list Channel) :=
  match channelID twitterList with
  | None =>
      match List.find (is_channel_of channelCategory listName) currentChannels with
      | Some channel =>
          ret (set_channelID (Some (ch_id channel)) twitterList, currentChannels)
      | None =>
          guild <- gets guildID ;;
          wait_while_rate_limited rounds (makeURL Routes.GUILD_CHANNELS (Some guild)) ;;;
          created <- createGuildChannel oracle guild (Some listName)
                       ChannelTypes.GUILD_TEXT (Some (ch_id channelCategory)) ;;
          ret (set_channelID (Some (ch_id created)) twitterList,
               currentChannels ++ [created])
      end
  | Some _ => ret (twitterList, currentChannels)
  end.

Fixpoint ensure_channels (rounds : nat) (channelCategory : Channel) (lists : Lists)
    (currentChannels : list Channel) : M (Lists * list Channel) :=
  match lists with
  | [] => ret ([], currentChannels)
  | (listName, twitterList) :: rest =>
      one <- ensure_channel rounds channelCategory listName twitterList currentChannels ;;
      others <- ensure_channels rounds channelCategory rest (snd one) ;;
      ret ((listName, fst one) :: fst others, snd others)
  end.

Definition channelMaintenance (rounds : nat) (lists : Lists) : M Lists :=
  guild <- gets guildID ;;
  name <- gets categoryName ;;
  fetched <- getGuildChannels oracle guild ;;
  channelCategory <-
    match find_category name fetched with
    | Some channel => ret channel
    | None => createGuildChannel oracle guild name ChannelTypes.GUILD_CATEGORY None
    end ;;
  bound <- ensure_channels rounds channelCategory lists
             (List.filter (under channelCategory) fetched) ;;
  modifyGuildChannelPositions oracle guild (positionPairs (snd bound)) ;;;
  ret (fst bound).

Definition checkMessageRateLimit (channel : option string) : M bool :=
  limited <- atRateLimitM (makeURL Routes.CHANNEL_MESSAGES channel) ;;
  if limited then scheduler_enter 10 0 SendMessages ;;; ret true
  else ret false.

(** The inner loop of [sendMessages] over [copiedMessages], with the
    list's own [messages] beside it.  The boolean tells that the method
    returned from inside the loop.  [pop(0)] on an empty list raises. *)
Fixpoint send_copied (channel : option string) (copiedMessages messages : list string)
    : M (list string * bool) :=
  match copiedMessages with
  | [] => ret (messages, false)
  | message :: copied =>
      limited <- checkMessageRateLimit channel ;;
      if limited then ret (messages, true)
      else
        createChannelMessage oracle channel message ;;;
        match messages with
        | [] => raise
        | _ :: popped => send_copied channel copied popped
        end
  end.

(** The outer loop of [sendMessages]. *)
Fixpoint send_lists (lists : Lists) : M (Lists * bool) :=
  match lists with
  | [] => ret ([], false)
  | (listName, twitterList) :: rest =>
      sent <- send_copied (channelID twitterList) (messages twitterList)
                (messages twitterList) ;;
      let twitterList' := set_messages (fst sent) twitterList in
      if snd sent then ret ((listName, twitterList') :: rest, true)
      else
        others <- send_lists rest ;;
        ret ((listName, twitterList') :: fst others, snd others)
  end.

Definition sendMessages (lists : Lists) : M Lists :=
  modify (set_sendingMessages true) ;;;
  sent <- send_lists lists ;;
  if snd sent then ret (fst sent)
  else modify (set_sendingMessages false) ;;; ret (fst sent).

Definition format_post (post : Post) : string :=
  MESSAGE_FORMAT (screen_name post) (post_id post) (created_at post)
                 (retweetStatus_of (retweeted_status post)).

(** The body of the loop of [doUpdate], for one list. *)
Definition fetch_posts (twitterList : TwitterList) : M TwitterList :=
  cursor <-
    (if (0 <? length (messages twitterList))%nat then
       ret (Some (getIDFromMessage (List.last (messages twitterList) "")))
     else
       limited <- checkMessageRateLimit (channelID twitterList) ;;
       if limited then ret None   (* continue *)
       else
         latest <- getChannelMessages oracle (channelID twitterList) (Some 1) ;;
         ret (Some match latest with
                   | [] => None
                   | message :: _ => getIDFromMessage (content message)
                   end)) ;;
  match cursor with
  | None => ret twitterList
  | Some lastPostID =>
      posts <-
        match lastPostID with
        | None => GetListTimelineM oracle (list_id twitterList) None (Some 100)
        | Some _ => GetListTimelineM oracle (list_id twitterList) lastPostID None
        end ;;
      ret (set_messages (messages twitterList ++ map format_post (rev posts)) twitterList)
  end.

Fixpoint fetch_all (lists : Lists) : M Lists :=
  match lists with
  | [] => ret []
  | (listName, twitterList) :: rest =>
      twitterList' <- fetch_posts twitterList ;;
      rest' <- fetch_all rest ;;
      ret ((listName, twitterList') :: rest')
  end.

Definition doUpdate (rounds : nat) (lists : Lists) : M Lists :=
  name <- gets categoryName ;;
  match name with
  | None => raise
  | Some _ =>
      lists1 <- updateTwitterLists lists ;;
      lists2 <- channelMaintenance rounds lists1 ;;
      lists3 <- fetch_all lists2 ;;
      sending <- gets sendingMessages ;;
      lists4 <- (if sending then ret lists3 else sendMessages lists3) ;;
      nextResetTime <- CheckRateLimitM oracle "/lists/statuses.json" ;;
      scheduler_enterabs (inject_Z (nextResetTime + 1)) 0 DoUpdate ;;;
      ret lists4
  end.

(** What the scheduler runs when an event is due. *)
Definition run_task (rounds : nat) (action : Task) (lists : Lists) : M Lists :=
  match action with
  | DoUpdate => doUpdate rounds lists
  | SendMessages => sendMessages lists
  end.
End Updater.

(** Names in order: [ch_name c <= ch_name d] as Python compares them. *)
Definition name_le (c d : Channel) : Prop := String.leb (ch_name c) (ch_name d) = true.

(** The request that [modifyGuildChannelPositions] makes, if any. *)
Definition reposition_call (guild : string) (pairs : list (string * nat)) : list Request :=
  match pairs with
  | [] => []
  | _ :: _ => [ModifyGuildChannelPositions guild pairs]
  end.

Definition is_creation (r : Request) : bool :=
  match r with
  | CreateGuildChannel _ _ _ _ => true
  | _ => false
  end.

(** [m] relates the state it starts in to the state it ends in by [R],
    whether it returns or raises. *)
Definition steps {A} (R : Sys -> Sys -> Prop) (m : M A) : Prop :=
  forall s,
    match m s with
    | Ok _ s' => R s s'
    | Raise s' => R s s'
    | Waiting => True
    end.

(** *** Words for what a drain pass does *)

(** The list with nothing left to send. *)
Definition emptied (entry : string * TwitterList) : string * TwitterList :=
  (fst entry, set_messages [] (snd entry)).

(** The list with its first [k] messages gone. *)
Definition without_front (k : nat) (entry : string * TwitterList) : string * TwitterList :=
  (fst entry, set_messages (skipn k (messages (snd entry))) (snd entry)).

(** The first [k] messages of the list, as deliveries to its channel. *)
Definition front (k : nat) (entry : string * TwitterList) : list (option string * string) :=
  map (pair (channelID (snd entry))) (firstn k (messages (snd entry))).

Definition all_of (entry : string * TwitterList) : list (option string * string) :=
  front (length (messages (snd entry))) entry.

(** The event that [checkMessageRateLimit] enters, seen from the state it leaves. *)
Definition retry_event (s : Sys) : Event := mkEvent (now s + inject_Z 10)%Q 0 SendMessages.

Definition message_url (entry : string * TwitterList) : string :=
  makeURL Routes.CHANNEL_MESSAGES (channelID (snd entry)).

(** No request to Discord fails. *)
Definition discord_ok (oracle : Oracle) : Prop :=
  (forall h, status_ok (answer_channels oracle h) = true)
  /\ (forall h, status_ok (answer_channel oracle h) = true)
  /\ (forall h, answer_patch oracle h = true)
  /\ (forall h, status_ok (answer_message oracle h) = true)
  /\ (forall h, status_ok (answer_messages oracle h) = true).

(** The pass went through every list: all queues are empty, every message
    was delivered, list after list, and no event was entered. *)
Definition drained_all (lists lists' : Lists) (s s' : Sys) : Prop :=
  lists' = map emptied lists
  /\ delivered s' = delivered s ++ concat (map all_of lists)
  /\ events s' = events s.

(** The pass returned at message [k] of the list [entry], whose endpoint was
    at its rate limit: the lists before it are empty, it has lost its first
    [k] messages, the lists after it are as they were, and one retry has been
    entered. *)
Definition stopped_at (lists lists' : Lists) (s s' : Sys) : Prop :=
  exists before entry after k,
    lists = before ++ entry :: after
    /\ (k < length (messages (snd entry)))%nat
    /\ atRateLimit (rateLimits s') (now s') (message_url entry) = true
    /\ lists' = map emptied before ++ without_front k entry :: after
    /\ delivered s' = delivered s ++ concat (map all_of before) ++ front k entry
    /\ events s' = events s ++ [retry_event s'].

(** The pass raised at message [k] of the list [entry]. *)
Definition raised_at (lists : Lists) (s s' : Sys) : Prop :=
  exists before entry after k,
    lists = before ++ entry :: after
    /\ (k < length (messages (snd entry)))%nat
    /\ delivered s' = delivered s ++ concat (map all_of before) ++ front k entry.

(** The kinds of request. *)
Inductive Kind :=
| KChannels | KCreation | KReposition | KMessage | KMessages | KTwitter | KSleep.

Definition kind (r : Request) : Kind :=
  match r with
  | GetGuildChannels _ => KChannels
  | CreateGuildChannel _ _ _ _ => KCreation
  | ModifyGuildChannelPositions _ _ => KReposition
  | CreateChannelMessage _ _ => KMessage
  | GetChannelMessages _ _ => KMessages
  | GetLists | GetListTimeline _ _ _ | CheckRateLimit _ => KTwitter
  | Sleep _ => KSleep
  end.

(** The history grows, by requests of the kinds [allowed] only. *)
Definition grows_by (allowed : Kind -> bool) (s s' : Sys) : Prop :=
  exists h, history s' = history s ++ h /\ forallb (fun r => allowed (kind r)) h = true.

Definition any_kind (k : Kind) : bool := true.

(** Nothing was delivered and the flag [sendingMessages] is as it was. *)
Definition quiet (s s' : Sys) : Prop :=
  delivered s' = delivered s /\ sendingMessages s' = sendingMessages s.

(** [self.twitterLists[name]] *)
Definition get_list (name : string) (lists : Lists) : option TwitterList :=
  match List.find (fun entry => String.eqb (fst entry) name) lists with
  | Some entry => Some (snd entry)
  | None => None
  end.

(** The entry is still there, for the same Twitter list, and a channel it was
    bound to is the channel it is bound to. *)
Definition entry_kept (e e' : string * TwitterList) : Prop :=
  fst e' = fst e
  /\ list_id (snd e') = list_id (snd e)
  /\ (forall c, channelID (snd e) = Some c -> channelID (snd e') = Some c).

(** Every entry is kept, in its place; entries may have been added at the end. *)
Definition lists_kept (lists lists' : Lists) : Prop :=
  exists kept added, lists' = kept ++ added /\ Forall2 entry_kept lists kept.

Definition bound (entry : string * TwitterList) : Prop := channelID (snd entry) <> None.

(** The state after a request to Discord has been answered with [resp]. *)
Definition answered {A} (r : Request) (took : Q) (resp : Response A) (s : Sys) : Sys :=
  let s1 := after_request r took s in
  set_rateLimits (record_rate_limit resp (rateLimits s1)) s1.

(** Sleeps that are enough for the wait on [u] to end, from the state [s]. *)
Definition rounds_needed (s : Sys) (u : string) : nat :=
  match rateLimits s !! u with
  | Some rl => Z.to_nat (Qceiling (inject_Z (reset rl) - now s)) + 1
  | None => 0
  end.

(** The request for the category, made when the listing has none. *)
Definition category_call (guild : string) (name : option string) (fetched : list Channel)
    : list Request :=
  match find_category name fetched with
  | Some _ => []
  | None => [CreateGuildChannel guild name ChannelTypes.GUILD_CATEGORY None]
  end.

Definition not_reposition (k : Kind) : bool :=
  match k with
  | KReposition => false
  | _ => true
  end.

(** What [channelMaintenance] reads from Discord when it starts in [s]: the
    listing of the guild, and the category, found in it or created. *)
Definition fetched_channels (oracle : Oracle) (s : Sys) : list Channel :=
  json (answer_channels oracle (history s ++ [GetGuildChannels (guildID s)])).

Definition category_of (oracle : Oracle) (s : Sys) : Channel :=
  let h := history s ++ [GetGuildChannels (guildID s)] in
  match find_category (categoryName s) (fetched_channels oracle s) with
  | Some channel => channel
  | None =>
      json (answer_channel oracle
              (h ++ [CreateGuildChannel (guildID s) (categoryName s)
                       ChannelTypes.GUILD_CATEGORY None]))
  end.

(** The channels that Discord returned for the creation requests among
    [requests], made after the history [h]. *)
Fixpoint created_in (oracle : Oracle) (h : list Request) (requests : list Request)
    : list Channel :=
  match requests with
  | [] => []
  | r :: rest =>
      (if is_creation r then [json (answer_channel oracle (h ++ [r]))] else [])
      ++ created_in oracle (h ++ [r]) rest
  end.

Definition only_sleep (k : Kind) : bool :=
  match k with
  | KSleep => true
  | _ => false
  end.

(** *** Words for the progress of the queues over passes *)

(** The lists with their first [ks] messages gone, list by list. *)
Definition progress (ks : list nat) (lists : Lists) : Lists := zip_with without_front ks lists.

(** The first [ks] messages of the lists, list after list, as deliveries. *)
Definition sent (ks : list nat) (lists : Lists) : list (option string * string) :=
  concat (zip_with front ks lists).

Definition within (k : nat) (entry : string * TwitterList) : Prop :=
  (k <= length (messages (snd entry)))%nat.

(** The number of messages the list has to send. *)
Definition pending (entry : string * TwitterList) : nat := length (messages (snd entry)).

(** The queue of the list has only grown, at its end. *)
Definition enqueued (e e' : string * TwitterList) : Prop :=
  fst e' = fst e /\ exists more, messages (snd e') = messages (snd e) ++ more.

(* ===================================================================== *)
(** ** A simulated guild, to run the bot against                          *)
(* ===================================================================== *)

Module Simulation.
(** The guild keeps its channels in the order of their creation.  A text
    channel gets its name in lower case, as Discord names them; a new
    channel gets a fresh id and the next position. *)
Definition created_channel (channels : list Channel) (name : option string)
    (channelType : Z) (parentID : option string) : Channel :=
  let n := Z.of_nat (length channels) in
  let given := default "" name in
  mkChannel ("c" +:+ str_of_int n)
            (if channelType =? ChannelTypes.GUILD_TEXT then lower given else given)
            channelType parentID n.

Definition reposition (pairs : list (string * nat)) (channel : Channel) : Channel :=
  match List.find (fun p => String.eqb (fst p) (ch_id channel)) pairs with
  | Some p =>
      mkChannel (ch_id channel) (ch_name channel) (ch_type channel)
                (ch_parent_id channel) (Z.of_nat (snd p))
  | None => channel
  end.

Definition guild_step (channels : list Channel) (r : Request) : list Channel :=
  match r with
  | CreateGuildChannel _ name channelType parentID =>
      channels ++ [created_channel channels name channelType parentID]
  | ModifyGuildChannelPositions _ pairs => map (reposition pairs) channels
  | _ => channels
  end.

Definition guild_after (initial : list Channel) (h : list Request) : list Channel :=
  fold_left guild_step h initial.

Fixpoint insert_by_position (channel : Channel) (sorted : list Channel) : list Channel :=
  match sorted with
  | [] => [channel]
  | other :: rest =>
      if ch_position channel <=? ch_position other then channel :: other :: rest
      else other :: insert_by_position channel rest
  end.

(** The listing: in the order of creation, or in the order of the positions. *)
Definition listing (by_position : bool) (channels : list Channel) : list Channel :=
  if by_position then foldr insert_by_position [] channels else channels.

Definition request_url (h : list Request) : string :=
  match List.last h GetLists with
  | GetGuildChannels g | CreateGuildChannel g _ _ _ | ModifyGuildChannelPositions g _ =>
      makeURL Routes.GUILD_CHANNELS (Some g)
  | CreateChannelMessage c _ | GetChannelMessages c _ =>
      makeURL Routes.CHANNEL_MESSAGES c
  | _ => ""
  end.

Definition nobody : Channel := mkChannel "" "" 0 None 0.

(** Discord answers every request, without rate-limit headers; Twitter has
    the lists [lists] and no post; every call takes a quarter of a second. *)
Definition oracle (by_position : bool) (initial : list Channel) (lists : list ListInfo)
    : Oracle :=
  {| answer_channels h :=
       mkResponse (request_url h) None true (listing by_position (guild_after initial h));
     answer_channel h :=
       mkResponse (request_url h) None true (List.last (guild_after initial h) nobody);
     answer_patch h := true;
     answer_message h := mkResponse (request_url h) None true tt;
     answer_messages h := mkResponse (request_url h) None true [];
     answer_lists h := Some lists;
     answer_timeline h := Some [];
     answer_reset h := Some 900;
     elapsed h := mkDuration 1 4 |}.

Definition start (limits : gmap string RateLimit) (flag : bool) : Sys :=
  mkSys (Some "Twitter For bot") "7" flag limits [] 0 [] [].

(** A guild with the category and three channels under it, created in the
    order alpha, zeta, mike and placed after three other channels. *)
Definition category : Channel :=
  mkChannel "1" "Twitter For bot" ChannelTypes.GUILD_CATEGORY None 0.
Definition alpha : Channel := mkChannel "2" "alpha" ChannelTypes.GUILD_TEXT (Some "1") 3.
Definition zeta : Channel := mkChannel "3" "zeta" ChannelTypes.GUILD_TEXT (Some "1") 4.
Definition mike : Channel := mkChannel "4" "mike" ChannelTypes.GUILD_TEXT (Some "1") 5.
Definition guild : list Channel := [category; alpha; zeta; mike].

Definition three_lists : Lists :=
  [("Alpha", mkTwitterList 11 None []);
   ("Zeta", mkTwitterList 12 None []);
   ("Mike", mkTwitterList 13 None [])].

(** Two lists with a message each; the channel of the first is at its
    rate limit until the time 1000. *)
Definition two_lists : Lists :=
  [("Alpha", mkTwitterList 11 (Some "2") ["first"]);
   ("Zeta", mkTwitterList 12 (Some "3") ["second"])].

Definition alpha_limited : gmap string RateLimit :=
  {[ makeURL Routes.CHANNEL_MESSAGES (Some "2") := mkRateLimit 0 1000 ]}.

(** Two calls of [channelMaintenance] in succession on [guild], nothing else
    touching the guild: both return, the first sends positions for mike and
    zeta, and the second sends positions again. *)
Definition repositions_twice (by_position : bool) : Prop :=
  let oracle := oracle by_position guild [] in
  exists lists1 s1 lists2 s2 pairs,
    channelMaintenance oracle 0 three_lists (start ∅ false) = Ok lists1 s1
    /\ channelMaintenance oracle 0 lists1 s1 = Ok lists2 s2
    /\ history s1 = [GetGuildChannels "7";
                     ModifyGuildChannelPositions "7" [("4", 1%nat); ("3", 2%nat)]]
    /\ history s2 = history s1 ++ [GetGuildChannels "7";
                                   ModifyGuildChannelPositions "7" pairs].
End Simulation.

(** The entry is there with the channel it had, bound or not. *)
Definition entry_same_channel (e e' : string * TwitterList) : Prop :=
  fst e' = fst e
  /\ list_id (snd e') = list_id (snd e)
  /\ channelID (snd e') = channelID (snd e).

Definition unbound (entry : string * TwitterList) : Prop := channelID (snd entry) = None.

Definition nothing_pending (entry : string * TwitterList) : Prop := messages (snd entry) = [].
(* ===================================================================== *)
(** ** Words for the requests of a drain pass                             *)
(* ===================================================================== *)

(** The request that delivers a message. *)
Definition message_request (d : option string * string) : Request :=
  CreateChannelMessage (fst d) (snd d).

(** The requests made are those of the messages delivered, one for each, in
    order. *)
Definition posted (s s' : Sys) : Prop :=
  exists ds, delivered s' = delivered s ++ ds
             /\ history s' = history s ++ map message_request ds.

(** The same, followed by the request for a message that Discord refused. *)
Definition refused (oracle : Oracle) (s s' : Sys) : Prop :=
  exists ds c text,
    delivered s' = delivered s ++ ds
    /\ history s' = history s ++ map message_request ds ++ [CreateChannelMessage c text]
    /\ status_ok (answer_message oracle (history s')) = false.

(** Discord accepted the request for each of the messages [ds], the
    requests being made one after the other from the history [h] on. *)
Fixpoint all_accepted (oracle : Oracle) (h : list Request)
    (ds : list (option string * string)) : Prop :=
  match ds with
  | [] => True
  | d :: rest =>
      status_ok (answer_message oracle (h ++ [message_request d])) = true
      /\ all_accepted oracle (h ++ [message_request d]) rest
  end.

(** The messages [ds] were delivered, and by requests: the log of the
    deliveries has grown by [ds], the requests made are those for [ds], one
    for each and in order, and Discord accepted each of them. *)
Definition delivered_by_requests (oracle : Oracle) (ds : list (option string * string))
    (s s' : Sys) : Prop :=
  delivered s' = delivered s ++ ds
  /\ history s' = history s ++ map message_request ds
  /\ all_accepted oracle (history s) ds.

(** The lists up to message [k] of the list [entry]: the lists before it,
    and [entry] with the first [k] messages of its queue only. *)
Definition cut_at (before : Lists) (entry : string * TwitterList) (k : nat) : Lists :=
  before ++ [(fst entry, set_messages (firstn k (messages (snd entry))) (snd entry))].


(* ===================================================================== *)
(** ** Words for the further properties                                   *)
(* ===================================================================== *)

(** Some line of the text ends in a digit. *)
Definition line_ends_in_digit (text : string) : Prop :=
  exists pre c post,
    text = pre +:+ String c post /\ is_digit c = true /\ at_eol post = true.

(** How [channelMaintenance] leaves one list [e] as [e'], after the requests
    [d] made from the history [h] on, with [channels] its channels at the
    end: a bound list keeps its channel; an unbound list is bound to one of
    [channels], which is under the category with the lower-case name of the
    list, or is what Discord returned for a request among [d] to create a
    text channel of the name of the list under the category. *)
Definition bound_by_maintenance (oracle : Oracle) (channelCategory : Channel)
    (guild : string) (h d : list Request) (channels : list Channel)
    (e e' : string * TwitterList) : Prop :=
  fst e' = fst e
  /\ list_id (snd e') = list_id (snd e)
  /\ messages (snd e') = messages (snd e)
  /\ match channelID (snd e) with
     | Some c => channelID (snd e') = Some c
     | None =>
         exists channel,
           In channel channels
           /\ channelID (snd e') = Some (ch_id channel)
           /\ (is_channel_of channelCategory (fst e) channel = true
               \/ exists before after,
                    let r := CreateGuildChannel guild (Some (fst e)) ChannelTypes.GUILD_TEXT
                               (Some (ch_id channelCategory)) in
                    d = before ++ r :: after
                    /\ channel = json (answer_channel oracle (h ++ before ++ [r])))
     end.

(** The endpoint of the list is not at its rate limit. *)
Definition available (s : Sys) (entry : string * TwitterList) : Prop :=
  atRateLimit (rateLimits s) (now s) (message_url entry) = false.

Definition same_events (s s' : Sys) : Prop := events s' = events s.

(** An event that runs [sendMessages], as [checkMessageRateLimit] enters them. *)
Definition is_retry (e : Event) : Prop := ev_action e = SendMessages /\ ev_priority e = 0.

Module Limited.
(** A Discord that answers every message with the headers of an exhausted
    rate limit, which resets at the time 1000. *)
Definition oracle : Oracle :=
  {| answer_channels h := mkResponse (Simulation.request_url h) None true [];
     answer_channel h := mkResponse (Simulation.request_url h) None true Simulation.nobody;
     answer_patch h := true;
     answer_message h :=
       mkResponse (Simulation.request_url h) (Some (mkRateLimit 0 1000)) true tt;
     answer_messages h := mkResponse (Simulation.request_url h) None true [];
     answer_lists h := Some [];
     answer_timeline h := Some [];
     answer_reset h := Some 900;
     elapsed h := mkDuration 1 4 |}.
End Limited.

(** The request for the posts of a list, from the id of the last post known:
    the posts after that id, or the latest 100 when none is known. *)
Definition timeline_request (twitterList : TwitterList) (lastPostID : option Z) : Request :=
  match lastPostID with
  | None => GetListTimeline (list_id twitterList) None (Some 100)
  | Some n => GetListTimeline (list_id twitterList) (Some n) None
  end.

(** The id that the latest message of a channel gives, if any. *)
Definition latest_id (latest : list DiscordMessage) : option Z :=
  match latest with
  | [] => None
  | message :: _ => getIDFromMessage (content message)
  end.

(** Events were entered, all of them retries of [sendMessages]. *)
Definition retries_entered (s s' : Sys) : Prop :=
  exists added, events s' = events s ++ added /\ Forall is_retry added.

(** The first list of the name among those Twitter returned. *)
Definition first_of_name (name : string) (fetched : list ListInfo) : option ListInfo :=
  List.find (fun twitterList => String.eqb (li_name twitterList) name) fetched.

(** *** Words for an update that no rate limit touches *)

(** Discord never sends the rate-limit headers. *)
Definition silent (oracle : Oracle) : Prop :=
  (forall h, rate_headers (answer_channels oracle h) = None)
  /\ (forall h, rate_headers (answer_channel oracle h) = None)
  /\ (forall h, rate_headers (answer_message oracle h) = None)
  /\ (forall h, rate_headers (answer_messages oracle h) = None).

(** [rateLimits] is as it was and the clock has not gone back. *)
Definition steady (s s' : Sys) : Prop :=
  rateLimits s' = rateLimits s /\ (now s <= now s')%Q.

(** No endpoint is at its rate limit. *)
Definition nothing_limited (s : Sys) : Prop :=
  forall u, atRateLimit (rateLimits s) (now s) u = false.

(** The lists with their queues as the fetch of an update leaves them: each
    list is there with its queue grown at the end, and lists may have been
    added after them. *)
Definition grown (lists queued : Lists) : Prop :=
  exists kept added, queued = kept ++ added /\ Forall2 enqueued lists kept.

(** The fetch of an update for the list [e], which leaves it as [e']: among
    the requests [d] made from the history [h] on, one asks Twitter for the
    posts of the list, and the queue has grown by the posts that Twitter
    returned to that request, formatted, the oldest first. *)
Definition fetched_entry (oracle : Oracle) (h d : list Request)
    (e e' : string * TwitterList) : Prop :=
  fst e' = fst e
  /\ exists before cursor after posts,
       d = before ++ timeline_request (snd e) cursor :: after
       /\ answer_timeline oracle (h ++ before ++ [timeline_request (snd e) cursor])
          = Some posts
       /\ messages (snd e') = messages (snd e) ++ map format_post (rev posts).

(** The requests that the maintenance of the channels makes. *)
Definition maintenance_kind (k : Kind) : bool :=
  match k with
  | KChannels | KCreation | KReposition | KSleep => true
  | _ => false
  end.

(** The names of the lists are ASCII text. *)
Definition ascii_names (lists : Lists) : Prop :=
  Forall (fun entry => is_ascii_text (fst entry) = true) lists.

Module Posted.
(** A channel whose latest message is one that the bot formatted from a
    post; Discord sends no rate-limit headers and Twitter has no post. *)
Definition post : Post :=
  mkPost 123456789 "Wed Oct 10 20:19:24 +0000 2018" "bencecile" false.

Definition oracle : Oracle :=
  {| answer_channels h := mkResponse (Simulation.request_url h) None true [];
     answer_channel h := mkResponse (Simulation.request_url h) None true Simulation.nobody;
     answer_patch h := true;
     answer_message h := mkResponse (Simulation.request_url h) None true tt;
     answer_messages h :=
       mkResponse (Simulation.request_url h) None true
                  [mkDiscordMessage (format_post post)];
     answer_lists h := Some [];
     answer_timeline h := Some [];
     answer_reset h := Some 900;
     elapsed h := mkDuration 1 4 |}.
End Posted.

Module Fetching.
(** A guild with the category and the channel of the list Alpha; Twitter has
    the list Alpha with two posts, which it returns the newer first; Discord
    sends no rate-limit headers. *)
Definition older : Post := mkPost 100 "Wed Oct 10 20:19:24 +0000 2018" "bencecile" false.
Definition newer : Post := mkPost 101 "Thu Oct 11 08:00:00 +0000 2018" "bencecile" true.

Definition oracle : Oracle :=
  {| answer_channels h :=
       mkResponse (Simulation.request_url h) None true
                  [Simulation.category; Simulation.alpha];
     answer_channel h := mkResponse (Simulation.request_url h) None true Simulation.nobody;
     answer_patch h := true;
     answer_message h := mkResponse (Simulation.request_url h) None true tt;
     answer_messages h := mkResponse (Simulation.request_url h) None true [];
     answer_lists h := Some [mkListInfo "Alpha" 11];
     answer_timeline h := Some [newer; older];
     answer_reset h := Some 900;
     elapsed h := mkDuration 1 4 |}.
End Fetching.
(* ===================================================================== *)
(** ** Rate limits                                                        *)
(* ===================================================================== *)

Lemma Qltb_lt x y : Qltb x y = true <-> (x < y)%Q.
Proof.
  unfold Qltb. rewrite negb_true_iff. split.
  - intros H. apply Qnot_le_lt. intros Hle. apply Qle_bool_iff in Hle. congruence.
  - intros H. destruct (Qle_bool y x) eqn:E; [|reflexivity].
    apply Qle_bool_iff in E. exfalso. apply (Qlt_not_le _ _ H E).
Qed.

Lemma atRateLimit_spec limits now u :
  atRateLimit limits now u = true <->
  exists rl, limits !! u = Some rl /\ remaining rl = 0 /\ (now <= inject_Z (reset rl))%Q.
Proof.
  unfold atRateLimit. split.
  - destruct (limits !! u) as [rl|] eqn:E; [|discriminate].
    destruct (Z.eqb_spec (remaining rl) 0) as [H0|]; [|discriminate].
    destruct (Qltb (inject_Z (reset rl)) now) eqn:Hlt; [discriminate|].
    intros _. exists rl. repeat split; trivial.
    apply Qnot_lt_le. intros Hc. apply Qltb_lt in Hc. congruence.
  - intros (rl & -> & -> & Hle). simpl.
    destruct (Qltb (inject_Z (reset rl)) now) eqn:Hlt; [|reflexivity].
    apply Qltb_lt in Hlt. exfalso. apply (Qlt_not_le _ _ Hlt Hle).
Qed.

Example format_example :
  MESSAGE_FORMAT "bob" 123456789 "Wed Oct 10 20:19:24 +0000 2018" (retweetStatus_of true)
  = "URL: https://twitter.com/bob/status/123456789" +:+ nl +:+
    "Date: Wed Oct 10 20:19:24 +0000 2018" +:+ nl +:+ "<Retweet>".
Proof. reflexivity. Qed.

Example parse_example :
  getIDFromMessage (MESSAGE_FORMAT "bob" 123456789 "Wed Oct 10 20:19:24 +0000 2018" "")
  = Some 123456789.
Proof. vm_compute. reflexivity. Qed.

Example lines_example :
  lines (MESSAGE_FORMAT "bob" 42 "Wed" (retweetStatus_of true))
  = ["URL: https://twitter.com/bob/status/42"; "Date: Wed"; "<Retweet>"].
Proof. vm_compute. reflexivity. Qed.

(* ===================================================================== *)
(** ** Texts: append, decimal numerals, the search for [(\d+)$]           *)
(* ===================================================================== *)

Lemma str_app_cons c s t : String c s +:+ t = String c (s +:+ t).
Proof. reflexivity. Qed.

Lemma str_app_nil_l s : "" +:+ s = s.
Proof. reflexivity. Qed.

Lemma str_app_assoc s t u : (s +:+ t) +:+ u = s +:+ (t +:+ u).
Proof.
  induction s as [|c s IH]; [reflexivity|].
  rewrite !str_app_cons. now rewrite IH.
Qed.

Lemma has_newline_app s t : has_newline (s +:+ t) = has_newline s || has_newline t.
Proof.
  induction s as [|c s IH]; [reflexivity|].
  rewrite str_app_cons. simpl. rewrite IH. now rewrite orb_assoc.
Qed.

Lemma ends_nondigit_app s c :
  is_digit c = false -> ends_nondigit (s +:+ String c "") = true.
Proof.
  intros Hc. induction s as [|a s IH].
  - simpl. now rewrite Hc.
  - rewrite str_app_cons. destruct s as [|b s].
    + rewrite str_app_nil_l. simpl. now rewrite Hc.
    + rewrite str_app_cons in *. exact IH.
Qed.

Section Numerals.
Import DecimalPos.Unsigned.

Lemma uint_string_digits d : all_digits (NilEmpty.string_of_uint d) = true.
Proof. induction d; simpl; auto. Qed.

Lemma uint_string_nonempty d : d <> Decimal.Nil -> NilEmpty.string_of_uint d <> "".
Proof. destruct d; simpl; congruence. Qed.

Lemma int_of_digits_uint d acc :
  int_of_digits acc (NilEmpty.string_of_uint d)
  = Z.of_N (of_lu (Decimal.rev d)) + acc * 10 ^ Z.of_N (usize d).
Proof.
  revert acc.
  induction d; intros acc;
    [ simpl; lia | .. ];
    unfold Decimal.rev; simpl Decimal.revapp; rewrite of_lu_revapp;
    simpl NilEmpty.string_of_uint; simpl int_of_digits; rewrite IHd;
    simpl usize; rewrite N2Z.inj_succ, Z.pow_succ_r by lia;
    rewrite N2Z.inj_add, N2Z.inj_mul, N2Z.inj_pow;
    match goal with
    | |- context [digit_value ?c] =>
        let v := eval vm_compute in (digit_value c) in
        change (digit_value c) with v
    end;
    match goal with
    | |- context [Z.of_N (of_lu (?D Decimal.Nil))] =>
        let v := eval vm_compute in (Z.of_N (of_lu (D Decimal.Nil))) in
        change (Z.of_N (of_lu (D Decimal.Nil))) with v
    end;
    change (Z.of_N 10) with 10; ring.
Qed.

(** [int(str(n)) = n] for a non-negative [n]. *)
Lemma int_of_str_of_int n : 0 <= n -> int_of_digits 0 (str_of_int n) = n.
Proof.
  intros Hn. destruct n as [|p|p]; [reflexivity| |lia].
  unfold str_of_int. simpl Z.to_int. simpl NilZero.string_of_int.
  unfold NilZero.string_of_uint.
  destruct (Pos.to_uint p) eqn:E;
    [ exfalso; now apply (to_uint_nonnil p) | .. ];
    rewrite <- E, int_of_digits_uint, <- of_uint_alt, of_to; simpl; lia.
Qed.

Lemma str_of_int_digits n : 0 <= n -> all_digits (str_of_int n) = true.
Proof.
  intros Hn. destruct n as [|p|p]; [reflexivity| |lia].
  unfold str_of_int. simpl. unfold NilZero.string_of_uint.
  destruct (Pos.to_uint p) eqn:E; rewrite <- ?E; try apply uint_string_digits.
  reflexivity.
Qed.

Lemma str_of_int_nonempty n : str_of_int n <> "".
Proof.
  destruct n as [|p|p]; [discriminate| |discriminate].
  unfold str_of_int. simpl. unfold NilZero.string_of_uint.
  destruct (Pos.to_uint p) eqn:E; rewrite <- ?E; try discriminate;
    apply uint_string_nonempty; rewrite E; discriminate.
Qed.
End Numerals.

Lemma match_digits_eol_prefix p tail :
  p <> "" -> has_newline p = false -> ends_nondigit p = true ->
  match_digits_eol (p +:+ tail) = None.
Proof.
  induction p as [|c p IH]; [congruence|]. intros _ Hnl Hend.
  rewrite str_app_cons. simpl. destruct (is_digit c) eqn:Hc; [|reflexivity].
  simpl in Hnl. apply orb_false_iff in Hnl as [_ Hnl].
  destruct p as [|b p]; [simpl in Hend; rewrite Hc in Hend; discriminate|].
  rewrite IH; [|discriminate|assumption|exact Hend].
  rewrite str_app_cons. simpl. simpl in Hnl. apply orb_false_iff in Hnl as [-> _].
  reflexivity.
Qed.

Lemma match_digits_eol_run ds rest :
  ds <> "" -> all_digits ds = true ->
  match_digits_eol (ds +:+ String newline rest) = Some ds.
Proof.
  induction ds as [|c ds IH]; [congruence|]. intros _ Hds.
  simpl in Hds. apply andb_true_iff in Hds as [Hc Hds].
  rewrite str_app_cons. simpl. rewrite Hc.
  destruct ds as [|b ds].
  - rewrite str_app_nil_l. reflexivity.
  - rewrite IH; [reflexivity|discriminate|assumption].
Qed.

Lemma re_search_eq s :
  re_search s =
  match match_digits_eol s with
  | Some group1 => Some group1
  | None => match s with EmptyString => None | String _ rest => re_search rest end
  end.
Proof. destruct s; reflexivity. Qed.

(** The leftmost match of [(\d+)$] in [p ++ ds ++ "\n" ++ rest] is [ds], when
    [p] is on one line and does not end in a digit. *)
Lemma re_search_first_line p ds rest :
  has_newline p = false -> ends_nondigit p = true ->
  ds <> "" -> all_digits ds = true ->
  re_search (p +:+ ds +:+ String newline rest) = Some ds.
Proof.
  intros Hnl Hend Hne Hds. induction p as [|c p IH].
  - rewrite str_app_nil_l, re_search_eq.
    rewrite match_digits_eol_run by assumption. reflexivity.
  - rewrite re_search_eq.
    rewrite match_digits_eol_prefix by (discriminate || assumption).
    rewrite str_app_cons. apply IH.
    + simpl in Hnl. now apply orb_false_iff in Hnl as [_ ?].
    + destruct p; [reflexivity|exact Hend].
Qed.

(** A match of [(\d+)$] is a non-empty run of digits that stops at the end of
    a line. *)
Lemma match_digits_eol_sound s g :
  match_digits_eol s = Some g ->
  exists post, s = g +:+ post /\ g <> "" /\ all_digits g = true /\ at_eol post = true.
Proof.
  revert g. induction s as [|c s IH]; intros g; [discriminate|].
  simpl. destruct (is_digit c) eqn:Hc; [|discriminate].
  destruct (match_digits_eol s) as [more|] eqn:Hm.
  - intros [= <-]. destruct (IH _ eq_refl) as (post & -> & Hne & Hd & He).
    exists post. rewrite str_app_cons. simpl. rewrite Hc, Hd. repeat split; auto.
  - destruct (at_eol s) eqn:He; [|discriminate]. intros [= <-].
    exists s. simpl. rewrite Hc. repeat split; auto.
Qed.

Lemma re_search_sound s g :
  re_search s = Some g ->
  exists pre post, s = pre +:+ g +:+ post /\ g <> "" /\ all_digits g = true
                   /\ at_eol post = true
                   /\ forall p1 p2, pre = p1 +:+ p2 -> p2 <> "" ->
                         match_digits_eol (p2 +:+ g +:+ post) = None.
Proof.
  revert g. induction s as [|c s IH]; intros g.
  - simpl. discriminate.
  - rewrite re_search_eq.
    destruct (match_digits_eol (String c s)) as [g'|] eqn:Hm.
    + intros [= <-]. apply match_digits_eol_sound in Hm as (post & Hs & ? & ? & ?).
      exists "", post. rewrite str_app_nil_l. repeat split; auto.
      intros [|a p1] p2; rewrite ?str_app_nil_l, ?str_app_cons; congruence.
    + intros Hs. destruct (IH _ Hs) as (pre & post & -> & ? & ? & ? & Hleft).
      exists (String c pre), post. rewrite str_app_cons. repeat split; auto.
      intros [|a p1] p2.
      * rewrite str_app_nil_l. intros <- _. rewrite str_app_cons. exact Hm.
      * rewrite str_app_cons. intros [= _ ->] Hne. exact (Hleft p1 p2 eq_refl Hne).
Qed.

Lemma MESSAGE_FORMAT_shape screenName id date rt :
  MESSAGE_FORMAT screenName id date rt
  = url_prefix screenName +:+ str_of_int id +:+ String newline ("Date: " +:+ date +:+ rt).
Proof.
  unfold MESSAGE_FORMAT, url_prefix, nl.
  rewrite !str_app_assoc. reflexivity.
Qed.

Lemma url_prefix_one_line screenName :
  has_newline screenName = false ->
  has_newline (url_prefix screenName) = false /\ ends_nondigit (url_prefix screenName) = true.
Proof.
  intros H. unfold url_prefix. split.
  - rewrite !has_newline_app, H. reflexivity.
  - change "/status/" with ("/status" +:+ String "/" "").
    rewrite <- !str_app_assoc. now apply ends_nondigit_app.
Qed.

(** Formatting then parsing gives the identifier back, for any text after the
    first line. *)
Lemma format_then_parse screenName id date rt :
  0 <= id -> has_newline screenName = false ->
  getIDFromMessage (MESSAGE_FORMAT screenName id date rt) = Some id.
Proof.
  intros Hid Hnl. unfold getIDFromMessage. rewrite MESSAGE_FORMAT_shape.
  destruct (url_prefix_one_line screenName Hnl) as [H1 H2].
  rewrite re_search_first_line;
    auto using str_of_int_nonempty, str_of_int_digits.
  now rewrite int_of_str_of_int.
Qed.

Lemma lines_from_one_line cur p rest :
  has_newline p = false ->
  lines_from cur (p +:+ String newline rest) = (cur +:+ p) :: lines_from "" rest.
Proof.
  revert cur. induction p as [|c p IH]; intros cur Hnl.
  - rewrite str_app_nil_l. simpl.
    replace (cur +:+ "") with cur; [reflexivity|].
    clear. induction cur as [|a cur IH]; [reflexivity|]. rewrite str_app_cons. now rewrite <- IH.
  - simpl in Hnl. apply orb_false_iff in Hnl as [Hc Hnl].
    rewrite str_app_cons. simpl. rewrite Hc, IH by assumption.
    now rewrite str_app_assoc.
Qed.

Lemma str_app_nil_r s : s +:+ "" = s.
Proof. induction s as [|a s IH]; [reflexivity|]. rewrite str_app_cons. now rewrite IH. Qed.

Lemma lines_from_last_line cur p :
  has_newline p = false -> lines_from cur p = [cur +:+ p].
Proof.
  revert cur. induction p as [|c p IH]; intros cur Hnl.
  - simpl. now rewrite str_app_nil_r.
  - simpl in Hnl. apply orb_false_iff in Hnl as [Hc Hnl].
    simpl. rewrite Hc, IH by assumption. now rewrite str_app_assoc.
Qed.

Lemma has_newline_digits s : all_digits s = true -> has_newline s = false.
Proof.
  induction s as [|c s IH]; [reflexivity|].
  simpl. intros [Hc Hs]%andb_true_iff. rewrite IH by assumption.
  destruct (Ascii.eqb_spec c newline) as [->|]; [discriminate|reflexivity].
Qed.

Lemma final_line_format screenName id date repost :
  0 <= id -> has_newline screenName = false -> has_newline date = false ->
  final_line (MESSAGE_FORMAT screenName id date (retweetStatus_of repost))
  = if repost then "<Retweet>" else "Date: " +:+ date.
Proof.
  intros Hid Hnl Hdate. unfold final_line, lines. rewrite MESSAGE_FORMAT_shape.
  rewrite <- str_app_assoc, lines_from_one_line.
  - assert (Hd : has_newline ("Date: " +:+ date) = false)
      by (rewrite has_newline_app, Hdate; reflexivity).
    destruct repost; unfold retweetStatus_of, nl.
    + change (String newline "" +:+ "<Retweet>") with (String newline "<Retweet>").
      rewrite <- (str_app_assoc "Date: " date).
      rewrite lines_from_one_line by exact Hd.
      rewrite lines_from_last_line by reflexivity. reflexivity.
    + rewrite str_app_nil_r.
      rewrite lines_from_last_line by exact Hd. reflexivity.
  - rewrite has_newline_app. destruct (url_prefix_one_line _ Hnl) as [-> _].
    simpl. apply has_newline_digits. now apply str_of_int_digits.
Qed.

Lemma first_line_format screenName id date rt :
  0 <= id -> has_newline screenName = false ->
  first_line (MESSAGE_FORMAT screenName id date rt) = url_prefix screenName +:+ str_of_int id.
Proof.
  intros Hid Hnl. unfold first_line, lines. rewrite MESSAGE_FORMAT_shape.
  rewrite <- str_app_assoc, lines_from_one_line; [reflexivity|].
  rewrite has_newline_app. destruct (url_prefix_one_line _ Hnl) as [-> _]. simpl.
  pose proof (str_of_int_digits id Hid) as Hd. revert Hd.
  generalize (str_of_int id). induction s as [|c s IH]; [reflexivity|].
  simpl. intros [Hc Hs]%andb_true_iff. rewrite IH by assumption.
  destruct (Ascii.eqb_spec c newline) as [->|]; [discriminate|reflexivity].
Qed.

(* ===================================================================== *)
(** ** The sort by name and the position pairs                            *)
(* ===================================================================== *)

Lemma name_le_refl c : name_le c c.
Proof.
  unfold name_le. destruct (String.leb_total (ch_name c) (ch_name c)); assumption.
Qed.

Lemma insert_by_name_perm c l : Permutation (insert_by_name c l) (c :: l).
Proof.
  induction l as [|d l IH]; simpl; [reflexivity|].
  destruct (String.leb (ch_name c) (ch_name d)); [reflexivity|].
  rewrite IH. apply perm_swap.
Qed.

Lemma sort_by_name_perm l : Permutation (sort_by_name l) l.
Proof.
  induction l as [|c l IH]; simpl; [reflexivity|].
  rewrite insert_by_name_perm. now rewrite IH.
Qed.

Lemma sort_by_name_length l : length (sort_by_name l) = length l.
Proof. apply Permutation_length, sort_by_name_perm. Qed.

Lemma insert_by_name_sorted c l :
  Sorted name_le l -> Sorted name_le (insert_by_name c l).
Proof.
  induction l as [|d l IH]; intros Hs; simpl.
  - repeat constructor.
  - destruct (String.leb (ch_name c) (ch_name d)) eqn:E.
    + constructor; [assumption|]. constructor. exact E.
    + inversion Hs as [|? ? Hl Hd]; subst. constructor; [auto|].
      assert (Hdc : name_le d c).
      { unfold name_le. destruct (String.leb_total (ch_name c) (ch_name d)); congruence. }
      destruct l as [|e l]; simpl.
      * constructor. exact Hdc.
      * destruct (String.leb (ch_name c) (ch_name e)); constructor;
          [exact Hdc | now inversion Hd].
Qed.

Lemma sort_by_name_sorted l : Sorted name_le (sort_by_name l).
Proof.
  induction l as [|c l IH]; simpl; [constructor|]. now apply insert_by_name_sorted.
Qed.

(** Channels of the same name keep their order: the sort is stable. *)
Lemma insert_by_name_stable n c l :
  List.filter (fun d => String.eqb (ch_name d) n) (insert_by_name c l)
  = List.filter (fun d => String.eqb (ch_name d) n) (c :: l).
Proof.
  induction l as [|d l IH]; [reflexivity|].
  simpl insert_by_name. destruct (String.leb (ch_name c) (ch_name d)) eqn:E; [reflexivity|].
  simpl in *. rewrite IH.
  destruct (String.eqb_spec (ch_name c) n) as [Hc|]; [|reflexivity].
  destruct (String.eqb_spec (ch_name d) n) as [Hd|]; [|reflexivity].
  exfalso. pose proof (name_le_refl c) as Hr. unfold name_le in Hr. congruence.
Qed.

Lemma sort_by_name_stable n l :
  List.filter (fun d => String.eqb (ch_name d) n) (sort_by_name l)
  = List.filter (fun d => String.eqb (ch_name d) n) l.
Proof.
  induction l as [|c l IH]; [reflexivity|].
  simpl sort_by_name. rewrite insert_by_name_stable. simpl. now rewrite IH.
Qed.

(** Channels already in order are left as they are. *)
Lemma sort_by_name_sorted_id l : Sorted name_le l -> sort_by_name l = l.
Proof.
  induction l as [|c l IH]; intros Hs; [reflexivity|].
  inversion Hs as [|? ? Hl Hc]; subst. simpl. rewrite IH by assumption.
  destruct l as [|d l]; [reflexivity|].
  inversion Hc as [|? ? Hcd]; subst. simpl. unfold name_le in Hcd. now rewrite Hcd.
Qed.

Lemma positionPairs_from_In cid j i cur old :
  In (cid, j) (positionPairs_from i cur old) <->
  exists c, (i <= j)%nat /\ cur !! (j - i)%nat = Some c /\ ch_id c = cid
            /\ old !! j <> Some c.
Proof.
  revert i. induction cur as [|c cur IH]; intros i; simpl.
  - split; [tauto|]. intros (c & _ & Hc & _). discriminate.
  - assert (Hrest :
      In (cid, j) (positionPairs_from (S i) cur old) <->
      exists c', (i < j)%nat /\ (c :: cur) !! (j - i)%nat = Some c' /\ ch_id c' = cid
                 /\ old !! j <> Some c').
    { rewrite IH. split.
      - intros (c' & Hij & Hc' & ? & ?). exists c'. split; [lia|].
        replace (j - i)%nat with (S (j - S i)) by lia. auto.
      - intros (c' & Hij & Hc' & ? & ?). exists c'. split; [lia|].
        replace (j - i)%nat with (S (j - S i)) in Hc' by lia. auto. }
    case_bool_decide as Hold.
    + rewrite Hrest. split.
      * intros (c' & ? & ?). exists c'. split; [lia|auto].
      * intros (c' & Hij & Hc' & Hid & Hne). exists c'. split; [|auto].
        destruct (decide (i = j)) as [->|]; [|lia].
        rewrite Nat.sub_diag in Hc'. simpl in Hc'. congruence.
    + simpl. rewrite Hrest. split.
      * intros [[= <- <-]|(c' & ? & ?)].
        -- exists c. rewrite Nat.sub_diag. auto.
        -- exists c'. split; [lia|auto].
      * intros (c' & Hij & Hc' & Hid & Hne).
        destruct (decide (i = j)) as [->|].
        -- rewrite Nat.sub_diag in Hc'. simpl in Hc'. left. congruence.
        -- right. exists c'. split; [lia|auto].
Qed.

Lemma positionPairs_from_nil i cur old :
  positionPairs_from i cur old = [] <->
  forall k c, cur !! k = Some c -> old !! (i + k)%nat = Some c.
Proof.
  revert i. induction cur as [|c cur IH]; intros i; simpl.
  - split; [|reflexivity]. intros _ k c. discriminate.
  - case_bool_decide as Hold.
    + rewrite IH. split.
      * intros H [|k] c'; simpl.
        -- intros [= <-]. now rewrite Nat.add_0_r.
        -- intros Hk. replace (i + S k)%nat with (S i + k)%nat by lia. auto.
      * intros H k c' Hk. replace (S i + k)%nat with (i + S k)%nat by lia. now apply H.
    + split; [discriminate|]. intros H. exfalso. apply Hold.
      specialize (H 0%nat c eq_refl). now rewrite Nat.add_0_r in H.
Qed.

(** The batch is empty exactly when the channels are already in sorted order. *)
Lemma positionPairs_nil_iff old : positionPairs old = [] <-> sort_by_name old = old.
Proof.
  unfold positionPairs. rewrite positionPairs_from_nil. split.
  - intros H. apply list_eq. intros k.
    destruct (sort_by_name old !! k) as [c|] eqn:E.
    + symmetry. exact (H k c E).
    + apply lookup_ge_None in E. rewrite sort_by_name_length in E.
      symmetry. now apply lookup_ge_None.
  - intros -> k c Hk. exact Hk.
Qed.

Lemma positionPairs_sorted old : Sorted name_le old -> positionPairs old = [].
Proof. intros H. apply positionPairs_nil_iff. now apply sort_by_name_sorted_id. Qed.

(* ===================================================================== *)
(** ** What a computation leaves unchanged                                *)
(* ===================================================================== *)

Section Frame.
Context (R : Sys -> Sys -> Prop) `{!Reflexive R} `{!Transitive R}.

Lemma steps_ret {A} (a : A) : steps R (ret a).
Proof. intros s. simpl. reflexivity. Qed.

Lemma steps_raise {A} : steps R (@raise A).
Proof. intros s. simpl. reflexivity. Qed.

Lemma steps_waiting {A} : steps R (fun _ => @Waiting A).
Proof. intros s. exact I. Qed.

Lemma steps_gets {A} (f : Sys -> A) : steps R (gets f).
Proof. intros s. simpl. reflexivity. Qed.

Lemma steps_modify (g : Sys -> Sys) : (forall s, R s (g s)) -> steps R (modify g).
Proof. intros H s. apply H. Qed.

Lemma steps_bind {A B} (m : M A) (k : A -> M B) :
  steps R m -> (forall a, steps R (k a)) -> steps R (bind m k).
Proof.
  intros Hm Hk s. unfold bind. specialize (Hm s).
  destruct (m s) as [a s1| |]; [|assumption|exact I].
  specialize (Hk a s1). destruct (k a s1); [etransitivity; eassumption..|exact I].
Qed.
End Frame.

(** Take a computation apart down to its primitive steps. *)
Ltac steps_tac :=
  repeat match goal with
    | |- steps _ (ret _) => apply steps_ret; typeclasses eauto
    | |- steps _ raise => apply steps_raise; typeclasses eauto
    | |- steps _ (fun _ => Waiting) => apply steps_waiting
    | |- steps _ (gets _) => apply steps_gets; typeclasses eauto
    | |- steps _ (bind _ _) => apply steps_bind; [typeclasses eauto..| |intros ?]
    | |- steps _ (if ?b then _ else _) => destruct b
    | |- steps _ (match ?x with _ => _ end) => destruct x
    end.

Global Instance grows_by_refl allowed : Reflexive (grows_by allowed).
Proof. intros s. exists []. now rewrite app_nil_r. Qed.

Global Instance grows_by_trans allowed : Transitive (grows_by allowed).
Proof.
  intros s1 s2 s3 (h1 & H1 & A1) (h2 & H2 & A2). exists (h1 ++ h2). split.
  - now rewrite H2, H1, <- app_assoc.
  - rewrite forallb_app, A1, A2. reflexivity.
Qed.

Lemma steps_ok {A} R (m : M A) s a s' : steps R m -> m s = Ok a s' -> R s s'.
Proof. intros H E. specialize (H s). now rewrite E in H. Qed.

Lemma bind_ok {A B} (m : M A) (k : A -> M B) s b s' :
  bind m k s = Ok b s' -> exists a s1, m s = Ok a s1 /\ k a s1 = Ok b s'.
Proof. unfold bind. destruct (m s) as [a s1| |]; [eauto|discriminate..]. Qed.

Section ClientFrames.
Context (oracle : Oracle).
Context (R : Sys -> Sys -> Prop) `{!Reflexive R} `{!Transitive R}.
Context (allowed : Kind -> bool).
Context (R_request : forall r took s, allowed (kind r) = true -> R s (after_request r took s)).
Context (R_rateLimits : forall l s, R s (set_rateLimits l s)).

Lemma steps_request r : allowed (kind r) = true -> steps R (request oracle r).
Proof. intros Hr s. now apply R_request. Qed.

Lemma steps_sleep n : allowed KSleep = true -> steps R (sleep oracle n).
Proof. intros Hr s. now apply R_request. Qed.

Lemma steps_checkResponse {A} (resp : Response A) : steps R (checkResponse resp).
Proof. unfold checkResponse. steps_tac. apply steps_modify. auto. Qed.

Lemma steps_atRateLimitM u : steps R (atRateLimitM u).
Proof. apply steps_gets; typeclasses eauto. Qed.

Lemma steps_getChannelMessages c n :
  allowed KMessages = true -> steps R (getChannelMessages oracle c n).
Proof.
  intros. unfold getChannelMessages.
  steps_tac; [now apply steps_request|apply steps_checkResponse].
Qed.

Lemma steps_createGuildChannel g n t p :
  allowed KCreation = true -> steps R (createGuildChannel oracle g n t p).
Proof.
  intros. unfold createGuildChannel.
  steps_tac; [now apply steps_request|apply steps_checkResponse].
Qed.

Lemma steps_getGuildChannels g :
  allowed KChannels = true -> steps R (getGuildChannels oracle g).
Proof.
  intros. unfold getGuildChannels.
  steps_tac; [now apply steps_request|apply steps_checkResponse].
Qed.

Lemma steps_modifyGuildChannelPositions g pairs :
  allowed KReposition = true -> steps R (modifyGuildChannelPositions oracle g pairs).
Proof. intros. unfold modifyGuildChannelPositions. steps_tac. now apply steps_request. Qed.

Lemma steps_twitter_call {A} r (answer : list Request -> option A) :
  allowed (kind r) = true -> steps R (twitter_call oracle r answer).
Proof. intros. unfold twitter_call. steps_tac. now apply steps_request. Qed.

Lemma steps_updateTwitterLists lists :
  allowed KTwitter = true -> steps R (updateTwitterLists oracle lists).
Proof.
  intros. unfold updateTwitterLists, GetListsM. steps_tac. now apply steps_twitter_call.
Qed.

Lemma steps_wait rounds u :
  allowed KSleep = true -> steps R (wait_while_rate_limited oracle rounds u).
Proof.
  intros. induction rounds as [|n IH]; simpl; steps_tac;
    [apply steps_atRateLimitM|apply steps_atRateLimitM|now apply steps_sleep|exact IH].
Qed.

Lemma steps_ensure_channel rounds cat name tl chans :
  allowed KSleep = true -> allowed KCreation = true ->
  steps R (ensure_channel oracle rounds cat name tl chans).
Proof.
  intros. unfold ensure_channel. steps_tac;
    [now apply steps_wait|now apply steps_createGuildChannel].
Qed.

Lemma steps_ensure_channels rounds cat lists chans :
  allowed KSleep = true -> allowed KCreation = true ->
  steps R (ensure_channels oracle rounds cat lists chans).
Proof.
  intros. revert chans.
  induction lists as [|[name tl] lists IH]; intros chans; simpl; steps_tac.
  - now apply steps_ensure_channel.
  - apply IH.
Qed.

Lemma steps_channelMaintenance rounds lists :
  allowed KChannels = true -> allowed KSleep = true -> allowed KCreation = true ->
  allowed KReposition = true ->
  steps R (channelMaintenance oracle rounds lists).
Proof.
  intros. unfold channelMaintenance. steps_tac.
  - now apply steps_getGuildChannels.
  - now apply steps_createGuildChannel.
  - now apply steps_ensure_channels.
  - now apply steps_modifyGuildChannelPositions.
Qed.

Context (R_event : forall e s, R s (add_event e s)).

Lemma steps_scheduler_enterabs t p a : steps R (scheduler_enterabs t p a).
Proof. unfold scheduler_enterabs. apply steps_modify. auto. Qed.

Lemma steps_checkMessageRateLimit c : steps R (checkMessageRateLimit c).
Proof.
  unfold checkMessageRateLimit, scheduler_enter. steps_tac.
  - apply steps_atRateLimitM.
  - apply steps_scheduler_enterabs.
Qed.

Lemma steps_fetch_posts tl :
  allowed KMessages = true -> allowed KTwitter = true ->
  steps R (fetch_posts oracle tl).
Proof.
  intros. unfold fetch_posts, GetListTimelineM. steps_tac;
    first [ apply steps_checkMessageRateLimit
          | now apply steps_getChannelMessages
          | now apply steps_twitter_call ].
Qed.

Lemma steps_fetch_all lists :
  allowed KMessages = true -> allowed KTwitter = true ->
  steps R (fetch_all oracle lists).
Proof.
  intros. induction lists as [|[name tl] lists IH]; simpl; steps_tac.
  - now apply steps_fetch_posts.
  - exact IH.
Qed.
End ClientFrames.

(* ===================================================================== *)
(** ** The drain pass                                                     *)
(* ===================================================================== *)

Section Drain.
Context (oracle : Oracle).

Lemma checkMessageRateLimit_eq channel s :
  checkMessageRateLimit channel s =
  if atRateLimit (rateLimits s) (now s) (makeURL Routes.CHANNEL_MESSAGES channel)
  then Ok true (add_event (retry_event s) s)
  else Ok false s.
Proof.
  unfold checkMessageRateLimit, bind, atRateLimitM, gets.
  destruct (atRateLimit _ _ _); reflexivity.
Qed.

Lemma createChannelMessage_eq channel text s :
  let h := history s ++ [CreateChannelMessage channel text] in
  let s1 := after_request (CreateChannelMessage channel text) (seconds (elapsed oracle h)) s in
  let s2 := set_rateLimits (record_rate_limit (answer_message oracle h) (rateLimits s1)) s1 in
  createChannelMessage oracle channel text s =
  if status_ok (answer_message oracle h) then Ok tt (add_delivered channel text s2)
  else Raise s2.
Proof.
  intros h s1 s2. unfold createChannelMessage, bind, request, checkResponse, bind, modify.
  fold h. destruct (status_ok (answer_message oracle h)); reflexivity.
Qed.

(** One list: the pass sends a front of the copy and pops as many messages
    from the list itself. *)
Lemma send_copied_spec channel copied extra s :
  match send_copied oracle channel copied (copied ++ extra) s with
  | Ok (rest, stopped) s' =>
      exists k,
        (k <= length copied)%nat
        /\ rest = skipn k copied ++ extra
        /\ delivered s' = delivered s ++ map (pair channel) (firstn k copied)
        /\ sendingMessages s' = sendingMessages s
        /\ if stopped
           then (k < length copied)%nat
                /\ events s' = events s ++ [retry_event s']
                /\ atRateLimit (rateLimits s') (now s')
                     (makeURL Routes.CHANNEL_MESSAGES channel) = true
           else k = length copied /\ events s' = events s
  | Raise s' =>
      exists k,
        (k < length copied)%nat
        /\ delivered s' = delivered s ++ map (pair channel) (firstn k copied)
  | Waiting => False
  end.
Proof.
  revert s. induction copied as [|message copied IH]; intros s.
  - simpl. exists 0%nat. simpl. rewrite app_nil_r. repeat split; auto.
  - cbn [send_copied]. unfold bind at 1. rewrite checkMessageRateLimit_eq.
    destruct (atRateLimit _ _ _) eqn:Hlim.
    + cbn. exists 0%nat. cbn. rewrite app_nil_r.
      repeat split; auto; lia.
    + unfold bind at 1. rewrite createChannelMessage_eq.
      destruct (status_ok _).
      * cbn [app].
        match goal with
        | |- context [send_copied oracle channel copied (copied ++ extra) ?s1] =>
            specialize (IH s1);
            destruct (send_copied oracle channel copied (copied ++ extra) s1)
              as [[rest stopped] s'| s'|]; [| |exact IH]
        end.
        -- destruct IH as (k & Hk & Hrest & Hd & Hflag & Hstop).
           exists (S k). cbn in Hd, Hflag. cbn.
           rewrite Hd, <- app_assoc. repeat split; auto; try lia.
           destruct stopped; intuition (auto; lia).
        -- destruct IH as (k & Hk & Hd). exists (S k). cbn in Hd. cbn.
           rewrite Hd, <- app_assoc. split; [lia|reflexivity].
      * exists 0%nat. cbn. rewrite app_nil_r. split; [lia|reflexivity].
Qed.
Lemma send_lists_spec lists s :
  match send_lists oracle lists s with
  | Ok (lists', stopped) s' =>
      sendingMessages s' = sendingMessages s
      /\ if stopped then stopped_at lists lists' s s' else drained_all lists lists' s s'
  | Raise s' => raised_at lists s s'
  | Waiting => False
  end.
Proof.
  revert s. induction lists as [|[name tl] lists IH]; intros s.
  - simpl. split; [reflexivity|]. unfold drained_all. simpl. now rewrite app_nil_r.
  - cbn [send_lists]. unfold bind at 1.
    pose proof (send_copied_spec (channelID tl) (messages tl) [] s) as Hc.
    rewrite app_nil_r in Hc.
    destruct (send_copied oracle (channelID tl) (messages tl) (messages tl) s)
      as [[rest stopped] s1| s1|]; [| |exact Hc].
    + destruct Hc as (k & Hk & Hrest & Hd & Hflag & Hstop).
      rewrite app_nil_r in Hrest. cbn [fst snd]. destruct stopped.
      * destruct Hstop as (Hlt & He & Hlim). cbn. split; [exact Hflag|].
        exists [], (name, tl), lists, k. cbn. subst rest. repeat split; auto.
      * destruct Hstop as (-> & He). unfold bind. specialize (IH s1).
        destruct (send_lists oracle lists s1) as [[lists' stopped] s2| s2|]; [| |exact IH].
        -- destruct IH as (Hflag2 & IH). cbn. split; [congruence|].
           assert (Hentry : (name, set_messages rest tl) = emptied (name, tl)).
           { subst rest. rewrite skipn_all. reflexivity. }
           destruct stopped.
           ++ destruct IH as (before & entry & after & k & -> & Hk' & Hlim & -> & Hd2 & He2).
              exists ((name, tl) :: before), entry, after, k. cbn.
              rewrite Hentry, Hd2, Hd, He2, He, <- !app_assoc. repeat split; auto.
           ++ destruct IH as (-> & Hd2 & He2). unfold drained_all. cbn.
              rewrite Hentry, Hd2, Hd, He2, He, <- !app_assoc. repeat split; auto.
        -- destruct IH as (before & entry & after & k & -> & Hk' & Hd2).
           exists ((name, tl) :: before), entry, after, k. cbn.
           rewrite Hd2, Hd, <- !app_assoc. repeat split; auto.
    + destruct Hc as (k & Hk & Hd).
      exists [], (name, tl), lists, k. cbn. repeat split; auto.
Qed.

(** A whole pass: either it drains every list and clears the flag, or it
    stops at a rate-limited list and leaves the flag set. *)
Lemma sendMessages_spec lists s :
  match sendMessages oracle lists s with
  | Ok lists' s' =>
      (sendingMessages s' = false /\ drained_all lists lists' s s')
      \/ (sendingMessages s' = true /\ stopped_at lists lists' s s')
  | Raise s' => raised_at lists s s'
  | Waiting => False
  end.
Proof.
  unfold sendMessages, bind, modify.
  pose proof (send_lists_spec lists (set_sendingMessages true s)) as H.
  destruct (send_lists oracle lists (set_sendingMessages true s))
    as [[lists' stopped] s1| s1|]; [| exact H | exact H].
  destruct H as (Hflag & H). cbn [fst snd]. destruct stopped.
  - cbn. right. split; [exact Hflag|exact H].
  - cbn. left. split; [reflexivity|exact H].
Qed.

(** When no message request fails, the pass returns. *)
Lemma send_copied_returns channel copied extra s :
  (forall h, status_ok (answer_message oracle h) = true) ->
  exists r s', send_copied oracle channel copied (copied ++ extra) s = Ok r s'.
Proof.
  intros Hok. revert s. induction copied as [|message copied IH]; intros s.
  - simpl. eauto.
  - cbn [send_copied]. unfold bind at 1. rewrite checkMessageRateLimit_eq.
    destruct (atRateLimit _ _ _); [cbn; eauto|].
    unfold bind at 1. rewrite createChannelMessage_eq, Hok. cbn [app]. apply IH.
Qed.

Lemma send_lists_returns lists s :
  (forall h, status_ok (answer_message oracle h) = true) ->
  exists r s', send_lists oracle lists s = Ok r s'.
Proof.
  intros Hok. revert s. induction lists as [|[name tl] lists IH]; intros s.
  - simpl. eauto.
  - cbn [send_lists]. unfold bind at 1.
    destruct (send_copied_returns (channelID tl) (messages tl) [] s Hok) as (r & s1 & Hr).
    rewrite app_nil_r in Hr. rewrite Hr. destruct (snd r); [cbn; eauto|].
    unfold bind. destruct (IH s1) as (r2 & s2 & ->). cbn. eauto.
Qed.

Lemma sendMessages_returns lists s :
  (forall h, status_ok (answer_message oracle h) = true) ->
  exists lists' s', sendMessages oracle lists s = Ok lists' s'.
Proof.
  intros Hok. unfold sendMessages, bind, modify.
  destruct (send_lists_returns lists (set_sendingMessages true s) Hok) as (r & s1 & ->).
  destruct (snd r); cbn; eauto.
Qed.
End Drain.

(* ===================================================================== *)
(** ** [doUpdate] while a pass is outstanding                             *)
(* ===================================================================== *)

Global Instance quiet_refl : Reflexive quiet.
Proof. intros s. split; reflexivity. Qed.

Global Instance quiet_trans : Transitive quiet.
Proof. intros s1 s2 s3 [? ?] [? ?]. split; congruence. Qed.

Lemma quiet_request r took s : any_kind (kind r) = true -> quiet s (after_request r took s).
Proof. intros _. split; reflexivity. Qed.

Lemma quiet_rateLimits l s : quiet s (set_rateLimits l s).
Proof. split; reflexivity. Qed.

Lemma quiet_event e s : quiet s (add_event e s).
Proof. split; reflexivity. Qed.

Lemma grows_by_request allowed r took s :
  allowed (kind r) = true -> grows_by allowed s (after_request r took s).
Proof. intros H. exists [r]. cbn. now rewrite H. Qed.

Lemma grows_by_rateLimits allowed l s : grows_by allowed s (set_rateLimits l s).
Proof. exists []. cbn. now rewrite app_nil_r. Qed.

Lemma grows_by_event allowed e s : grows_by allowed s (add_event e s).
Proof. exists []. cbn. now rewrite app_nil_r. Qed.

Create HintDb frame.
#[global] Hint Resolve quiet_rateLimits quiet_event grows_by_rateLimits grows_by_event : frame.

(** Use a frame lemma [lem] for the relation whose request rule is [req]. *)
Ltac by_frame lem req :=
  eapply lem; try typeclasses eauto; try exact req; try reflexivity; auto with frame.

Section Outstanding.
Context (oracle : Oracle).

Lemma doUpdate_flag_set rounds lists s :
  sendingMessages s = true ->
  match doUpdate oracle rounds lists s with
  | Ok _ s' => quiet s s'
  | Raise s' => quiet s s'
  | Waiting => True
  end.
Proof.
  intros Hflag. unfold doUpdate. unfold bind at 1. unfold gets at 1.
  destruct (categoryName s); [|cbn; apply quiet_refl].
  unfold bind at 1.
  assert (H1 : steps quiet (updateTwitterLists oracle lists))
    by (by_frame steps_updateTwitterLists quiet_request).
  specialize (H1 s).
  destruct (updateTwitterLists oracle lists s) as [l1 s1|s1|]; [|exact H1|exact I].
  unfold bind at 1.
  assert (H2 : steps quiet (channelMaintenance oracle rounds l1))
    by (by_frame steps_channelMaintenance quiet_request).
  specialize (H2 s1).
  destruct (channelMaintenance oracle rounds l1 s1) as [l2 s2|s2|];
    [|now transitivity s1|exact I].
  unfold bind at 1.
  assert (H3 : steps quiet (fetch_all oracle l2))
    by (by_frame steps_fetch_all quiet_request).
  specialize (H3 s2).
  destruct (fetch_all oracle l2 s2) as [l3 s3|s3|];
    [|transitivity s1; [assumption|now transitivity s2]|exact I].
  assert (H03 : quiet s s3) by (transitivity s1; [assumption|now transitivity s2]).
  unfold bind at 1. unfold gets at 1.
  replace (sendingMessages s3) with true by (destruct H03; congruence).
  assert (Htail : steps quiet
    (bind (ret l3) (fun lists4 =>
       bind (CheckRateLimitM oracle "/lists/statuses.json") (fun nextResetTime =>
         bind (scheduler_enterabs (inject_Z (nextResetTime + 1)) 0 DoUpdate)
              (fun _ => ret lists4))))).
  { steps_tac.
    - unfold CheckRateLimitM. by_frame steps_twitter_call quiet_request.
    - apply steps_scheduler_enterabs. apply quiet_event. }
  specialize (Htail s3). cbv beta.
  match goal with
  | |- match ?m s3 with _ => _ end =>
      match type of Htail with
      | match ?m' s3 with _ => _ end => change m with m'
      end
  end.
  destruct (bind (ret l3) _ s3); [now transitivity s3| now transitivity s3 | exact I].
Qed.
End Outstanding.

(* ===================================================================== *)
(** ** The dict of lists across the operations                            *)
(* ===================================================================== *)

Lemma entry_kept_refl e : entry_kept e e.
Proof. repeat split; auto. Qed.

Lemma entry_kept_trans e1 e2 e3 : entry_kept e1 e2 -> entry_kept e2 e3 -> entry_kept e1 e3.
Proof.
  intros (H1 & H2 & H3) (K1 & K2 & K3). repeat split; try congruence. auto.
Qed.

Lemma Forall2_entry_kept_refl lists : Forall2 entry_kept lists lists.
Proof. induction lists; constructor; auto using entry_kept_refl. Qed.

Lemma Forall2_entry_kept_trans l1 l2 l3 :
  Forall2 entry_kept l1 l2 -> Forall2 entry_kept l2 l3 -> Forall2 entry_kept l1 l3.
Proof.
  intros H. revert l3. induction H; intros l3 H3; inversion H3; subst; constructor;
    eauto using entry_kept_trans.
Qed.

Lemma lists_kept_of_Forall2 lists lists' : Forall2 entry_kept lists lists' -> lists_kept lists lists'.
Proof. intros H. exists lists', []. now rewrite app_nil_r. Qed.

Lemma lists_kept_trans l1 l2 l3 : lists_kept l1 l2 -> lists_kept l2 l3 -> lists_kept l1 l3.
Proof.
  intros (k1 & a1 & -> & H1) (k2 & a2 & -> & H2).
  apply Forall2_app_inv_l in H2 as (k2a & k2b & Ha & Hb & ->).
  exists k2a, (k2b ++ a2). split; [now rewrite app_assoc|].
  eauto using Forall2_entry_kept_trans.
Qed.

(** Read by name, as the dict is: the entry of a name is still the entry of
    that name. *)
Lemma lists_kept_get_list lists lists' name tl :
  lists_kept lists lists' -> get_list name lists = Some tl ->
  exists tl', get_list name lists' = Some tl'
              /\ list_id tl' = list_id tl
              /\ (forall c, channelID tl = Some c -> channelID tl' = Some c).
Proof.
  intros (kept & added & -> & H). unfold get_list. induction H as [|e e' l l' He H IH].
  - discriminate.
  - simpl. destruct He as (Hn & Hid & Hc). rewrite Hn.
    destruct (String.eqb (fst e) name).
    + intros [= <-]. eauto.
    + exact IH.
Qed.

Lemma fold_left_add_list fetched lists :
  exists added, fold_left add_list fetched lists = lists ++ added.
Proof.
  revert lists. induction fetched as [|x fetched IH]; intros lists; simpl.
  - exists []. now rewrite app_nil_r.
  - unfold add_list at 2. destruct (has_key (li_name x) lists).
    + apply IH.
    + destruct (IH (lists ++ [(li_name x, mkTwitterList (li_id x) None [])])) as [added ->].
      rewrite <- app_assoc. eauto.
Qed.

Section ListsKept.
Context (oracle : Oracle).

Lemma updateTwitterLists_kept lists s lists' s' :
  updateTwitterLists oracle lists s = Ok lists' s' -> lists_kept lists lists'.
Proof.
  unfold updateTwitterLists. intros H. apply bind_ok in H as (fetched & s1 & _ & H).
  injection H as <- _. destruct (fold_left_add_list fetched lists) as [added ->].
  exists lists, added. auto using Forall2_entry_kept_refl.
Qed.

(** One list in [channelMaintenance]: a bound list is left alone; an
    unbound one is bound, to a channel found or to the channel created and
    appended. *)
Lemma ensure_channel_ok rounds cat name tl chans s r s' :
  ensure_channel oracle rounds cat name tl chans s = Ok r s' ->
  list_id (fst r) = list_id tl
  /\ messages (fst r) = messages tl
  /\ (forall c, channelID tl = Some c -> r = (tl, chans) /\ s' = s)
  /\ channelID (fst r) <> None
  /\ exists created, snd r = chans ++ created.
Proof.
  unfold ensure_channel. destruct (channelID tl) as [c|] eqn:Hc.
  - intros [= <- <-]. cbn. repeat split; auto; try congruence.
    exists []. now rewrite app_nil_r.
  - destruct (List.find _ chans) as [channel|].
    + intros [= <- <-]. cbn. repeat split; auto; try congruence.
      exists []. now rewrite app_nil_r.
    + intros H. apply bind_ok in H as (g & s1 & _ & H).
      apply bind_ok in H as (? & s2 & _ & H).
      apply bind_ok in H as (created & s3 & _ & H).
      injection H as <- _. cbn. repeat split; auto; try congruence. eauto.
Qed.

Lemma ensure_channels_ok rounds cat lists chans s r s' :
  ensure_channels oracle rounds cat lists chans s = Ok r s' ->
  Forall2 entry_kept lists (fst r)
  /\ Forall2 (fun e e' => messages (snd e') = messages (snd e)) lists (fst r)
  /\ Forall bound (fst r)
  /\ exists created, snd r = chans ++ created.
Proof.
  revert chans s r s'. induction lists as [|[name tl] lists IH]; intros chans s r s'.
  - intros [= <- _]. cbn. repeat split; try constructor. exists []. now rewrite app_nil_r.
  - cbn [ensure_channels]. intros H.
    apply bind_ok in H as (one & s1 & H1 & H).
    apply bind_ok in H as (others & s2 & H2 & H).
    injection H as <- _. cbn [fst snd].
    apply ensure_channel_ok in H1 as (Hid & Hm & Hkeep & Hb & created1 & Hc1).
    apply IH in H2 as (Hk & Hms & Hbs & created2 & Hc2).
    repeat split.
    + constructor; [|exact Hk]. repeat split; cbn; auto.
      intros c Hc. destruct (Hkeep c Hc) as [-> _]. exact Hc.
    + constructor; [exact Hm|exact Hms].
    + constructor; [exact Hb|exact Hbs].
    + exists (created1 ++ created2). now rewrite Hc2, Hc1, <- app_assoc.
Qed.

(** When every list is bound, the loop does nothing. *)
Lemma ensure_channels_bound rounds cat lists chans s :
  Forall bound lists ->
  ensure_channels oracle rounds cat lists chans s = Ok (lists, chans) s.
Proof.
  intros H. induction H as [|[name tl] lists Hb H IH]; [reflexivity|].
  cbn [ensure_channels]. unfold bind at 1. unfold ensure_channel.
  unfold bound in Hb. cbn in Hb. destruct (channelID tl); [|congruence].
  cbn. unfold bind. rewrite IH. reflexivity.
Qed.

Lemma channelMaintenance_kept rounds lists s lists' s' :
  channelMaintenance oracle rounds lists s = Ok lists' s' ->
  Forall2 entry_kept lists lists'
  /\ Forall2 (fun e e' => messages (snd e') = messages (snd e)) lists lists'
  /\ Forall bound lists'.
Proof.
  unfold channelMaintenance. intros H.
  apply bind_ok in H as (g & s1 & _ & H).
  apply bind_ok in H as (n & s2 & _ & H).
  apply bind_ok in H as (fetched & s3 & _ & H).
  apply bind_ok in H as (cat & s4 & _ & H).
  apply bind_ok in H as (r & s5 & Hr & H).
  apply bind_ok in H as (? & s6 & _ & H).
  injection H as <- _.
  apply ensure_channels_ok in Hr as (? & ? & ? & _). auto.
Qed.

Lemma fetch_posts_kept tl s tl' s' :
  fetch_posts oracle tl s = Ok tl' s' ->
  list_id tl' = list_id tl /\ channelID tl' = channelID tl.
Proof.
  unfold fetch_posts. intros H. apply bind_ok in H as (cursor & s1 & _ & H).
  destruct cursor as [lastPostID|].
  - apply bind_ok in H as (posts & s2 & _ & H). injection H as <- _. auto.
  - injection H as <- _. auto.
Qed.

Lemma fetch_all_kept lists s lists' s' :
  fetch_all oracle lists s = Ok lists' s' -> Forall2 entry_kept lists lists'.
Proof.
  revert s lists' s'. induction lists as [|[name tl] lists IH]; intros s lists' s'.
  - intros [= <- _]. constructor.
  - cbn [fetch_all]. intros H.
    apply bind_ok in H as (tl' & s1 & H1 & H).
    apply bind_ok in H as (rest' & s2 & H2 & H).
    injection H as <- _. apply fetch_posts_kept in H1 as [Hid Hc].
    constructor; [|eauto]. repeat split; cbn; auto. congruence.
Qed.

Lemma emptied_kept e : entry_kept e (emptied e).
Proof. repeat split; auto. Qed.

Lemma without_front_kept k e : entry_kept e (without_front k e).
Proof. repeat split; auto. Qed.

Lemma map_emptied_kept lists : Forall2 entry_kept lists (map emptied lists).
Proof. induction lists; constructor; auto using emptied_kept. Qed.

Lemma sendMessages_kept lists s lists' s' :
  sendMessages oracle lists s = Ok lists' s' -> Forall2 entry_kept lists lists'.
Proof.
  intros H. pose proof (sendMessages_spec oracle lists s) as Hs. rewrite H in Hs.
  destruct Hs as [[_ (-> & _)]|[_ (before & entry & after & k & -> & _ & _ & -> & _)]].
  - apply map_emptied_kept.
  - apply Forall2_app.
    + apply map_emptied_kept.
    + constructor; [apply without_front_kept|apply Forall2_entry_kept_refl].
Qed.

Lemma doUpdate_kept rounds lists s lists' s' :
  doUpdate oracle rounds lists s = Ok lists' s' -> lists_kept lists lists'.
Proof.
  unfold doUpdate. intros H. apply bind_ok in H as (n & s0 & _ & H).
  destruct n as [catname|]; [|discriminate].
  apply bind_ok in H as (l1 & s1 & H1 & H).
  apply bind_ok in H as (l2 & s2 & H2 & H).
  apply bind_ok in H as (l3 & s3 & H3 & H).
  apply bind_ok in H as (sending & s4 & _ & H).
  apply bind_ok in H as (l4 & s5 & H4 & H).
  apply bind_ok in H as (t & s6 & _ & H).
  apply bind_ok in H as (? & s7 & _ & H).
  injection H as <- _.
  apply updateTwitterLists_kept in H1.
  apply channelMaintenance_kept in H2 as (H2 & _).
  apply fetch_all_kept in H3.
  eapply lists_kept_trans; [exact H1|]. apply lists_kept_of_Forall2.
  eapply Forall2_entry_kept_trans; [exact H2|].
  eapply Forall2_entry_kept_trans; [exact H3|].
  destruct sending.
  - injection H4 as <- _. apply Forall2_entry_kept_refl.
  - now apply sendMessages_kept in H4.
Qed.
End ListsKept.

(* ===================================================================== *)
(** ** Channel maintenance                                                *)
(* ===================================================================== *)

Section Maintenance.
Context (oracle : Oracle).

Lemma getGuildChannels_eq g s :
  let r := GetGuildChannels g in
  let h := history s ++ [r] in
  getGuildChannels oracle g s =
  if status_ok (answer_channels oracle h)
  then Ok (json (answer_channels oracle h))
          (answered r (seconds (elapsed oracle h)) (answer_channels oracle h) s)
  else Raise (answered r (seconds (elapsed oracle h)) (answer_channels oracle h) s).
Proof.
  intros r h. unfold getGuildChannels, bind, request, checkResponse, bind, modify.
  fold r h. destruct (status_ok _); reflexivity.
Qed.

Lemma createGuildChannel_eq g n t p s :
  let r := CreateGuildChannel g n t p in
  let h := history s ++ [r] in
  createGuildChannel oracle g n t p s =
  if status_ok (answer_channel oracle h)
  then Ok (json (answer_channel oracle h))
          (answered r (seconds (elapsed oracle h)) (answer_channel oracle h) s)
  else Raise (answered r (seconds (elapsed oracle h)) (answer_channel oracle h) s).
Proof.
  intros r h. unfold createGuildChannel, bind, request, checkResponse, bind, modify.
  fold r h. destruct (status_ok _); reflexivity.
Qed.

Lemma modifyGuildChannelPositions_ok g pairs s u s' :
  modifyGuildChannelPositions oracle g pairs s = Ok u s' ->
  history s' = history s ++ reposition_call g pairs
  /\ guildID s' = guildID s /\ categoryName s' = categoryName s.
Proof.
  unfold modifyGuildChannelPositions. destruct pairs as [|p pairs]; cbn.
  - intros [= _ <-]. now rewrite app_nil_r.
  - unfold bind, request. destruct (answer_patch oracle _); [|discriminate].
    intros [= _ <-]. auto.
Qed.

Lemma modifyGuildChannelPositions_returns g pairs s :
  (forall h, answer_patch oracle h = true) ->
  exists s', modifyGuildChannelPositions oracle g pairs s = Ok tt s'.
Proof.
  intros Hok. unfold modifyGuildChannelPositions. destruct pairs as [|p pairs]; cbn.
  - eauto.
  - unfold bind, request. rewrite Hok. eauto.
Qed.

(** The wait: [rounds_needed] sleeps are enough, and more change nothing. *)
Lemma seconds_nonneg d : (0 <= seconds d)%Q.
Proof. unfold seconds, Qle. simpl. lia. Qed.

Lemma wait_eq rounds u s :
  wait_while_rate_limited oracle rounds u s =
  if atRateLimit (rateLimits s) (now s) u then
    match rounds with
    | O => Waiting
    | S n =>
        wait_while_rate_limited oracle n u
          (after_request (Sleep 10)
             (inject_Z 10 + seconds (elapsed oracle (history s ++ [Sleep 10]))) s)
    end
  else Ok tt s.
Proof.
  destruct rounds; cbn [wait_while_rate_limited]; unfold bind at 1;
    unfold atRateLimitM, gets; destruct (atRateLimit _ _ _); reflexivity.
Qed.

Lemma wait_enough rounds u s :
  (forall rl, rateLimits s !! u = Some rl ->
              (inject_Z (reset rl) < now s + inject_Z (Z.of_nat rounds))%Q) ->
  exists s', wait_while_rate_limited oracle rounds u s = Ok tt s'.
Proof.
  revert s. induction rounds as [|n IH]; intros s H; rewrite wait_eq;
    (destruct (atRateLimit (rateLimits s) (now s) u) eqn:E; [|eauto]).
  - apply atRateLimit_spec in E as (rl & Hrl & _ & Hle). specialize (H rl Hrl).
    change (inject_Z (Z.of_nat 0)) with 0%Q in H. exfalso. lra.
  - apply IH. cbn. intros rl Hrl. specialize (H rl Hrl).
    pose proof (seconds_nonneg (elapsed oracle (history s ++ [Sleep 10]))) as Hpos.
    rewrite Nat2Z.inj_succ in H. unfold Z.succ in H. rewrite inject_Z_plus in H.
    change (inject_Z 10) with 10%Q. change (inject_Z 1) with 1%Q in H. lra.
Qed.

Lemma wait_needed rounds u s :
  (rounds_needed s u <= rounds)%nat ->
  exists s', wait_while_rate_limited oracle rounds u s = Ok tt s'.
Proof.
  intros Hn. apply wait_enough. intros rl Hrl.
  unfold rounds_needed in Hn. rewrite Hrl in Hn.
  set (x := (inject_Z (reset rl) - now s)%Q) in *.
  pose proof (Qle_ceiling x) as Hx.
  assert (Hz : (Qceiling x < Z.of_nat rounds)%Z) by lia.
  assert (Hq : (inject_Z (Qceiling x) < inject_Z (Z.of_nat rounds))%Q)
    by (rewrite <- Zlt_Qlt; exact Hz).
  unfold x in *. lra.
Qed.

Lemma wait_more rounds rounds' u s s' :
  wait_while_rate_limited oracle rounds u s = Ok tt s' ->
  (rounds <= rounds')%nat ->
  wait_while_rate_limited oracle rounds' u s = Ok tt s'.
Proof.
  revert rounds' s. induction rounds as [|n IH]; intros rounds' s H Hle;
    rewrite wait_eq in H; rewrite wait_eq;
    (destruct (atRateLimit (rateLimits s) (now s) u); [|assumption]).
  - discriminate.
  - destruct rounds' as [|n']; [lia|]. apply IH; [exact H|lia].
Qed.

Lemma wait_frame rounds u s s' :
  wait_while_rate_limited oracle rounds u s = Ok tt s' ->
  guildID s' = guildID s /\ categoryName s' = categoryName s.
Proof.
  revert s. induction rounds as [|n IH]; intros s; rewrite wait_eq;
    (destruct (atRateLimit (rateLimits s) (now s) u); [|intros [= <-]; auto]).
  - discriminate.
  - intros H. apply IH in H as [-> ->]. auto.
Qed.
Lemma created_in_app h d1 d2 :
  created_in oracle h (d1 ++ d2) = created_in oracle h d1 ++ created_in oracle (h ++ d1) d2.
Proof.
  revert h. induction d1 as [|r d1 IH]; intros h; cbn.
  - now rewrite app_nil_r.
  - rewrite IH, <- !app_assoc. reflexivity.
Qed.

Lemma created_in_sleeps h d :
  forallb (fun r => only_sleep (kind r)) d = true -> created_in oracle h d = [].
Proof.
  revert h. induction d as [|r d IH]; intros h; cbn; [reflexivity|].
  intros [Hr Hd]%andb_true_iff. rewrite IH by assumption.
  destruct r; cbn in *; congruence.
Qed.

Lemma sleeps_not_reposition d :
  forallb (fun r => only_sleep (kind r)) d = true ->
  forallb (fun r => not_reposition (kind r)) d = true.
Proof.
  induction d as [|r d IH]; cbn; [reflexivity|].
  intros [Hr Hd]%andb_true_iff. rewrite IH by assumption.
  destruct r; cbn in *; congruence.
Qed.

Lemma wait_sleeps rounds u s s' :
  wait_while_rate_limited oracle rounds u s = Ok tt s' -> grows_by only_sleep s s'.
Proof.
  apply steps_ok. by_frame steps_wait (grows_by_request only_sleep).
Qed.

(** One list: the channels grow by the channel created, if one was. *)
Lemma ensure_channel_history rounds cat name tl chans s r s' :
  ensure_channel oracle rounds cat name tl chans s = Ok r s' ->
  guildID s' = guildID s /\ categoryName s' = categoryName s
  /\ exists d, history s' = history s ++ d
               /\ forallb (fun r => not_reposition (kind r)) d = true
               /\ snd r = chans ++ created_in oracle (history s) d.
Proof.
  unfold ensure_channel. destruct (channelID tl) as [c|].
  - intros [= <- <-]. repeat split. exists []. cbn. now rewrite !app_nil_r.
  - destruct (List.find _ chans) as [channel|].
    + intros [= <- <-]. repeat split. exists []. cbn. now rewrite !app_nil_r.
    + intros H. apply bind_ok in H as (g & s1 & Hg & H). injection Hg as <- <-.
      apply bind_ok in H as ([] & s2 & Hw & H).
      pose proof (wait_frame _ _ _ _ Hw) as [Hg2 Hn2].
      apply wait_sleeps in Hw as (d & Hd & Hs).
      apply bind_ok in H as (created & s3 & Hc & H). injection H as <- <-.
      rewrite createGuildChannel_eq in Hc. destruct (status_ok _); [|discriminate].
      injection Hc as <- <-. cbn. repeat split; auto.
      exists (d ++ [CreateGuildChannel (guildID s) (Some name) ChannelTypes.GUILD_TEXT
                      (Some (ch_id cat))]).
      rewrite Hd, <- app_assoc. split; [reflexivity|]. split.
      * rewrite forallb_app, sleeps_not_reposition by assumption. reflexivity.
      * rewrite created_in_app, created_in_sleeps by assumption. cbn.
        now rewrite <- app_assoc.
Qed.

Lemma ensure_channels_history rounds cat lists chans s r s' :
  ensure_channels oracle rounds cat lists chans s = Ok r s' ->
  guildID s' = guildID s /\ categoryName s' = categoryName s
  /\ exists d, history s' = history s ++ d
               /\ forallb (fun r => not_reposition (kind r)) d = true
               /\ snd r = chans ++ created_in oracle (history s) d.
Proof.
  revert chans s r s'. induction lists as [|[name tl] lists IH]; intros chans s r s'.
  - intros [= <- <-]. repeat split. exists []. cbn. now rewrite !app_nil_r.
  - cbn [ensure_channels]. intros H.
    apply bind_ok in H as (one & s1 & H1 & H).
    apply bind_ok in H as (others & s2 & H2 & H).
    injection H as <- <-. cbn [fst snd].
    apply ensure_channel_history in H1 as (Hg1 & Hn1 & d1 & Hh1 & Ha1 & Hc1).
    apply IH in H2 as (Hg2 & Hn2 & d2 & Hh2 & Ha2 & Hc2).
    repeat split; try congruence.
    exists (d1 ++ d2). rewrite Hh2, Hh1, <- app_assoc. split; [reflexivity|]. split.
    + now rewrite forallb_app, Ha1, Ha2.
    + rewrite Hc2, Hc1, Hh1, created_in_app, <- app_assoc. reflexivity.
Qed.

(** The start of [channelMaintenance]: the listing, then the category. *)
Lemma channelMaintenance_start rounds lists s lists' s' :
  channelMaintenance oracle rounds lists s = Ok lists' s' ->
  exists s4 r s5,
    history s4 = history s ++ GetGuildChannels (guildID s)
                   :: category_call (guildID s) (categoryName s) (fetched_channels oracle s)
    /\ guildID s4 = guildID s /\ categoryName s4 = categoryName s
    /\ ensure_channels oracle rounds (category_of oracle s) lists
         (List.filter (under (category_of oracle s)) (fetched_channels oracle s)) s4
       = Ok r s5
    /\ modifyGuildChannelPositions oracle (guildID s) (positionPairs (snd r)) s5 = Ok tt s'
    /\ lists' = fst r.
Proof.
  unfold channelMaintenance. intros H.
  apply bind_ok in H as (g & s1 & Hg & H). injection Hg as <- <-.
  apply bind_ok in H as (n & s2 & Hn & H). injection Hn as <- <-.
  apply bind_ok in H as (fetched & s3 & Hf & H).
  rewrite getGuildChannels_eq in Hf. destruct (status_ok _); [|discriminate].
  injection Hf as <- <-. fold (fetched_channels oracle s) in H.
  apply bind_ok in H as (cat & s4 & Hcat & H).
  apply bind_ok in H as (r & s5 & Hr & H).
  apply bind_ok in H as ([] & s6 & Hm & H). injection H as <- <-.
  exists s4, r, s5.
  assert (Hcat' : cat = category_of oracle s /\
            history s4 = history s ++ GetGuildChannels (guildID s)
               :: category_call (guildID s) (categoryName s) (fetched_channels oracle s)
            /\ guildID s4 = guildID s /\ categoryName s4 = categoryName s).
  { unfold category_of, category_call.
    destruct (find_category (categoryName s) (fetched_channels oracle s)) as [c|].
    - injection Hcat as <- <-. cbn. auto.
    - rewrite createGuildChannel_eq in Hcat. destruct (status_ok _); [|discriminate].
      injection Hcat as <- <-. cbn. rewrite <- app_assoc. auto. }
  destruct Hcat' as (-> & Hh & Hg & Hn). auto 10.
Qed.

(** With enough rounds for its waits, and no failed request, the
    maintenance returns; more rounds give the same result. *)
Lemma ensure_channel_returns cat name tl chans s :
  (forall h, status_ok (answer_channel oracle h) = true) ->
  exists n r s', forall rounds, (n <= rounds)%nat ->
    ensure_channel oracle rounds cat name tl chans s = Ok r s'.
Proof.
  intros Hok. unfold ensure_channel. destruct (channelID tl) as [c|].
  - exists 0%nat. eexists _, _. intros rounds _. reflexivity.
  - destruct (List.find _ chans) as [channel|].
    + exists 0%nat. eexists _, _. intros rounds _. reflexivity.
    + set (u := makeURL Routes.GUILD_CHANNELS (Some (guildID s))).
      destruct (wait_needed (rounds_needed s u) u s (le_n _)) as [s1 Hw].
      exists (rounds_needed s u). eexists _, _. intros rounds Hr.
      unfold bind at 1. unfold gets at 1. unfold bind at 1. fold u.
      rewrite (wait_more _ _ _ _ _ Hw Hr). unfold bind at 1.
      rewrite createGuildChannel_eq, Hok. reflexivity.
Qed.

Lemma ensure_channels_returns cat lists chans s :
  (forall h, status_ok (answer_channel oracle h) = true) ->
  exists n r s', forall rounds, (n <= rounds)%nat ->
    ensure_channels oracle rounds cat lists chans s = Ok r s'.
Proof.
  intros Hok. revert chans s.
  induction lists as [|[name tl] lists IH]; intros chans s.
  - exists 0%nat. eexists _, _. intros rounds _. reflexivity.
  - destruct (ensure_channel_returns cat name tl chans s Hok) as (n1 & r1 & s1 & H1).
    destruct (IH (snd r1) s1) as (n2 & r2 & s2 & H2).
    exists (Nat.max n1 n2). eexists _, _. intros rounds Hr.
    cbn [ensure_channels]. unfold bind at 1. rewrite H1 by lia.
    unfold bind at 1. rewrite H2 by lia. reflexivity.
Qed.

Lemma channelMaintenance_returns lists s :
  discord_ok oracle ->
  exists n lists' s', forall rounds, (n <= rounds)%nat ->
    channelMaintenance oracle rounds lists s = Ok lists' s'.
Proof.
  intros (Hchannels & Hchannel & Hpatch & _).
  unfold channelMaintenance.
  assert (Hcat : exists cat s4,
    bind (getGuildChannels oracle (guildID s)) (fun fetched =>
      bind (match find_category (categoryName s) fetched with
            | Some channel => ret channel
            | None => createGuildChannel oracle (guildID s) (categoryName s)
                        ChannelTypes.GUILD_CATEGORY None
            end) (fun channelCategory => ret (fetched, channelCategory))) s
    = Ok (fetched_channels oracle s, cat) s4).
  { unfold bind at 1. rewrite getGuildChannels_eq, Hchannels.
    fold (fetched_channels oracle s).
    destruct (find_category _ _) as [c|]; cbn.
    - unfold bind. cbn. eauto.
    - unfold bind. rewrite createGuildChannel_eq, Hchannel. cbn. eauto. }
  destruct Hcat as (cat & s4 & Hcat).
  destruct (ensure_channels_returns cat lists
              (List.filter (under cat) (fetched_channels oracle s)) s4 Hchannel)
    as (n & r & s5 & Hr).
  destruct (modifyGuildChannelPositions_returns (guildID s) (positionPairs (snd r)) s5 Hpatch)
    as (s6 & Hm).
  exists n, (fst r), s6. intros rounds Hrounds.
  unfold bind at 1. unfold gets at 1. unfold bind at 1. unfold gets at 1.
  unfold bind at 1 in Hcat. unfold bind at 1.
  destruct (getGuildChannels oracle (guildID s) s) as [fetched s3| |]; [|discriminate..].
  unfold bind at 1 in Hcat. unfold bind at 1.
  destruct (match find_category (categoryName s) fetched with
            | Some channel => ret channel
            | None => _ end s3) as [cat' s4'| |]; [|discriminate..].
  injection Hcat as -> -> ->.
  unfold bind at 1. rewrite Hr by assumption.
  unfold bind at 1. rewrite Hm. reflexivity.
Qed.

(** What a maintenance that returns has asked of Discord, and what it has
    repositioned. *)
Lemma channelMaintenance_history rounds lists s lists' s' :
  channelMaintenance oracle rounds lists s = Ok lists' s' ->
  exists before d,
    before = GetGuildChannels (guildID s)
               :: category_call (guildID s) (categoryName s) (fetched_channels oracle s)
    /\ forallb (fun r => not_reposition (kind r)) (before ++ d) = true
    /\ let managed :=
         List.filter (under (category_of oracle s)) (fetched_channels oracle s)
         ++ created_in oracle (history s ++ before) d in
       history s' = history s ++ (before ++ d)
                      ++ reposition_call (guildID s) (positionPairs managed).
Proof.
  intros H. apply channelMaintenance_start in H
    as (s4 & r & s5 & Hh4 & Hg4 & Hn4 & Hr & Hm & ->).
  apply ensure_channels_history in Hr as (Hg5 & Hn5 & d & Hh5 & Hd & Hc).
  apply modifyGuildChannelPositions_ok in Hm as (Hh6 & _).
  eexists _, d. split; [reflexivity|]. split.
  - rewrite forallb_app, Hd. cbn. unfold category_call.
    destruct (find_category _ _); reflexivity.
  - cbn zeta. rewrite Hh6, Hh5, Hh4, Hc, Hh4, <- !app_assoc. reflexivity.
Qed.

(** When every list is bound already: the listing, the category if it is
    not listed, and the positions of the channels listed under it. *)
Lemma channelMaintenance_bound rounds lists s lists' s' :
  Forall bound lists ->
  channelMaintenance oracle rounds lists s = Ok lists' s' ->
  lists' = lists
  /\ history s' =
     history s
     ++ GetGuildChannels (guildID s)
        :: category_call (guildID s) (categoryName s) (fetched_channels oracle s)
     ++ reposition_call (guildID s)
          (positionPairs (List.filter (under (category_of oracle s))
                                      (fetched_channels oracle s))).
Proof.
  intros Hb H. apply channelMaintenance_start in H
    as (s4 & r & s5 & Hh4 & Hg4 & Hn4 & Hr & Hm & ->).
  rewrite ensure_channels_bound in Hr by assumption. injection Hr as <- <-.
  apply modifyGuildChannelPositions_ok in Hm as (Hh6 & _).
  split; [reflexivity|]. cbn [snd] in Hh6. rewrite Hh6, Hh4, <- app_assoc. reflexivity.
Qed.
End Maintenance.

(* ===================================================================== *)
(** ** The queues over passes                                             *)
(* ===================================================================== *)

Lemma without_front_0 e : without_front 0 e = e.
Proof. destruct e as [name [i c m]]. reflexivity. Qed.

Lemma without_front_all e : without_front (pending e) e = emptied e.
Proof. unfold without_front, pending, emptied. now rewrite drop_all. Qed.

Lemma front_then_front k1 k2 e :
  front k1 e ++ front k2 (without_front k1 e) = front (k1 + k2) e.
Proof. unfold front, without_front. cbn. now rewrite <- map_app, take_take_drop. Qed.

Lemma without_front_twice k1 k2 e :
  without_front k2 (without_front k1 e) = without_front (k1 + k2) e.
Proof. unfold without_front. cbn. now rewrite drop_drop. Qed.

Lemma progress_pending lists : progress (map pending lists) lists = map emptied lists.
Proof.
  unfold progress. induction lists as [|e lists IH]; cbn; [reflexivity|].
  now rewrite without_front_all, IH.
Qed.

Lemma sent_pending lists : sent (map pending lists) lists = concat (map all_of lists).
Proof.
  unfold sent. induction lists as [|e lists IH]; cbn; [reflexivity|]. now rewrite IH.
Qed.

Lemma progress_zero lists : progress (map (fun _ => 0%nat) lists) lists = lists.
Proof.
  unfold progress. induction lists as [|e lists IH]; cbn; [reflexivity|].
  now rewrite without_front_0, IH.
Qed.

Lemma sent_zero lists : sent (map (fun _ => 0%nat) lists) lists = [].
Proof.
  unfold sent. induction lists as [|e lists IH]; cbn; [reflexivity|]. exact IH.
Qed.

Lemma within_pending lists : Forall2 within (map pending lists) lists.
Proof. induction lists; constructor; auto. unfold within, pending. lia. Qed.

Lemma within_zero lists : Forall2 within (map (fun _ => 0%nat) lists) lists.
Proof. induction lists; constructor; auto. unfold within. lia. Qed.

Lemma progress_twice ks1 ks2 lists :
  length ks1 = length lists -> length ks2 = length lists ->
  progress ks2 (progress ks1 lists) = progress (zip_with Nat.add ks1 ks2) lists.
Proof.
  unfold progress. revert ks1 ks2.
  induction lists as [|e lists IH]; intros [|k1 ks1] [|k2 ks2]; cbn; try discriminate;
    try reflexivity.
  intros [= H1] [= H2]. now rewrite without_front_twice, IH.
Qed.

(** A drained pass and a stopped pass, as numbers of messages sent per list. *)
Lemma drained_all_progress lists lists' s s' :
  drained_all lists lists' s s' ->
  lists' = progress (map pending lists) lists
  /\ delivered s' = delivered s ++ sent (map pending lists) lists.
Proof. intros (-> & -> & _). now rewrite progress_pending, sent_pending. Qed.

Lemma stopped_at_progress lists lists' s s' :
  stopped_at lists lists' s s' ->
  exists ks, Forall2 within ks lists
             /\ lists' = progress ks lists
             /\ delivered s' = delivered s ++ sent ks lists.
Proof.
  intros (before & entry & after & k & -> & Hk & _ & -> & -> & _).
  exists (map pending before ++ k :: map (fun _ => 0%nat) after). split; [|split].
  - apply Forall2_app; [apply within_pending|].
    constructor; [unfold within; lia|apply within_zero].
  - unfold progress. rewrite zip_with_app by now rewrite length_map. cbn.
    fold (progress (map pending before) before).
    fold (progress (map (fun _ => 0%nat) after) after).
    now rewrite progress_pending, progress_zero.
  - unfold sent. rewrite zip_with_app by now rewrite length_map. cbn.
    rewrite concat_app. cbn.
    fold (sent (map pending before) before).
    fold (sent (map (fun _ => 0%nat) after) after).
    now rewrite sent_pending, sent_zero, app_nil_r.
Qed.

Lemma pass_progress oracle lists s lists' s' :
  sendMessages oracle lists s = Ok lists' s' ->
  exists ks, Forall2 within ks lists
             /\ lists' = progress ks lists
             /\ delivered s' = delivered s ++ sent ks lists.
Proof.
  intros H. pose proof (sendMessages_spec oracle lists s) as Hs. rewrite H in Hs.
  destruct Hs as [[_ Hd]|[_ Hst]].
  - exists (map pending lists). split; [apply within_pending|].
    now apply drained_all_progress.
  - now apply stopped_at_progress.
Qed.

Lemma fold_left_add_list_unbound fetched lists :
  exists added, fold_left add_list fetched lists = lists ++ added /\ Forall unbound added.
Proof.
  revert lists. induction fetched as [|x fetched IH]; intros lists; simpl.
  - exists []. rewrite app_nil_r. auto.
  - unfold add_list at 2. destruct (has_key (li_name x) lists).
    + apply IH.
    + destruct (IH (lists ++ [(li_name x, mkTwitterList (li_id x) None [])]))
        as (added & -> & Hu).
      rewrite <- app_assoc. eexists. split; [reflexivity|].
      constructor; [reflexivity|exact Hu].
Qed.

Lemma updateTwitterLists_adds oracle lists s lists' s' :
  updateTwitterLists oracle lists s = Ok lists' s' ->
  exists added, lists' = lists ++ added /\ Forall unbound added.
Proof.
  unfold updateTwitterLists. intros H. apply bind_ok in H as (fetched & s1 & _ & H).
  injection H as <- _. apply fold_left_add_list_unbound.
Qed.

Lemma sendMessages_same_channel oracle lists s lists' s' :
  sendMessages oracle lists s = Ok lists' s' -> Forall2 entry_same_channel lists lists'.
Proof.
  intros H. destruct (pass_progress oracle lists s lists' s' H) as (ks & Hw & -> & _).
  clear H. induction Hw; constructor; [repeat split|assumption].
Qed.

(** The first list with something to send is at its rate limit: the pass
    returns at once, with one retry entered and nothing else changed. *)
Lemma sendMessages_blocked oracle before entry after s :
  Forall nothing_pending before ->
  messages (snd entry) <> [] ->
  atRateLimit (rateLimits s) (now s) (message_url entry) = true ->
  sendMessages oracle (before ++ entry :: after) s
  = Ok (before ++ entry :: after)
       (add_event (retry_event s) (set_sendingMessages true s)).
Proof.
  intros Hb Hm Hlim. unfold sendMessages, bind at 1, modify.
  assert (H : send_lists oracle (before ++ entry :: after) (set_sendingMessages true s)
              = Ok (before ++ entry :: after, true)
                   (add_event (retry_event s) (set_sendingMessages true s))).
  { generalize (set_sendingMessages true s) (eq_refl : rateLimits (set_sendingMessages true s) = rateLimits s)
      (eq_refl : now (set_sendingMessages true s) = now s).
    intros s0 Hr Hn.
    replace (retry_event s) with (retry_event s0) by (unfold retry_event; now rewrite Hn).
    induction Hb as [|[name [i c m]] before He Hb IH]; cbn [app send_lists].
    - destruct entry as [name [i c m]]. cbn in *.
      destruct m as [|message m]; [congruence|].
      cbn [send_copied]. unfold bind at 1. unfold bind at 1.
      rewrite checkMessageRateLimit_eq. unfold message_url in Hlim. cbn in Hlim.
      rewrite Hr, Hn, Hlim. reflexivity.
    - unfold nothing_pending in He. cbn in He. subst m. cbn. unfold bind at 1. cbn.
      unfold bind. rewrite IH. reflexivity. }
  unfold bind. rewrite H. reflexivity.
Qed.

Lemma fetch_posts_enqueues oracle tl s tl' s' :
  fetch_posts oracle tl s = Ok tl' s' -> exists more, messages tl' = messages tl ++ more.
Proof.
  unfold fetch_posts. intros H. apply bind_ok in H as (cursor & s1 & _ & H).
  destruct cursor as [lastPostID|].
  - apply bind_ok in H as (posts & s2 & _ & H). injection H as <- _. cbn. eauto.
  - injection H as <- _. exists []. now rewrite app_nil_r.
Qed.

Lemma fetch_all_enqueues oracle lists s lists' s' :
  fetch_all oracle lists s = Ok lists' s' -> Forall2 enqueued lists lists'.
Proof.
  revert s lists' s'. induction lists as [|[name tl] lists IH]; intros s lists' s'.
  - intros [= <- _]. constructor.
  - cbn [fetch_all]. intros H.
    apply bind_ok in H as (tl' & s1 & H1 & H).
    apply bind_ok in H as (rest' & s2 & H2 & H).
    injection H as <- _. apply fetch_posts_enqueues in H1.
    constructor; [split; [reflexivity|exact H1]|eauto].
Qed.

Lemma within_twice ks1 ks2 lists :
  Forall2 within ks1 lists -> Forall2 within ks2 (progress ks1 lists) ->
  Forall2 within (zip_with Nat.add ks1 ks2) lists.
Proof.
  intros H. revert ks2. induction H as [|k1 e ks1 lists Hk H IH]; intros ks2 H2.
  - constructor.
  - unfold progress in H2. cbn in H2. inversion H2 as [|k2 e' ks2' l' Hk2 H2']; subst.
    cbn. constructor; [|now apply IH].
    unfold within in *. cbn in Hk2. rewrite length_drop in Hk2. lia.
Qed.

Lemma emptied_nothing_pending lists : Forall nothing_pending (map emptied lists).
Proof. induction lists; constructor; auto. reflexivity. Qed.

Section BoundLists.
Context (oracle : Oracle).

(** With every list bound there is no wait, so no number of rounds is too
    small. *)
Lemma channelMaintenance_bound_no_wait rounds lists s :
  Forall bound lists -> channelMaintenance oracle rounds lists s <> Waiting.
Proof.
  intros Hb. unfold channelMaintenance.
  unfold bind at 1. unfold gets at 1. unfold bind at 1. unfold gets at 1.
  unfold bind at 1. rewrite getGuildChannels_eq.
  destruct (status_ok _); [|discriminate].
  unfold bind at 1.
  destruct (find_category _ _) as [c|].
  - cbn [ret]. unfold bind at 1. rewrite ensure_channels_bound by assumption.
    unfold bind. cbn [snd fst].
    unfold modifyGuildChannelPositions.
    destruct (length _ =? 0)%nat; cbn; [discriminate|].
    unfold bind, request. destruct (answer_patch _ _); discriminate.
  - rewrite createGuildChannel_eq. destruct (status_ok _); [|discriminate].
    unfold bind at 1. rewrite ensure_channels_bound by assumption.
    unfold bind. cbn [snd fst].
    unfold modifyGuildChannelPositions.
    destruct (length _ =? 0)%nat; cbn; [discriminate|].
    unfold bind, request. destruct (answer_patch _ _); discriminate.
Qed.
End BoundLists.

Lemma reposition_call_nil_iff g managed :
  reposition_call g (positionPairs managed) = [] <-> sort_by_name managed = managed.
Proof.
  rewrite <- positionPairs_nil_iff. unfold reposition_call.
  destruct (positionPairs managed); split; congruence.
Qed.

Lemma simulation_discord_ok by_position initial lists :
  discord_ok (Simulation.oracle by_position initial lists).
Proof. repeat split. Qed.

Lemma positionPairs_In old cid i :
  In (cid, i) (positionPairs old) <->
  exists c, sort_by_name old !! i = Some c /\ ch_id c = cid /\ old !! i <> Some c.
Proof.
  unfold positionPairs. rewrite positionPairs_from_In. rewrite Nat.sub_0_r. split.
  - intros (c & _ & ?). eauto.
  - intros (c & ?). exists c. split; [lia|auto].
Qed.

(** The example of the specification. *)
Lemma zeta_alpha_mike z a m :
  ch_name z = "Zeta" -> ch_name a = "Alpha" -> ch_name m = "Mike" ->
  sort_by_name [z; a; m] = [a; m; z]
  /\ positionPairs [z; a; m] = [(ch_id a, 0%nat); (ch_id m, 1%nat); (ch_id z, 2%nat)]
  /\ positionPairs [a; m; z] = [].
Proof.
  intros Hz Ha Hm. destruct z, a, m. cbn in Hz, Ha, Hm. subst.
  match goal with
  | |- sort_by_name ?l = ?r /\ _ => assert (Hs : sort_by_name l = r) by reflexivity
  end.
  split; [exact Hs|]. split.
  - unfold positionPairs. rewrite Hs. cbn.
    repeat case_bool_decide; simplify_eq. reflexivity.
  - apply positionPairs_sorted. repeat constructor.
Qed.

(* ===================================================================== *)
(** ** The requests of a drain pass                                       *)
(* ===================================================================== *)

Lemma posted_refl s : posted s s.
Proof. exists []. cbn. now rewrite !app_nil_r. Qed.

Lemma posted_trans s1 s2 s3 : posted s1 s2 -> posted s2 s3 -> posted s1 s3.
Proof.
  intros (d1 & Hd1 & Hh1) (d2 & Hd2 & Hh2). exists (d1 ++ d2).
  rewrite Hd2, Hd1, Hh2, Hh1, map_app, <- !app_assoc. auto.
Qed.

Lemma posted_refused oracle s1 s2 s3 : posted s1 s2 -> refused oracle s2 s3 -> refused oracle s1 s3.
Proof.
  intros (d1 & Hd1 & Hh1) (d2 & c & text & Hd2 & Hh2 & Hno). exists (d1 ++ d2), c, text.
  split; [|split; [|exact Hno]].
  - now rewrite Hd2, Hd1, <- app_assoc.
  - now rewrite Hh2, Hh1, map_app, <- !app_assoc.
Qed.

Section Trace.
Context (oracle : Oracle).

Lemma send_copied_trace channel copied extra s :
  match send_copied oracle channel copied (copied ++ extra) s with
  | Ok _ s' => posted s s'
  | Raise s' => refused oracle s s'
  | Waiting => False
  end.
Proof.
  revert s. induction copied as [|message copied IH]; intros s.
  - simpl. apply posted_refl.
  - cbn [send_copied]. unfold bind at 1. rewrite checkMessageRateLimit_eq.
    destruct (atRateLimit _ _ _).
    + cbn. exists []. cbn. now rewrite !app_nil_r.
    + unfold bind at 1. rewrite createChannelMessage_eq.
      destruct (status_ok _) eqn:Hok.
      * cbn [app].
        match goal with
        | |- context [send_copied oracle channel copied (copied ++ extra) ?s1] =>
            assert (Hp : posted s s1)
              by (exists [(channel, message)]; split; reflexivity);
            specialize (IH s1);
            destruct (send_copied oracle channel copied (copied ++ extra) s1)
              as [r s'| s'|]; [| |exact IH]
        end.
        -- now apply posted_trans with (2 := IH).
        -- now apply posted_refused with (2 := IH).
      * exists [], channel, message. cbn. rewrite app_nil_r. repeat split; auto.
Qed.

Lemma send_lists_trace lists s :
  match send_lists oracle lists s with
  | Ok _ s' => posted s s'
  | Raise s' => refused oracle s s'
  | Waiting => False
  end.
Proof.
  revert s. induction lists as [|[name tl] lists IH]; intros s.
  - simpl. apply posted_refl.
  - cbn [send_lists]. unfold bind at 1.
    pose proof (send_copied_trace (channelID tl) (messages tl) [] s) as Hc.
    rewrite app_nil_r in Hc.
    destruct (send_copied oracle (channelID tl) (messages tl) (messages tl) s)
      as [[rest stopped] s1| s1|]; [|exact Hc|exact Hc].
    cbn [fst snd]. destruct stopped; [exact Hc|].
    unfold bind. specialize (IH s1).
    destruct (send_lists oracle lists s1) as [r s2| s2|]; [| |exact IH].
    + now apply posted_trans with (2 := IH).
    + now apply posted_refused with (2 := IH).
Qed.
End Trace.

Lemma sendMessages_trace oracle lists s :
  match sendMessages oracle lists s with
  | Ok _ s' => posted s s'
  | Raise s' => refused oracle s s'
  | Waiting => False
  end.
Proof.
  unfold sendMessages, bind, modify.
  pose proof (send_lists_trace oracle lists (set_sendingMessages true s)) as H.
  destruct (send_lists oracle lists (set_sendingMessages true s))
    as [[lists' stopped] s1| s1|]; [|exact H|exact H].
  cbn [fst snd]. destruct stopped; cbn; exact H.
Qed.


(** *** Deliveries are requests that Discord accepted *)

Lemma all_accepted_app oracle h ds1 ds2 :
  all_accepted oracle h (ds1 ++ ds2) <->
  all_accepted oracle h ds1 /\ all_accepted oracle (h ++ map message_request ds1) ds2.
Proof.
  revert h. induction ds1 as [|d ds1 IH]; intros h; cbn.
  - rewrite app_nil_r. tauto.
  - rewrite IH, <- app_assoc. cbn. tauto.
Qed.

Lemma delivered_by_requests_nil oracle s s' :
  delivered s' = delivered s -> history s' = history s ->
  delivered_by_requests oracle [] s s'.
Proof. intros Hd Hh. repeat split; cbn; now rewrite ?app_nil_r. Qed.

Lemma delivered_by_requests_app oracle ds1 ds2 s1 s2 s3 :
  delivered_by_requests oracle ds1 s1 s2 -> delivered_by_requests oracle ds2 s2 s3 ->
  delivered_by_requests oracle (ds1 ++ ds2) s1 s3.
Proof.
  intros (Hd1 & Hh1 & Ha1) (Hd2 & Hh2 & Ha2). split; [|split].
  - now rewrite Hd2, Hd1, <- app_assoc.
  - now rewrite Hh2, Hh1, map_app, <- app_assoc.
  - apply all_accepted_app. split; [exact Ha1|]. now rewrite <- Hh1.
Qed.

Section Requests.
Context (oracle : Oracle).

Lemma send_copied_requests channel copied queue r s s' :
  send_copied oracle channel copied queue s = Ok r s' ->
  exists ds, delivered_by_requests oracle ds s s'.
Proof.
  revert queue s. induction copied as [|message copied IH]; intros queue s.
  - intros [= _ <-]. exists []. now apply delivered_by_requests_nil.
  - cbn [send_copied]. intros H. apply bind_ok in H as (limited & s0 & Hl & H).
    rewrite checkMessageRateLimit_eq in Hl.
    destruct (atRateLimit _ _ _); injection Hl as <- <-.
    + injection H as _ <-. exists []. now apply delivered_by_requests_nil.
    + apply bind_ok in H as ([] & s2 & Hc & H). rewrite createChannelMessage_eq in Hc.
      destruct (status_ok _) eqn:Hok; [|discriminate]. injection Hc as <-.
      destruct queue as [|first popped]; [discriminate|].
      apply IH in H as (ds & Hds). exists ([(channel, message)] ++ ds).
      apply delivered_by_requests_app with (2 := Hds).
      split; [reflexivity|]. split; [reflexivity|]. split; [exact Hok|exact I].
Qed.

Lemma send_lists_requests lists r s s' :
  send_lists oracle lists s = Ok r s' ->
  exists ds, delivered_by_requests oracle ds s s'.
Proof.
  revert r s s'. induction lists as [|[name tl] lists IH]; intros r s s'.
  - intros [= _ <-]. exists []. now apply delivered_by_requests_nil.
  - cbn [send_lists]. intros H. apply bind_ok in H as ([q stopped] & s1 & Hc & H).
    apply send_copied_requests in Hc as (ds1 & Hds1). cbn [fst snd] in H.
    destruct stopped.
    + injection H as _ <-. eauto.
    + apply bind_ok in H as (others & s2 & Hl & H). injection H as _ <-.
      apply IH in Hl as (ds2 & Hds2). exists (ds1 ++ ds2).
      now apply delivered_by_requests_app with (1 := Hds1).
Qed.

Lemma sendMessages_requests lists lists' s s' :
  sendMessages oracle lists s = Ok lists' s' ->
  exists ds, delivered_by_requests oracle ds s s'.
Proof.
  unfold sendMessages. intros H. apply bind_ok in H as ([] & s0 & H0 & H).
  injection H0 as <-. apply bind_ok in H as (sent & s1 & Hl & H).
  apply send_lists_requests in Hl as (ds & Hd & Hh & Ha). exists ds.
  destruct (snd sent).
  - injection H as _ <-. repeat split; assumption.
  - apply bind_ok in H as ([] & s2 & H2 & H). injection H2 as <-. injection H as _ <-.
    repeat split; assumption.
Qed.

(** The deliveries of a pass, which are [sent ks lists], were made by
    requests. *)
Lemma pass_requests lists lists' s s' ks :
  sendMessages oracle lists s = Ok lists' s' ->
  delivered s' = delivered s ++ sent ks lists ->
  delivered_by_requests oracle (sent ks lists) s s'.
Proof.
  intros H Hd. apply sendMessages_requests in H as (ds & Hd' & Hh & Ha).
  assert (ds = sent ks lists) as -> by (rewrite Hd' in Hd; now apply app_inv_head in Hd).
  repeat split; assumption.
Qed.

(** *** Where a pass stops *)

(** A copy that has been sent in full does not end the pass: the loop goes
    on with the messages after it. *)
Lemma send_copied_app channel c1 c2 q1 r s s1 extra :
  send_copied oracle channel c1 (c1 ++ q1) s = Ok (r, false) s1 ->
  send_copied oracle channel (c1 ++ c2) (c1 ++ c2 ++ extra) s
  = send_copied oracle channel c2 (c2 ++ extra) s1.
Proof.
  revert s. induction c1 as [|message c1 IH]; intros s.
  - intros [= _ <-]. reflexivity.
  - cbn [send_copied app]. unfold bind at 1 3. rewrite checkMessageRateLimit_eq.
    destruct (atRateLimit _ _ _); [discriminate|].
    unfold bind at 1 2. rewrite createChannelMessage_eq.
    destruct (status_ok _); [|discriminate]. apply IH.
Qed.

Lemma send_copied_stops channel c1 c2 r s s1 :
  send_copied oracle channel c1 c1 s = Ok (r, false) s1 ->
  c2 <> [] ->
  atRateLimit (rateLimits s1) (now s1) (makeURL Routes.CHANNEL_MESSAGES channel) = true ->
  send_copied oracle channel (c1 ++ c2) (c1 ++ c2) s
  = Ok (c2, true) (add_event (retry_event s1) s1).
Proof.
  intros H Hne Hlim.
  pose proof (send_copied_app channel c1 c2 [] r s s1 []) as Happ.
  rewrite !app_nil_r in Happ. rewrite (Happ H).
  destruct c2 as [|message c2]; [congruence|].
  cbn [send_copied]. unfold bind. now rewrite checkMessageRateLimit_eq, Hlim.
Qed.

Lemma send_lists_stops before name tl after k cut' s s1 :
  (k < length (messages tl))%nat ->
  send_lists oracle (cut_at before (name, tl) k) s = Ok (cut', false) s1 ->
  atRateLimit (rateLimits s1) (now s1) (message_url (name, tl)) = true ->
  send_lists oracle (before ++ (name, tl) :: after) s
  = Ok (map emptied before ++ without_front k (name, tl) :: after, true)
       (add_event (retry_event s1) s1).
Proof.
  intros Hk. unfold cut_at, message_url. cbn [fst snd]. revert cut' s.
  induction before as [|[name0 tl0] before IH]; intros cut' s H Hlim.
  - cbn [app send_lists] in H |- *. unfold bind at 1 in H.
    cbn [messages channelID set_messages] in H.
    destruct (send_copied oracle _ (firstn k (messages tl)) _ s)
      as [[q stopped] s0| |] eqn:Hc; [|discriminate..].
    cbn [fst snd] in H. destruct stopped; [discriminate|].
    unfold bind in H. cbn in H. injection H as _ <-.
    pose proof (send_copied_stops _ _ (skipn k (messages tl)) _ _ _ Hc) as Hs.
    rewrite firstn_skipn in Hs. unfold bind at 1. rewrite Hs; [reflexivity| |exact Hlim].
    intros Hnil. apply (f_equal (@length _)) in Hnil. rewrite length_skipn in Hnil.
    cbn in Hnil. lia.
  - cbn [app send_lists] in H |- *. unfold bind at 1 in H. unfold bind at 1.
    pose proof (send_copied_spec oracle (channelID tl0) (messages tl0) [] s) as Hspec.
    rewrite app_nil_r in Hspec.
    destruct (send_copied oracle (channelID tl0) (messages tl0) (messages tl0) s)
      as [[q stopped] s0| |]; [|discriminate..].
    cbn [fst snd] in H |- *. destruct stopped; [discriminate|].
    destruct Hspec as (k0 & _ & Hq & _ & _ & -> & _).
    rewrite skipn_all, app_nil_r in Hq. subst q.
    unfold bind at 1 in H. unfold bind at 1.
    destruct (send_lists oracle (before ++ _) s0) as [[c0 st0] s2| |] eqn:Hrest;
      [|discriminate..].
    cbn [fst snd] in H. injection H as _ Hst <-. subst st0.
    rewrite (IH _ _ Hrest Hlim). reflexivity.
Qed.

Lemma sendMessages_stops before entry after k cut' s s_k :
  (k < length (messages (snd entry)))%nat ->
  sendMessages oracle (cut_at before entry k) s = Ok cut' s_k ->
  sendingMessages s_k = false ->
  atRateLimit (rateLimits s_k) (now s_k) (message_url entry) = true ->
  sendMessages oracle (before ++ entry :: after) s
  = Ok (map emptied before ++ without_front k entry :: after)
       (add_event (retry_event s_k) (set_sendingMessages true s_k))
  /\ delivered s_k = delivered s ++ concat (map all_of before) ++ front k entry.
Proof.
  destruct entry as [name tl]. intros Hk H Hflag Hlim.
  unfold sendMessages, bind at 1, modify in H.
  pose proof (send_lists_spec oracle (cut_at before (name, tl) k) (set_sendingMessages true s))
    as Hspec.
  unfold bind at 1 in H.
  destruct (send_lists oracle (cut_at before (name, tl) k) (set_sendingMessages true s))
    as [[c' stopped] s1| |] eqn:Hrun; [|discriminate..].
  destruct Hspec as (Hf & Hspec). cbn [fst snd] in H. destruct stopped.
  { injection H as _ <-. cbn in Hf. congruence. }
  unfold bind, modify in H. cbn in H. injection H as _ <-.
  cbn [rateLimits now set_sendingMessages] in Hlim.
  split.
  - unfold sendMessages, bind at 1, modify. unfold bind at 1.
    rewrite (send_lists_stops before name tl after k c' _ s1 Hk Hrun Hlim).
    cbn [fst snd]. unfold ret. f_equal.
    destruct s1; cbn in Hf |- *. subst. reflexivity.
  - destruct Hspec as (_ & Hd & _). cbn [delivered set_sendingMessages] in Hd |- *.
    rewrite Hd. unfold cut_at. rewrite map_app, concat_app. cbn [map concat fst snd].
    rewrite app_nil_r. f_equal. f_equal. unfold all_of, front. cbn [fst snd messages set_messages].
    rewrite firstn_all. reflexivity.
Qed.
End Requests.
(* ===================================================================== *)
(** ** The properties of the specification                                *)
(* ===================================================================== *)

(** C4: a message formatted with [MESSAGE_FORMAT] for an item identifier
    (a non-negative integer, such as 123456789), an author handle (a text on
    one line), a creation date and a repost flag is parsed back by
    [getIDFromMessage] to exactly that identifier. *)
Theorem C4_format_parse_roundtrip (id : Z) (handle date : string) (repost : bool) :
  0 <= id -> has_newline handle = false ->
  getIDFromMessage (MESSAGE_FORMAT handle id date (retweetStatus_of repost)) = Some id.
Proof. intros. now apply format_then_parse. Qed.

Lemma C4_witness :
  0 <= 123456789 /\ has_newline "bencecile" = false /\
  getIDFromMessage (MESSAGE_FORMAT "bencecile" 123456789 "Wed Oct 10 20:19:24 +0000 2018"
                                   (retweetStatus_of true)) = Some 123456789.
Proof.
  split; [lia|]. split; [reflexivity|].
  apply (C4_format_parse_roundtrip 123456789 "bencecile"); [lia|reflexivity].
Defined.

(** C6, as the code has it: for a URL with a recorded rate limit, the
    endpoint is reported exhausted exactly when [remaining = 0] and
    [now <= reset]; it is available again as soon as [reset < now], from the
    clock alone. *)
Theorem C6_exhausted_until_past_reset (limits : gmap string RateLimit) (now : Q)
    (u : string) (rl : RateLimit) :
  limits !! u = Some rl ->
  (atRateLimit limits now u = true <-> remaining rl = 0 /\ (now <= inject_Z (reset rl))%Q)
  /\ ((inject_Z (reset rl) < now)%Q -> atRateLimit limits now u = false).
Proof.
  intros Hu. split.
  - rewrite atRateLimit_spec. split.
    + intros (rl' & Hu' & ? & ?). rewrite Hu in Hu'. injection Hu' as <-. auto.
    + intros [? ?]. eauto.
  - intros Hlt. destruct (atRateLimit limits now u) eqn:E; [|reflexivity].
    apply atRateLimit_spec in E as (rl' & Hu' & _ & Hle).
    rewrite Hu in Hu'. injection Hu' as <-. exfalso. apply (Qlt_not_le _ _ Hlt Hle).
Qed.

Lemma C6_witness :
  let u := makeURL Routes.CHANNEL_MESSAGES (Some "42") in
  let limits : gmap string RateLimit := {[ u := mkRateLimit 0 1000 ]} in
  limits !! u = Some (mkRateLimit 0 1000) /\
  atRateLimit limits (1001 # 1) u = false.
Proof.
  intros u limits.
  assert (H : limits !! u = Some (mkRateLimit 0 1000)) by apply lookup_singleton_eq.
  split; [exact H|].
  apply (C6_exhausted_until_past_reset limits (1001 # 1) u _ H). reflexivity.
Defined.

(** At the reset time itself the endpoint is still reported exhausted,
    although [now < reset] is false and [now >= reset] holds. *)
Lemma C6_counterexample :
  let u := makeURL Routes.CHANNEL_MESSAGES (Some "42") in
  let limits : gmap string RateLimit := {[ u := mkRateLimit 0 1000 ]} in
  let now : Q := inject_Z 1000 in
  limits !! u = Some (mkRateLimit 0 1000) /\
  atRateLimit limits now u = true /\
  ~ (remaining (mkRateLimit 0 1000) = 0 /\ (now < inject_Z (reset (mkRateLimit 0 1000)))%Q) /\
  (inject_Z (reset (mkRateLimit 0 1000)) <= now)%Q.
Proof.
  intros u limits now.
  assert (H : limits !! u = Some (mkRateLimit 0 1000)) by apply lookup_singleton_eq.
  split; [exact H|]. split; [|split].
  - unfold atRateLimit. rewrite H. reflexivity.
  - intros [_ Hlt]. revert Hlt. apply Qle_not_lt, Qle_refl.
  - apply Qle_refl.
Qed.

(** C7, as the code has it: in a formatted message the identifier, as an
    unadorned decimal integer, ends the first line (the URL line), and the
    final line is the date line, or the repost marker; the parser returns the
    identifier; and whatever the parser returns is the value of a run of
    digits that stops at the end of a line, the leftmost start of such a
    run. *)
Theorem C7_identifier_ends_first_line (id : Z) (handle date : string) (repost : bool) :
  0 <= id -> has_newline handle = false ->
  let message := MESSAGE_FORMAT handle id date (retweetStatus_of repost) in
  first_line message = url_prefix handle +:+ str_of_int id
  /\ all_digits (str_of_int id) = true
  /\ (has_newline date = false ->
      final_line message = if repost then "<Retweet>" else "Date: " +:+ date)
  /\ getIDFromMessage message = Some id
  /\ (forall text n, getIDFromMessage text = Some n ->
        exists pre group1 post,
          text = pre +:+ group1 +:+ post /\ group1 <> "" /\ all_digits group1 = true
          /\ at_eol post = true /\ n = int_of_digits 0 group1
          /\ forall p1 p2, pre = p1 +:+ p2 -> p2 <> "" ->
                match_digits_eol (p2 +:+ group1 +:+ post) = None).
Proof.
  intros Hid Hnl message. split; [|split; [|split; [|split]]].
  - now apply first_line_format.
  - now apply str_of_int_digits.
  - intros Hdate. now apply final_line_format.
  - now apply format_then_parse.
  - intros text n. unfold getIDFromMessage.
    destruct (re_search text) as [g|] eqn:Hs; [|discriminate]. intros [= <-].
    apply re_search_sound in Hs as (pre & post & ? & ? & ? & ? & ?).
    exists pre, g, post. repeat split; auto.
Qed.

Lemma C7_witness :
  0 <= 123456789 /\ has_newline "bencecile" = false /\
  first_line (MESSAGE_FORMAT "bencecile" 123456789 "Wed Oct 10 20:19:24 +0000 2018"
                             (retweetStatus_of false))
  = "URL: https://twitter.com/bencecile/status/123456789".
Proof.
  split; [lia|]. split; [reflexivity|].
  exact (proj1 (C7_identifier_ends_first_line 123456789 "bencecile"
                  "Wed Oct 10 20:19:24 +0000 2018" false ltac:(lia) eq_refl)).
Defined.

(** The final line of a formatted message is the date line, or the repost
    marker, not the identifier. *)
Lemma C7_counterexample :
  let plain := MESSAGE_FORMAT "bencecile" 123456789 "Wed Oct 10 20:19:24 +0000 2018"
                              (retweetStatus_of false) in
  let repost := MESSAGE_FORMAT "bencecile" 123456789 "Wed Oct 10 20:19:24 +0000 2018"
                               (retweetStatus_of true) in
  final_line plain = "Date: Wed Oct 10 20:19:24 +0000 2018"
  /\ final_line plain <> str_of_int 123456789
  /\ all_digits (final_line plain) = false
  /\ final_line repost = "<Retweet>"
  /\ final_line repost <> str_of_int 123456789
  /\ getIDFromMessage (final_line repost) = None.
Proof. vm_compute. repeat split; congruence. Qed.

(** C10: a URL with no entry in [rateLimits] is not at its rate limit, at any
    time, so neither the check before a message nor the wait before a channel
    creation defers or blocks for it; and the URL stays without an entry as
    long as no response for it carries the rate-limit headers, which is the
    case of every URL of a new client, whose [rateLimits] is empty. *)
Theorem C10_unrecorded_url_is_available (limits : gmap string RateLimit) (u : string) :
  limits !! u = None ->
  (forall now, atRateLimit limits now u = false)
  /\ (forall oracle s channel,
        rateLimits s = limits -> makeURL Routes.CHANNEL_MESSAGES channel = u ->
        checkMessageRateLimit channel s = Ok false s
        /\ forall rounds, wait_while_rate_limited oracle rounds u s = Ok tt s)
  /\ (forall responses : list (Response unit),
        (forall r, In r responses -> url r = u -> rate_headers r = None) ->
        fold_left (fun recorded r => record_rate_limit r recorded) responses limits !! u
        = None).
Proof.
  intros Hu. split; [|split].
  - intros now. unfold atRateLimit. now rewrite Hu.
  - intros oracle s channel Hs Hc. split.
    + unfold checkMessageRateLimit, bind, atRateLimitM, gets, atRateLimit.
      rewrite Hc, Hs, Hu. reflexivity.
    + intros rounds. destruct rounds; simpl;
        unfold bind, atRateLimitM, gets, atRateLimit; rewrite Hs, Hu; reflexivity.
  - intros responses. revert limits Hu.
    induction responses as [|r responses IH]; intros limits Hu Hr; [exact Hu|].
    cbn [fold_left]. apply IH; [|intros r' Hin; apply Hr; now right].
    unfold record_rate_limit. destruct (rate_headers r) as [rl|] eqn:Hh; [|exact Hu].
    destruct (decide (url r = u)) as [He|Hne].
    + rewrite (Hr r (or_introl eq_refl) He) in Hh. discriminate.
    + now rewrite lookup_insert_ne.
Qed.

Lemma C10_witness :
  (∅ : gmap string RateLimit) !! makeURL Routes.CHANNEL_MESSAGES (Some "42") = None /\
  atRateLimit ∅ 0 (makeURL Routes.CHANNEL_MESSAGES (Some "42")) = false.
Proof.
  split; [apply lookup_empty|].
  apply (proj1 (C10_unrecorded_url_is_available ∅ _ (lookup_empty _))).
Defined.

(** C1: a drain pass ([sendMessages]) sends, for each list, a front of its
    queue in order and pops as many messages from the queue itself: the first
    [k] messages of the list have been delivered once and the messages from
    position [k] on are still queued, in order.  To deliver is to ask
    Discord: the requests that the pass has made are the requests that
    create the messages delivered, one for each message and in the order of
    delivery, each of them accepted by Discord, and the pass has made no
    other request.  A pass that stops at a rate limit stops at such a
    position [k]; a later pass sends the messages from position [k] on, again
    by one request for each, so that the two passes together have sent the
    first [k1 + k2] messages, none twice and none skipped.  A pass that
    raises has made, as its last request, the one that Discord refused.  The
    pass never waits, and it returns when no message request fails.  The
    fetch loop of [doUpdate], which is what puts messages in the queues, adds
    them at the end. *)
Theorem C1_drain_in_order_and_resume (oracle : Oracle) (lists : Lists) (s : Sys) :
  match sendMessages oracle lists s with
  | Ok lists1 s1 =>
      exists ks1,
        Forall2 within ks1 lists
        /\ lists1 = progress ks1 lists
        /\ delivered s1 = delivered s ++ sent ks1 lists
        /\ delivered_by_requests oracle (sent ks1 lists) s s1
        /\ (sendingMessages s1 = true -> stopped_at lists lists1 s s1)
        /\ (sendingMessages s1 = false -> drained_all lists lists1 s s1)
        /\ forall later lists2 s2,
             sendMessages oracle lists1 later = Ok lists2 s2 ->
             exists ks2,
               Forall2 within (zip_with Nat.add ks1 ks2) lists
               /\ lists2 = progress (zip_with Nat.add ks1 ks2) lists
               /\ delivered s2 = delivered later ++ sent ks2 lists1
               /\ delivered_by_requests oracle (sent ks2 lists1) later s2
               /\ forall e k1 k2,
                    front k1 e ++ front k2 (without_front k1 e) = front (k1 + k2) e
  | Raise s1 => raised_at lists s s1 /\ refused oracle s s1
  | Waiting => False
  end
  /\ ((forall h, status_ok (answer_message oracle h) = true) ->
      exists lists1 s1, sendMessages oracle lists s = Ok lists1 s1)
  /\ (forall lists' s', fetch_all oracle lists s = Ok lists' s' ->
        Forall2 enqueued lists lists').
Proof.
  split; [|split; [apply sendMessages_returns|apply fetch_all_enqueues]].
  pose proof (sendMessages_spec oracle lists s) as Hs.
  pose proof (sendMessages_trace oracle lists s) as Ht.
  destruct (sendMessages oracle lists s) as [lists1 s1|s1|] eqn:H;
    [|split; assumption|exact Hs].
  destruct (pass_progress oracle lists s lists1 s1 H) as (ks1 & Hw1 & Hl1 & Hd1).
  exists ks1. split; [exact Hw1|]. split; [exact Hl1|]. split; [exact Hd1|].
  split; [now apply pass_requests with (lists' := lists1)|].
  split; [|split].
  - intros Hflag. destruct Hs as [[Hf _]|[_ Hst]]; [congruence|exact Hst].
  - intros Hflag. destruct Hs as [[_ Hd]|[Hf _]]; [exact Hd|congruence].
  - intros later lists2 s2 H2.
    destruct (pass_progress oracle lists1 later lists2 s2 H2) as (ks2 & Hw2 & Hl2 & Hd2).
    exists ks2. subst lists1. split; [|split; [|split; [|split]]].
    + now apply within_twice.
    + rewrite Hl2. apply progress_twice.
      * now apply Forall2_length in Hw1.
      * apply Forall2_length in Hw2. rewrite Hw2. unfold progress.
        apply Forall2_length in Hw1. rewrite length_zip_with. lia.
    + exact Hd2.
    + now apply pass_requests with (lists' := lists2).
    + intros e k1 k2. apply front_then_front.
Qed.

(** Discord allows one message and then none until the time 1000: the first
    pass delivers the first message by one request and leaves the others
    queued; a pass after the time 1000 delivers the others. *)
Lemma C1_witness :
  let oracle := Limited.oracle in
  let lists := [("Alpha", mkTwitterList 11 (Some "2") ["first"; "second"; "third"])] in
  let s := Simulation.start ∅ false in
  (forall h, status_ok (answer_message oracle h) = true) /\
  exists lists1 s1,
    sendMessages oracle lists s = Ok lists1 s1
    /\ lists1 = [("Alpha", mkTwitterList 11 (Some "2") ["second"; "third"])]
    /\ delivered s1 = [(Some "2", "first")]
    /\ history s1 = [CreateChannelMessage (Some "2") "first"]
    /\ let later := mkSys (categoryName s1) (guildID s1) (sendingMessages s1)
                         (rateLimits s1) [] 1001 (history s1) (delivered s1) in
       exists lists2 s2,
         sendMessages oracle lists1 later = Ok lists2 s2
         /\ lists2 = [("Alpha", mkTwitterList 11 (Some "2") [])]
         /\ delivered s2 = [(Some "2", "first"); (Some "2", "second"); (Some "2", "third")]
         /\ history s2 = [CreateChannelMessage (Some "2") "first";
                          CreateChannelMessage (Some "2") "second";
                          CreateChannelMessage (Some "2") "third"].
Proof.
  intros oracle lists s.
  assert (Hok : forall h, status_ok (answer_message oracle h) = true) by reflexivity.
  split; [exact Hok|].
  destruct (proj1 (proj2 (C1_drain_in_order_and_resume oracle lists s)) Hok)
    as (lists1 & s1 & H).
  exists lists1, s1. split; [exact H|].
  vm_compute in H. injection H as <- <-.
  split; [reflexivity|]. split; [reflexivity|]. split; [reflexivity|].
  eexists _, _. split; [vm_compute; reflexivity|]. repeat split; reflexivity.
Defined.

(** C2, as the code has it: the pass returns at the first list that has a
    message to send while its endpoint is at the rate limit.  A retry of
    [sendMessages] is entered with a delay of 10 seconds; the lists before it
    have been sent in full; its remaining messages and the messages of every
    list after it stay queued, whether those lists are rate limited or not.
    This is so wherever the pass meets the limit, at the first message that
    the pass has to send or after deliveries: when the pass over the lists
    cut before the message [k] of a list goes through them all, so that
    nothing has stopped it before, and the endpoint of that list is then at
    its limit, the pass over the whole lists returns there. *)
Theorem C2_first_limited_list_ends_the_pass (oracle : Oracle) (lists : Lists) (s : Sys) :
  (forall lists' s',
     sendMessages oracle lists s = Ok lists' s' -> sendingMessages s' = true ->
     stopped_at lists lists' s s')
  /\ (forall before entry after,
        lists = before ++ entry :: after ->
        Forall nothing_pending before ->
        messages (snd entry) <> [] ->
        atRateLimit (rateLimits s) (now s) (message_url entry) = true ->
        sendMessages oracle lists s
        = Ok lists (add_event (retry_event s) (set_sendingMessages true s)))
  /\ (forall before entry after k cut' s_k,
        lists = before ++ entry :: after ->
        (k < length (messages (snd entry)))%nat ->
        sendMessages oracle (cut_at before entry k) s = Ok cut' s_k ->
        sendingMessages s_k = false ->
        atRateLimit (rateLimits s_k) (now s_k) (message_url entry) = true ->
        let lists' := map emptied before ++ without_front k entry :: after in
        let s' := add_event (retry_event s_k) (set_sendingMessages true s_k) in
        sendMessages oracle lists s = Ok lists' s'
        /\ delivered_by_requests oracle (concat (map all_of before) ++ front k entry) s s'
        /\ events s' = events s ++ [retry_event s']
        /\ stopped_at lists lists' s s').
Proof.
  assert (Hstop : forall lists' s',
    sendMessages oracle lists s = Ok lists' s' -> sendingMessages s' = true ->
    stopped_at lists lists' s s').
  { intros lists' s' H Hflag. pose proof (sendMessages_spec oracle lists s) as Hs.
    rewrite H in Hs. destruct Hs as [[Hf _]|[_ Hst]]; [congruence|exact Hst]. }
  split; [exact Hstop|]. split.
  - intros before entry after -> Hb Hm Hlim. now apply sendMessages_blocked.
  - intros before entry after k cut' s_k Hl Hk Hcut Hflag Hlim lists' s'.
    destruct (sendMessages_stops oracle before entry after k cut' s s_k Hk Hcut Hflag Hlim)
      as (Hrun & Hd).
    rewrite <- Hl in Hrun. fold lists' s' in Hrun.
    pose proof (Hstop lists' s' Hrun eq_refl) as Hst.
    split; [exact Hrun|]. split; [|split; [|exact Hst]].
    + apply sendMessages_requests in Hrun as (ds & Hd' & Hh & Ha).
      assert (ds = concat (map all_of before) ++ front k entry) as ->.
      { subst s'. cbn [delivered add_event set_sendingMessages] in Hd'.
        rewrite Hd in Hd'. now apply app_inv_head in Hd'. }
      repeat split; assumption.
    + destruct Hst as (b & e & a & k' & _ & _ & _ & _ & _ & He). exact He.
Qed.

(** The list Zeta, which comes first, is not rate limited: its message is
    delivered, and the pass returns at the list Alpha after it, which is. *)
Lemma C2_witness :
  let oracle := Simulation.oracle false Simulation.guild [] in
  let s := Simulation.start Simulation.alpha_limited false in
  let zeta := ("Zeta", mkTwitterList 12 (Some "3") ["second"]) in
  let alpha := ("Alpha", mkTwitterList 11 (Some "2") ["first"]) in
  exists s',
    sendMessages oracle [zeta; alpha] s = Ok [emptied zeta; alpha] s'
    /\ delivered s' = [(Some "3", "second")]
    /\ history s' = [CreateChannelMessage (Some "3") "second"]
    /\ sendingMessages s' = true.
Proof.
  intros oracle s zeta alpha.
  destruct (sendMessages oracle (cut_at [zeta] alpha 0) s) as [cut' s_k| |] eqn:Hcut;
    [|vm_compute in Hcut; discriminate..].
  assert (Hs : s_k = mkSys (Some "Twitter For bot") "7" false Simulation.alpha_limited []
                           (1 # 4) [CreateChannelMessage (Some "3") "second"]
                           [(Some "3", "second")]).
  { pose proof Hcut as Hc. vm_compute in Hc. injection Hc as _ <-. reflexivity. }
  destruct (proj2 (proj2 (C2_first_limited_list_ends_the_pass oracle [zeta; alpha] s))
              [zeta] alpha [] 0%nat cut' s_k eq_refl ltac:(cbn; lia) Hcut)
    as (Hrun & (Hd & Hh & _) & _ & _).
  - rewrite Hs. reflexivity.
  - rewrite Hs. vm_compute. reflexivity.
  - eexists. split; [exact Hrun|]. rewrite Hs in Hd, Hh |- *.
    split; [exact Hd|]. split; [exact Hh|reflexivity].
Defined.

(** The list Zeta is not rate limited and has a message to send, but the
    pass ends at the list Alpha before it: nothing is delivered to Zeta. *)
Lemma C2_counterexample :
  let oracle := Simulation.oracle false Simulation.guild [] in
  let s := Simulation.start Simulation.alpha_limited false in
  atRateLimit (rateLimits s) (now s) (makeURL Routes.CHANNEL_MESSAGES (Some "2")) = true
  /\ atRateLimit (rateLimits s) (now s) (makeURL Routes.CHANNEL_MESSAGES (Some "3")) = false
  /\ get_list "Zeta" Simulation.two_lists = Some (mkTwitterList 12 (Some "3") ["second"])
  /\ exists lists' s',
       sendMessages oracle Simulation.two_lists s = Ok lists' s'
       /\ delivered s' = []
       /\ get_list "Zeta" lists' = Some (mkTwitterList 12 (Some "3") ["second"]).
Proof.
  intros oracle s. split; [vm_compute; reflexivity|]. split; [vm_compute; reflexivity|].
  split; [reflexivity|].
  eexists _, _. split; [vm_compute; reflexivity|]. split; reflexivity.
Qed.

(** C3, as the code has it: when [channelMaintenance] is called again right
    after it has returned, every list is bound, so no channel is created for
    a list and nothing waits; the category is created again only if the
    listing does not have it; and the positions are sent again exactly when
    the channels under the category, in the order in which Discord lists them
    now, are not sorted by name.  When the listing has the category and lists
    those channels in the order of their names, the second call only lists. *)
Theorem C3_second_maintenance (oracle : Oracle) (rounds rounds' : nat)
    (lists lists1 : Lists) (s s1 : Sys) :
  channelMaintenance oracle rounds lists s = Ok lists1 s1 ->
  let fetched := fetched_channels oracle s1 in
  let managed := List.filter (under (category_of oracle s1)) fetched in
  match channelMaintenance oracle rounds' lists1 s1 with
  | Ok lists2 s2 =>
      lists2 = lists1
      /\ history s2 =
         history s1
         ++ GetGuildChannels (guildID s1)
            :: category_call (guildID s1) (categoryName s1) fetched
            ++ reposition_call (guildID s1) (positionPairs managed)
      /\ (reposition_call (guildID s1) (positionPairs managed) = []
          <-> sort_by_name managed = managed)
      /\ (is_Some (find_category (categoryName s1) fetched) -> Sorted name_le managed ->
          history s2 = history s1 ++ [GetGuildChannels (guildID s1)])
  | Raise _ => True
  | Waiting => False
  end.
Proof.
  intros H fetched managed.
  apply channelMaintenance_kept in H as (_ & _ & Hb).
  pose proof (channelMaintenance_bound_no_wait oracle rounds' lists1 s1 Hb) as Hw.
  destruct (channelMaintenance oracle rounds' lists1 s1) as [lists2 s2| |] eqn:H2;
    [|exact I|congruence].
  apply channelMaintenance_bound in H2 as [-> Hh]; [|exact Hb].
  split; [reflexivity|]. split; [exact Hh|]. split; [apply reposition_call_nil_iff|].
  intros [c Hc] Hs. rewrite Hh. unfold category_call. fold fetched. rewrite Hc.
  fold managed. rewrite positionPairs_sorted by exact Hs. reflexivity.
Qed.

Lemma C3_witness :
  let oracle := Simulation.oracle true Simulation.guild [] in
  let s := Simulation.start ∅ false in
  exists lists1 s1,
    channelMaintenance oracle 0 Simulation.three_lists s = Ok lists1 s1
    /\ match channelMaintenance oracle 0 lists1 s1 with
       | Ok lists2 _ => lists2 = lists1
       | Raise _ => True
       | Waiting => False
       end.
Proof.
  intros oracle s.
  destruct (channelMaintenance oracle 0 Simulation.three_lists s) as [lists1 s1|s1|] eqn:H1.
  - exists lists1, s1. split; [reflexivity|].
    pose proof (C3_second_maintenance oracle 0 0 _ _ _ _ H1) as H2. cbv zeta in H2.
    destruct (channelMaintenance oracle 0 lists1 s1); [exact (proj1 H2)|exact I|exact H2].
  - vm_compute in H1. discriminate.
  - vm_compute in H1. discriminate.
Defined.

(** The guild has the channels alpha, zeta, mike at the positions 3, 4, 5.
    The first call sends positions for mike and zeta; the second call, with
    nothing else having touched the guild, sends positions again, whether
    Discord lists channels in the order of their creation or in the order of
    their positions. *)
Lemma C3_counterexample :
  Simulation.repositions_twice false /\ Simulation.repositions_twice true.
Proof.
  split; unfold Simulation.repositions_twice; eexists _, _, _, _, _;
    (split; [vm_compute; reflexivity|]);
    (split; [vm_compute; reflexivity|]);
    (split; reflexivity).
Qed.

(** C5: when no request fails, [channelMaintenance] returns (given rounds
    enough for its waits).  The channels it orders are those listed under the
    category followed by those it has just created; it sorts them by name
    (a stable sort: a permutation in the order of the names), takes a pair
    (id, index) for exactly the indices where the sorted list differs from the
    list before the sort, and makes one reposition request with exactly those
    pairs, or none when there is no pair; nothing else it asks is a
    reposition.  Channels named Zeta, Alpha, Mike give the pairs that put them
    in the order Alpha, Mike, Zeta; channels already in the order of their
    names give no pair and no request. *)
Theorem C5_sorted_reposition_batch (oracle : Oracle) (lists : Lists) (s : Sys) :
  discord_ok oracle ->
  exists n lists' s' d,
    let before :=
      GetGuildChannels (guildID s)
        :: category_call (guildID s) (categoryName s) (fetched_channels oracle s) in
    let managed :=
      List.filter (under (category_of oracle s)) (fetched_channels oracle s)
      ++ created_in oracle (history s ++ before) d in
    (forall rounds, (n <= rounds)%nat ->
       channelMaintenance oracle rounds lists s = Ok lists' s')
    /\ forallb (fun r => not_reposition (kind r)) (before ++ d) = true
    /\ history s' = history s ++ (before ++ d)
                      ++ reposition_call (guildID s) (positionPairs managed)
    /\ Permutation (sort_by_name managed) managed
    /\ Sorted name_le (sort_by_name managed)
    /\ (forall name,
          List.filter (fun c => String.eqb (ch_name c) name) (sort_by_name managed)
          = List.filter (fun c => String.eqb (ch_name c) name) managed)
    /\ (forall cid i,
          In (cid, i) (positionPairs managed) <->
          exists c, sort_by_name managed !! i = Some c /\ ch_id c = cid
                    /\ managed !! i <> Some c)
    /\ (Sorted name_le managed ->
        positionPairs managed = [] /\ history s' = history s ++ before ++ d)
    /\ (forall z a m,
          ch_name z = "Zeta" -> ch_name a = "Alpha" -> ch_name m = "Mike" ->
          sort_by_name [z; a; m] = [a; m; z]
          /\ positionPairs [z; a; m] = [(ch_id a, 0%nat); (ch_id m, 1%nat); (ch_id z, 2%nat)]
          /\ positionPairs [a; m; z] = []).
Proof.
  intros Hok.
  destruct (channelMaintenance_returns oracle lists s Hok) as (n & lists' & s' & Hn).
  destruct (channelMaintenance_history oracle n lists s lists' s' (Hn n (le_n n)))
    as (before & d & -> & Hd & Hh).
  exists n, lists', s', d. cbv zeta in *.
  split; [exact Hn|]. split; [exact Hd|]. split; [exact Hh|].
  split; [apply sort_by_name_perm|]. split; [apply sort_by_name_sorted|].
  split; [intros name; apply sort_by_name_stable|].
  split; [intros cid i; apply positionPairs_In|].
  split; [|apply zeta_alpha_mike].
  intros Hs. split; [now apply positionPairs_sorted|].
  rewrite Hh, positionPairs_sorted by exact Hs. cbn. now rewrite app_nil_r.
Qed.

Lemma C5_witness :
  let oracle := Simulation.oracle false Simulation.guild [] in
  discord_ok oracle
  /\ exists n lists' s',
       forall rounds, (n <= rounds)%nat ->
         channelMaintenance oracle rounds Simulation.three_lists (Simulation.start ∅ false)
         = Ok lists' s'.
Proof.
  intros oracle. split; [apply simulation_discord_ok|].
  destruct (C5_sorted_reposition_batch oracle Simulation.three_lists
              (Simulation.start ∅ false) (simulation_discord_ok _ _ _))
    as (n & lists' & s' & d & H & _).
  exists n, lists', s'. exact H.
Defined.

(** C8: while [sendingMessages] is set, [doUpdate] does not call
    [sendMessages]: it delivers nothing and leaves the flag set; so a task
    that delivers a message, or that clears the flag, while the flag is set is
    the retry ([sendMessages] run by the scheduler).  A pass ends with the
    flag cleared only when it has gone through every list: every queue is
    empty, every message was delivered, and no retry was entered; a pass that
    stops at a rate limit leaves the flag set. *)
Theorem C8_retry_is_the_only_drainer (oracle : Oracle) (rounds : nat) (lists : Lists)
    (s : Sys) :
  (sendingMessages s = true ->
     match doUpdate oracle rounds lists s with
     | Ok _ s' => delivered s' = delivered s /\ sendingMessages s' = true
     | Raise s' => delivered s' = delivered s /\ sendingMessages s' = true
     | Waiting => True
     end)
  /\ (forall action lists' s',
        sendingMessages s = true ->
        run_task oracle rounds action lists s = Ok lists' s' ->
        (delivered s' <> delivered s -> action = SendMessages)
        /\ (sendingMessages s' = false ->
            action = SendMessages /\ drained_all lists lists' s s'))
  /\ (forall lists' s',
        sendMessages oracle lists s = Ok lists' s' ->
        (sendingMessages s' = false ->
           drained_all lists lists' s s' /\ Forall nothing_pending lists')
        /\ (sendingMessages s' = true -> stopped_at lists lists' s s')).
Proof.
  assert (Hsend : forall lists' s',
    sendMessages oracle lists s = Ok lists' s' ->
    (sendingMessages s' = false -> drained_all lists lists' s s')
    /\ (sendingMessages s' = true -> stopped_at lists lists' s s')).
  { intros lists' s' H. pose proof (sendMessages_spec oracle lists s) as Hs.
    rewrite H in Hs. destruct Hs as [[Hf Hd]|[Hf Hst]]; split; intros; congruence || auto. }
  assert (Hupdate : sendingMessages s = true ->
    match doUpdate oracle rounds lists s with
    | Ok _ s' => delivered s' = delivered s /\ sendingMessages s' = true
    | Raise s' => delivered s' = delivered s /\ sendingMessages s' = true
    | Waiting => True
    end).
  { intros Hflag. pose proof (doUpdate_flag_set oracle rounds lists s Hflag) as H.
    destruct (doUpdate oracle rounds lists s); auto;
      destruct H as [Hd Hf]; split; congruence. }
  split; [exact Hupdate|]. split.
  - intros action lists' s' Hflag Hrun. destruct action; unfold run_task in Hrun.
    + specialize (Hupdate Hflag). rewrite Hrun in Hupdate. destruct Hupdate as [Hd Hf].
      split; intros; congruence.
    + split; [reflexivity|]. intros Hf. split; [reflexivity|].
      now apply (Hsend lists' s' Hrun).
  - intros lists' s' H. destruct (Hsend lists' s' H) as [Hclear Hset]. split; [|exact Hset].
    intros Hf. specialize (Hclear Hf). split; [exact Hclear|].
    destruct Hclear as (-> & _). apply emptied_nothing_pending.
Qed.

Lemma C8_witness :
  let oracle := Simulation.oracle false Simulation.guild [] in
  let s := Simulation.start Simulation.alpha_limited true in
  sendingMessages s = true /\
  match doUpdate oracle 0 Simulation.two_lists s with
  | Ok _ s' => delivered s' = delivered s /\ sendingMessages s' = true
  | Raise s' => delivered s' = delivered s /\ sendingMessages s' = true
  | Waiting => True
  end.
Proof.
  intros oracle s. split; [reflexivity|].
  apply (proj1 (C8_retry_is_the_only_drainer oracle 0 Simulation.two_lists s)).
  reflexivity.
Defined.

(** C9: [updateTwitterLists], [channelMaintenance], [sendMessages] and
    [doUpdate] keep every entry of [twitterLists] where it is, under its name
    and for its Twitter list, and a list that is bound to a channel stays
    bound to that channel; read by name, the entry of a name is still there
    with the same channel.  Only [channelMaintenance] binds: after it every
    list is bound, while [updateTwitterLists] only adds unbound entries at
    the end and [sendMessages] leaves every [channelID] as it is. *)
Theorem C9_channelID_bound_once (oracle : Oracle) (rounds : nat) (lists lists' : Lists)
    (s s' : Sys) :
  updateTwitterLists oracle lists s = Ok lists' s'
  \/ channelMaintenance oracle rounds lists s = Ok lists' s'
  \/ sendMessages oracle lists s = Ok lists' s'
  \/ doUpdate oracle rounds lists s = Ok lists' s' ->
  lists_kept lists lists'
  /\ (forall name tl,
        get_list name lists = Some tl ->
        exists tl', get_list name lists' = Some tl'
                    /\ list_id tl' = list_id tl
                    /\ (forall c, channelID tl = Some c -> channelID tl' = Some c))
  /\ (updateTwitterLists oracle lists s = Ok lists' s' ->
      exists added, lists' = lists ++ added /\ Forall unbound added)
  /\ (channelMaintenance oracle rounds lists s = Ok lists' s' ->
      Forall2 entry_kept lists lists' /\ Forall bound lists')
  /\ (sendMessages oracle lists s = Ok lists' s' ->
      Forall2 entry_same_channel lists lists').
Proof.
  intros H.
  assert (Hk : lists_kept lists lists').
  { destruct H as [H|[H|[H|H]]].
    - eapply updateTwitterLists_kept; eassumption.
    - apply lists_kept_of_Forall2. eapply channelMaintenance_kept; eassumption.
    - apply lists_kept_of_Forall2. eapply sendMessages_kept; eassumption.
    - eapply doUpdate_kept; eassumption. }
  split; [exact Hk|]. split; [|split; [|split]].
  - intros name tl. now apply lists_kept_get_list.
  - apply updateTwitterLists_adds.
  - intros Hc. apply channelMaintenance_kept in Hc as (? & _ & ?). auto.
  - apply sendMessages_same_channel.
Qed.

Lemma C9_witness :
  let oracle := Simulation.oracle false Simulation.guild [] in
  let s := Simulation.start Simulation.alpha_limited false in
  exists lists' s',
    sendMessages oracle Simulation.two_lists s = Ok lists' s'
    /\ lists_kept Simulation.two_lists lists'.
Proof.
  intros oracle s.
  destruct (sendMessages oracle Simulation.two_lists s) as [lists' s'|s'|] eqn:H.
  - exists lists', s'. split; [reflexivity|].
    exact (proj1 (C9_channelID_bound_once oracle 0 Simulation.two_lists lists' s s'
                    (or_intror (or_intror (or_introl H))))).
  - vm_compute in H. discriminate.
  - vm_compute in H. discriminate.
Defined.

(* ===================================================================== *)
(** ** Further properties of the code                                     *)
(* ===================================================================== *)

(** *** URLs and rate-limit records *)

Lemma str_length_app s t : String.length (s +:+ t) = (String.length s + String.length t)%nat.
Proof.
  induction s as [|c s IH]; [reflexivity|]. rewrite str_app_cons. simpl. now rewrite IH.
Qed.

Lemma str_app_inv_tail s t u : s +:+ u = t +:+ u -> s = t.
Proof.
  revert t. induction s as [|c s IH]; intros [|d t] H.
  - reflexivity.
  - apply (f_equal String.length) in H.
    rewrite str_app_nil_l, str_app_cons in H. simpl in H.
    rewrite str_length_app in H. lia.
  - apply (f_equal String.length) in H.
    rewrite str_app_nil_l, str_app_cons in H. simpl in H.
    rewrite str_length_app in H. lia.
  - rewrite !str_app_cons in H. injection H as -> H. f_equal. now apply IH.
Qed.

Lemma str_app_inv_head s t u : s +:+ t = s +:+ u -> t = u.
Proof.
  induction s as [|c s IH]; [now rewrite !str_app_nil_l|].
  rewrite !str_app_cons. intros [= H]. now apply IH.
Qed.

Lemma makeURL_inj r a b : makeURL r (Some a) = makeURL r (Some b) -> a = b.
Proof.
  unfold makeURL. intros H.
  apply str_app_inv_head, str_app_inv_head in H. now apply str_app_inv_tail in H.
Qed.

Lemma makeURL_routes_differ a b :
  makeURL Routes.CHANNEL_MESSAGES a <> makeURL Routes.GUILD_CHANNELS b.
Proof.
  unfold makeURL. destruct a, b; intros H; apply str_app_inv_head in H;
    cbn [route_before Routes.CHANNEL_MESSAGES Routes.GUILD_CHANNELS] in H;
    rewrite !str_app_cons in H; discriminate.
Qed.

Lemma atRateLimit_record_other {A} (resp : Response A) limits now u :
  u <> url resp ->
  atRateLimit (record_rate_limit resp limits) now u = atRateLimit limits now u.
Proof.
  intros Hu. unfold atRateLimit, record_rate_limit.
  destruct (rate_headers resp); [|reflexivity]. now rewrite lookup_insert_ne.
Qed.

(** X1: the key of a rate-limit record tells the channel and the route: the
    URLs of two channels, or of two guilds, are equal only for the same id,
    and a URL for messages is never a URL for guild channels.  So the record
    of a response for the messages of one channel changes neither what
    [atRateLimit] says for the messages of another channel nor what it says
    for the channels of a guild. *)
Theorem X1_rate_limit_keys_are_per_channel (a b : string) :
  (makeURL Routes.CHANNEL_MESSAGES (Some a) = makeURL Routes.CHANNEL_MESSAGES (Some b)
   -> a = b)
  /\ (makeURL Routes.GUILD_CHANNELS (Some a) = makeURL Routes.GUILD_CHANNELS (Some b)
      -> a = b)
  /\ (forall g, makeURL Routes.CHANNEL_MESSAGES (Some a) <> makeURL Routes.GUILD_CHANNELS g)
  /\ (forall (resp : Response unit) limits now g,
        url resp = makeURL Routes.CHANNEL_MESSAGES (Some a) ->
        (a <> b ->
         atRateLimit (record_rate_limit resp limits) now
                     (makeURL Routes.CHANNEL_MESSAGES (Some b))
         = atRateLimit limits now (makeURL Routes.CHANNEL_MESSAGES (Some b)))
        /\ atRateLimit (record_rate_limit resp limits) now (makeURL Routes.GUILD_CHANNELS g)
           = atRateLimit limits now (makeURL Routes.GUILD_CHANNELS g)).
Proof.
  split; [apply makeURL_inj|]. split; [apply makeURL_inj|].
  split; [intros g; apply makeURL_routes_differ|].
  intros resp limits now g Hurl. split.
  - intros Hab. apply atRateLimit_record_other. rewrite Hurl.
    intros H. apply makeURL_inj in H. congruence.
  - apply atRateLimit_record_other. rewrite Hurl.
    intros H. symmetry in H. revert H. apply makeURL_routes_differ.
Qed.

Lemma X1_witness :
  let resp : Response unit :=
    mkResponse (makeURL Routes.CHANNEL_MESSAGES (Some "2")) (Some (mkRateLimit 0 1000)) true tt in
  "2" <> "3" /\
  atRateLimit (record_rate_limit resp ∅) 0 (makeURL Routes.CHANNEL_MESSAGES (Some "3"))
  = atRateLimit ∅ 0 (makeURL Routes.CHANNEL_MESSAGES (Some "3")).
Proof.
  intros resp. split; [discriminate|].
  apply (proj1 (proj2 (proj2 (proj2 (X1_rate_limit_keys_are_per_channel "2" "3")))
                  resp ∅ 0%Q None eq_refl)).
  discriminate.
Defined.

(** X2: [checkResponse] writes the record before it looks at the status.  A
    response that carries the rate-limit headers leaves them as the record of
    its URL whether the call returns or raises, and no other record changes;
    from then on the URL is reported exhausted exactly when the headers said
    no call remains and the clock has not passed their reset time. *)
Theorem X2_response_headers_are_recorded {A} (resp : Response A) (rl : RateLimit)
    (s : Sys) :
  rate_headers resp = Some rl ->
  exists s',
    checkResponse resp s = (if status_ok resp then Ok (json resp) s' else Raise s')
    /\ rateLimits s' !! url resp = Some rl
    /\ (forall u, u <> url resp -> rateLimits s' !! u = rateLimits s !! u)
    /\ (forall t, atRateLimit (rateLimits s') t (url resp) = true
                  <-> remaining rl = 0 /\ (t <= inject_Z (reset rl))%Q).
Proof.
  intros Hh.
  exists (set_rateLimits (record_rate_limit resp (rateLimits s)) s).
  assert (Hl : record_rate_limit resp (rateLimits s) !! url resp = Some rl).
  { unfold record_rate_limit. rewrite Hh. apply lookup_insert_eq. }
  split; [|split; [exact Hl|split]].
  - unfold checkResponse, bind, modify. destruct (status_ok resp); reflexivity.
  - intros u Hu. cbn. unfold record_rate_limit. rewrite Hh. now apply lookup_insert_ne.
  - intros t. cbn. rewrite atRateLimit_spec. split.
    + intros (rl' & Hl' & ? & ?). rewrite Hl in Hl'. injection Hl' as <-. auto.
    + intros [? ?]. eauto.
Qed.

Lemma X2_witness :
  let resp : Response unit :=
    mkResponse (makeURL Routes.CHANNEL_MESSAGES (Some "2")) (Some (mkRateLimit 0 1000)) false tt in
  rate_headers resp = Some (mkRateLimit 0 1000)
  /\ exists s', checkResponse resp (Simulation.start ∅ false) = Raise s'
                /\ rateLimits s' !! url resp = Some (mkRateLimit 0 1000).
Proof.
  intros resp. split; [reflexivity|].
  destruct (X2_response_headers_are_recorded resp (mkRateLimit 0 1000)
              (Simulation.start ∅ false) eq_refl) as (s' & H & Hl & _).
  exists s'. split; [exact H|exact Hl].
Defined.

(** *** The parser *)

Lemma match_digits_eol_complete c post :
  is_digit c = true -> at_eol post = true ->
  exists g, match_digits_eol (String c post) = Some g.
Proof.
  intros Hc He. simpl. rewrite Hc, He. destruct (match_digits_eol post); eauto.
Qed.

Lemma re_search_complete text :
  line_ends_in_digit text -> exists g, re_search text = Some g.
Proof.
  intros (pre & c & post & -> & Hc & He). induction pre as [|a pre IH].
  - rewrite str_app_nil_l, re_search_eq.
    destruct (match_digits_eol_complete c post Hc He) as [g ->]. eauto.
  - rewrite str_app_cons, re_search_eq.
    destruct (match_digits_eol _); [eauto|exact IH].
Qed.

Lemma digits_end_in_digit g :
  g <> "" -> all_digits g = true ->
  exists init c, g = init +:+ String c "" /\ is_digit c = true.
Proof.
  induction g as [|a g IH]; [congruence|]. intros _ Hd.
  simpl in Hd. apply andb_true_iff in Hd as [Ha Hd].
  destruct g as [|b g].
  - exists "", a. auto.
  - destruct IH as (init & c & Hg & Hc); [discriminate|assumption|].
    exists (String a init), c. rewrite str_app_cons, <- Hg. auto.
Qed.

Lemma re_search_line_ends_in_digit text g :
  re_search text = Some g -> line_ends_in_digit text.
Proof.
  intros H. apply re_search_sound in H as (pre & post & -> & Hne & Hd & He & _).
  destruct (digits_end_in_digit g Hne Hd) as (init & c & -> & Hc).
  exists (pre +:+ init), c, post. split; [|auto].
  rewrite !str_app_assoc. reflexivity.
Qed.

Lemma is_digit_value c : is_digit c = true -> 0 <= digit_value c <= 9.
Proof.
  unfold is_digit, digit_value. intros [H1 H2]%andb_true_iff.
  apply Nat.leb_le in H1, H2. lia.
Qed.

Lemma int_of_digits_nonneg s acc :
  0 <= acc -> all_digits s = true -> 0 <= int_of_digits acc s.
Proof.
  revert acc. induction s as [|c s IH]; intros acc Hacc Hd; [exact Hacc|].
  simpl in Hd. apply andb_true_iff in Hd as [Hc Hd]. simpl.
  apply IH; [|exact Hd]. pose proof (is_digit_value c Hc). lia.
Qed.

(** X3: on a text of ASCII characters, where the pattern [\d] matches the
    digits [0] to [9] and nothing else, [getIDFromMessage] returns [None]
    exactly when no line of the text ends in a digit (the empty text among
    them), and an identifier it returns is never negative: a sign before the
    digits is not part of the match. *)
Theorem X3_parser_finds_every_trailing_number (text : string) :
  is_ascii_text text = true ->
  (getIDFromMessage text = None <-> ~ line_ends_in_digit text)
  /\ (forall n, getIDFromMessage text = Some n -> 0 <= n).
Proof.
  intros _. unfold getIDFromMessage. split; [split|].
  - destruct (re_search text) as [g|] eqn:H; [discriminate|].
    intros _ Hl. apply re_search_complete in Hl as [g Hg]. congruence.
  - intros Hn. destruct (re_search text) as [g|] eqn:H; [|reflexivity].
    exfalso. apply Hn. now apply re_search_line_ends_in_digit in H.
  - intros n. destruct (re_search text) as [g|] eqn:H; [|discriminate].
    intros [= <-]. apply re_search_sound in H as (pre & post & _ & _ & Hd & _).
    now apply int_of_digits_nonneg.
Qed.

Lemma X3_witness :
  let text := MESSAGE_FORMAT "bencecile" (-5) "Wed" "" in
  is_ascii_text text = true
  /\ getIDFromMessage text = Some 5 /\ 0 <= 5
  /\ is_ascii_text "no number here" = true
  /\ getIDFromMessage "no number here" = None.
Proof.
  intros text.
  assert (Ha : is_ascii_text text = true) by (vm_compute; reflexivity).
  split; [exact Ha|]. split; [vm_compute; reflexivity|]. split.
  - apply (proj2 (X3_parser_finds_every_trailing_number text Ha) 5).
    vm_compute. reflexivity.
  - split; [reflexivity|]. vm_compute. reflexivity.
Defined.

(** *** The category and the position pairs *)

Lemma find_app_first {A} (p : A -> bool) l1 l2 :
  List.find p (l1 ++ l2)
  = match List.find p l1 with
    | Some x => Some x
    | None => List.find p l2
    end.
Proof.
  induction l1 as [|x l1 IH]; [reflexivity|]. simpl. destruct (p x); [reflexivity|exact IH].
Qed.

Lemma find_category_from name channels found :
  fold_left (fun found channel => if is_category name channel then Some channel else found)
            channels found
  = match List.find (is_category name) (rev channels) with
    | Some channel => Some channel
    | None => found
    end.
Proof.
  revert found. induction channels as [|c channels IH]; intros found; [reflexivity|].
  simpl. rewrite IH, find_app_first.
  destruct (List.find (is_category name) (rev channels)); [reflexivity|].
  simpl. destruct (is_category name c); reflexivity.
Qed.

Lemma find_category_rev name channels :
  find_category name channels = List.find (is_category name) (rev channels).
Proof.
  unfold find_category. rewrite find_category_from.
  destruct (List.find _ _); reflexivity.
Qed.

(** X4: the search for the category has no [break]: of the channels of type
    category that carry the name, the one listed last is taken; the result
    is a channel of the listing, of that type and name; and there is no
    result exactly when the listing has no such channel. *)
Theorem X4_last_category_of_the_name (name : option string) (channels : list Channel) :
  find_category name channels = List.find (is_category name) (rev channels)
  /\ (forall c, find_category name channels = Some c ->
        In c channels /\ ch_type c = ChannelTypes.GUILD_CATEGORY /\ Some (ch_name c) = name)
  /\ (find_category name channels = None <->
      forall c, In c channels -> is_category name c = false)
  /\ (forall before c after,
        channels = before ++ c :: after ->
        is_category name c = true ->
        (forall d, In d after -> is_category name d = false) ->
        find_category name channels = Some c).
Proof.
  split; [apply find_category_rev|]. split; [|split].
  - intros c. rewrite find_category_rev. intros H. apply find_some in H as [Hin Hc].
    apply in_rev in Hin. unfold is_category in Hc.
    apply andb_true_iff in Hc as [Ht Hn]. apply Z.eqb_eq in Ht.
    apply bool_decide_eq_true in Hn. auto.
  - rewrite find_category_rev. split.
    + intros H c Hin. apply (find_none _ _ H). now apply in_rev in Hin.
    + intros H. destruct (List.find _ _) as [c|] eqn:E; [|reflexivity].
      apply find_some in E as [Hin Hc]. apply in_rev in Hin. rewrite (H c Hin) in Hc.
      discriminate.
  - intros before c after -> Hc Hafter. rewrite find_category_rev, rev_app_distr.
    simpl. rewrite <- app_assoc, find_app_first.
    destruct (List.find (is_category name) (rev after)) as [d|] eqn:E.
    + apply find_some in E as [Hin Hd]. apply in_rev in Hin.
      rewrite (Hafter d Hin) in Hd. discriminate.
    + simpl. now rewrite Hc.
Qed.

Lemma X4_witness :
  let first := mkChannel "1" "Twitter For bot" ChannelTypes.GUILD_CATEGORY None 0 in
  let second := mkChannel "9" "Twitter For bot" ChannelTypes.GUILD_CATEGORY None 7 in
  is_category (Some "Twitter For bot") second = true
  /\ find_category (Some "Twitter For bot") [first; Simulation.alpha; second; Simulation.zeta]
     = Some second.
Proof.
  intros first second. split; [reflexivity|].
  apply (proj2 (proj2 (proj2 (X4_last_category_of_the_name (Some "Twitter For bot")
                                [first; Simulation.alpha; second; Simulation.zeta])))
           [first; Simulation.alpha] second [Simulation.zeta]).
  - reflexivity.
  - reflexivity.
  - intros d [<-|[]]. reflexivity.
Defined.

Lemma positionPairs_from_positions i cur old :
  Forall (fun p => (i <= snd p < i + length cur)%nat) (positionPairs_from i cur old)
  /\ StronglySorted (fun p q => (snd p < snd q)%nat) (positionPairs_from i cur old).
Proof.
  revert i. induction cur as [|c cur IH]; intros i; simpl.
  - split; constructor.
  - destruct (IH (S i)) as [Hb Hs].
    assert (Hb' : Forall (fun p => (i < snd p < i + S (length cur))%nat)
                         (positionPairs_from (S i) cur old)).
    { eapply Forall_impl; [exact Hb|]. cbn. intros. lia. }
    case_bool_decide.
    + split; [|exact Hs]. eapply Forall_impl; [exact Hb'|]. cbn. intros. lia.
    + split.
      * constructor; [cbn; lia|]. eapply Forall_impl; [exact Hb'|]. cbn. intros. lia.
      * constructor; [exact Hs|]. eapply Forall_impl; [exact Hb'|]. cbn. intros. lia.
Qed.

(** Two arrangements of the same channels cannot differ in one place only. *)
Lemma permutation_differs_twice (l l' : list Channel) i :
  Permutation l l' -> (forall j, j <> i -> l !! j = l' !! j) -> l !! i = l' !! i.
Proof.
  intros Hp Hj. pose proof (Permutation_length Hp) as Hlen.
  destruct (l !! i) as [x|] eqn:Hx; destruct (l' !! i) as [y|] eqn:Hy; try reflexivity.
  - assert (Ht : take i l = take i l').
    { apply list_eq. intros j. destruct (decide (j < i)%nat).
      - rewrite !lookup_take_lt by assumption. apply Hj. lia.
      - rewrite !lookup_take_ge by lia. reflexivity. }
    assert (Hd : drop (S i) l = drop (S i) l').
    { apply list_eq. intros j. rewrite !lookup_drop. apply Hj. lia. }
    pose proof (Permutation_count_occ Channel_eq_dec l l') as [Hc _].
    specialize (Hc Hp x).
    rewrite <- (take_drop_middle l i x Hx), <- (take_drop_middle l' i y Hy), Ht, Hd in Hc.
    rewrite !count_occ_app in Hc. simpl in Hc.
    destruct (Channel_eq_dec x x) as [_|]; [|congruence].
    destruct (Channel_eq_dec y x) as [->|]; [reflexivity|lia].
  - apply lookup_lt_Some in Hx. apply lookup_ge_None in Hy. lia.
  - apply lookup_ge_None in Hx. apply lookup_lt_Some in Hy. lia.
Qed.

Lemma positionPairs_not_one old : length (positionPairs old) <> 1%nat.
Proof.
  intros Hlen. destruct (positionPairs old) as [|[cid i] [|q pairs]] eqn:E;
    try discriminate. clear Hlen.
  assert (Hin : forall cid' j, In (cid', j) (positionPairs old) -> j = i).
  { intros cid' j. rewrite E. intros [[= _ ->]|[]]. reflexivity. }
  assert (Hi : In (cid, i) (positionPairs old)) by (rewrite E; now left).
  apply positionPairs_In in Hi as (c & Hc & _ & Hne). apply Hne. rewrite <- Hc. symmetry.
  apply permutation_differs_twice; [apply sort_by_name_perm|].
  intros j Hj. destruct (sort_by_name old !! j) as [d|] eqn:Hd.
  - destruct (decide (old !! j = Some d)) as [->|Hnd]; [reflexivity|].
    exfalso. apply Hj, (Hin (ch_id d) j). apply positionPairs_In. eauto.
  - apply lookup_ge_None in Hd. rewrite sort_by_name_length in Hd.
    symmetry. now apply lookup_ge_None.
Qed.

(** X5: the position pairs of one batch come in increasing order of
    position, each position below the number of channels sorted; a batch
    never has exactly one pair, since two orders of the same channels cannot
    differ in one place; and channels in the sorted order give no pair, so
    sorting what was sorted asks for nothing. *)
Theorem X5_shape_of_the_position_pairs (oldChannels : list Channel) :
  StronglySorted (fun p q => (snd p < snd q)%nat) (positionPairs oldChannels)
  /\ Forall (fun p => (snd p < length oldChannels)%nat) (positionPairs oldChannels)
  /\ length (positionPairs oldChannels) <> 1%nat
  /\ sort_by_name (sort_by_name oldChannels) = sort_by_name oldChannels
  /\ positionPairs (sort_by_name oldChannels) = [].
Proof.
  destruct (positionPairs_from_positions 0 (sort_by_name oldChannels) oldChannels)
    as [Hb Hs].
  split; [exact Hs|]. split; [|split; [apply positionPairs_not_one|]].
  - eapply Forall_impl; [exact Hb|]. cbn. intros p Hp.
    rewrite sort_by_name_length in Hp. lia.
  - split.
    + apply sort_by_name_sorted_id, sort_by_name_sorted.
    + apply positionPairs_sorted, sort_by_name_sorted.
Qed.

(** *** The wait and the creation of channels *)

Section MoreMaintenance.
Context (oracle : Oracle).

Lemma wait_returns_free rounds u s s' :
  wait_while_rate_limited oracle rounds u s = Ok tt s' ->
  atRateLimit (rateLimits s') (now s') u = false
  /\ exists n,
       (n <= rounds)%nat
       /\ history s' = history s ++ repeat (Sleep 10) n
       /\ (now s + 10 * inject_Z (Z.of_nat n) <= now s')%Q
       /\ rateLimits s' = rateLimits s
       /\ events s' = events s
       /\ delivered s' = delivered s
       /\ sendingMessages s' = sendingMessages s
       /\ guildID s' = guildID s
       /\ (atRateLimit (rateLimits s) (now s) u = false -> n = 0%nat /\ s' = s).
Proof.
  revert s. induction rounds as [|rounds IH]; intros s; rewrite wait_eq;
    destruct (atRateLimit (rateLimits s) (now s) u) eqn:Hlim; try discriminate.
  - intros [= <-]. split; [exact Hlim|]. exists 0%nat.
    split; [lia|]. split; [cbn; now rewrite app_nil_r|]. split.
    + change (inject_Z (Z.of_nat 0)) with 0%Q. lra.
    + repeat split; auto.
  - intros H. apply IH in H as (Hfree & n & Hn & Hh & Ht & Hr & He & Hd & Hf & Hg & _).
    split; [exact Hfree|]. exists (S n). cbn [history now after_request rateLimits events
      delivered sendingMessages guildID] in *.
    pose proof (seconds_nonneg (elapsed oracle (history s ++ [Sleep 10]))) as Hpos.
    split; [lia|]. split; [now rewrite Hh, <- app_assoc|]. split.
    + rewrite Nat2Z.inj_succ. unfold Z.succ. rewrite inject_Z_plus.
      change (inject_Z 10) with 10%Q in Ht. change (inject_Z 1) with 1%Q. lra.
    + repeat split; auto; discriminate.
  - intros [= <-]. split; [exact Hlim|]. exists 0%nat.
    split; [lia|]. split; [cbn; now rewrite app_nil_r|]. split.
    + change (inject_Z (Z.of_nat 0)) with 0%Q. lra.
    + repeat split; auto.
Qed.
End MoreMaintenance.

(** X6: the wait before a channel creation ends as soon as the endpoint is
    not at its rate limit: it returns within [rounds_needed] sleeps (and with
    any number of rounds above), in a state where the endpoint is available;
    it has done nothing but sleep 10 seconds some [n] times, so the clock has
    moved by at least 10 [n] seconds while the records, the events, the
    deliveries and the flag are as they were; and when the endpoint is
    available at the start it returns at once. *)
Theorem X6_wait_ends_when_available (oracle : Oracle) (u : string) (s : Sys) :
  (forall rounds, (rounds_needed s u <= rounds)%nat ->
     exists s', wait_while_rate_limited oracle rounds u s = Ok tt s')
  /\ (forall rounds s',
        wait_while_rate_limited oracle rounds u s = Ok tt s' ->
        atRateLimit (rateLimits s') (now s') u = false
        /\ exists n,
             (n <= rounds)%nat
             /\ history s' = history s ++ repeat (Sleep 10) n
             /\ (now s + 10 * inject_Z (Z.of_nat n) <= now s')%Q
             /\ rateLimits s' = rateLimits s
             /\ events s' = events s
             /\ delivered s' = delivered s
             /\ sendingMessages s' = sendingMessages s
             /\ (atRateLimit (rateLimits s) (now s) u = false -> n = 0%nat /\ s' = s)).
Proof.
  split.
  - intros rounds. apply wait_needed.
  - intros rounds s' H.
    apply wait_returns_free in H as (Hfree & n & ? & ? & ? & ? & ? & ? & ? & _ & ?).
    split; [exact Hfree|]. exists n. repeat split; auto; tauto.
Qed.

Lemma X6_witness :
  let oracle := Simulation.oracle false Simulation.guild [] in
  let u := makeURL Routes.GUILD_CHANNELS (Some "7") in
  let s := Simulation.start {[ u := mkRateLimit 0 25 ]} false in
  (rounds_needed s u <= 26)%nat
  /\ exists s', wait_while_rate_limited oracle 26 u s = Ok tt s'
                /\ atRateLimit (rateLimits s') (now s') u = false.
Proof.
  intros oracle u s.
  assert (Hn : (rounds_needed s u <= 26)%nat) by (vm_compute; lia).
  split; [exact Hn|].
  destruct (proj1 (X6_wait_ends_when_available oracle u s) 26%nat Hn) as [s' H].
  exists s'. split; [exact H|].
  exact (proj1 (proj2 (X6_wait_ends_when_available oracle u s) 26%nat s' H)).
Defined.

Section Binding.
Context (oracle : Oracle).

Lemma bound_by_maintenance_lift cat g h dp d dr chans chans' e e' :
  bound_by_maintenance oracle cat g (h ++ dp) d chans e e' ->
  (forall c, In c chans -> In c chans') ->
  bound_by_maintenance oracle cat g h (dp ++ d ++ dr) chans' e e'.
Proof.
  intros (Hn & Hi & Hm & Hb) Hin. repeat split; auto.
  destruct (channelID (snd e)); [exact Hb|].
  destruct Hb as (channel & Hc & Hid & [Hfound|(before & after & Hd & Hch)]).
  - exists channel. auto.
  - exists channel. split; [auto|]. split; [exact Hid|]. right.
    exists (dp ++ before), (after ++ dr). cbv zeta in *. split.
    + rewrite Hd, <- !app_assoc. reflexivity.
    + rewrite Hch, <- !app_assoc. reflexivity.
Qed.

Lemma ensure_channel_binds rounds cat name tl chans s tl' chans' s' :
  ensure_channel oracle rounds cat name tl chans s = Ok (tl', chans') s' ->
  exists d,
    history s' = history s ++ d
    /\ bound_by_maintenance oracle cat (guildID s) (history s) d chans' (name, tl) (name, tl')
    /\ (forall c, In c chans -> In c chans').
Proof.
  unfold ensure_channel. destruct (channelID tl) as [c|] eqn:Hc.
  - intros [= <- <- <-]. exists []. rewrite app_nil_r.
    repeat split; auto. cbn. now rewrite Hc.
  - destruct (List.find _ chans) as [channel|] eqn:Hfind.
    + intros [= <- <- <-]. exists []. rewrite app_nil_r.
      apply find_some in Hfind as [Hin Hch].
      repeat split; auto. cbn. rewrite Hc. exists channel. auto.
    + intros H. apply bind_ok in H as (g & s1 & Hg & H). injection Hg as <- <-.
      apply bind_ok in H as ([] & s2 & Hw & H).
      apply wait_returns_free in Hw as (_ & n & _ & Hh & _ & _ & _ & _ & _ & Hg2 & _).
      apply bind_ok in H as (created & s3 & Hcr & H). injection H as <- <- <-.
      rewrite createGuildChannel_eq in Hcr. destruct (status_ok _); [|discriminate].
      injection Hcr as <- <-. cbn.
      exists (repeat (Sleep 10) n
              ++ [CreateGuildChannel (guildID s) (Some name) ChannelTypes.GUILD_TEXT
                    (Some (ch_id cat))]).
      split; [now rewrite Hh, <- app_assoc|]. split.
      * repeat split; auto. cbn. rewrite Hc. eexists. split; [|split; [reflexivity|]].
        -- apply in_or_app. right. now left.
        -- right. exists (repeat (Sleep 10) n), []. cbv zeta. split; [reflexivity|].
           rewrite Hh, <- app_assoc. reflexivity.
      * intros c Hin. apply in_or_app. now left.
Qed.

Lemma ensure_channels_binds rounds cat lists chans s lists' chans' s' :
  ensure_channels oracle rounds cat lists chans s = Ok (lists', chans') s' ->
  exists d,
    history s' = history s ++ d
    /\ Forall2 (bound_by_maintenance oracle cat (guildID s) (history s) d chans')
               lists lists'
    /\ (forall c, In c chans -> In c chans').
Proof.
  revert chans s lists' chans' s'.
  induction lists as [|[name tl] lists IH]; intros chans s lists' chans' s'.
  - intros [= <- <- <-]. exists []. rewrite app_nil_r. repeat split; auto; constructor.
  - cbn [ensure_channels]. intros H.
    apply bind_ok in H as ([tl1 chans1] & s1 & H1 & H).
    apply bind_ok in H as ([lists2 chans2] & s2 & H2 & H).
    injection H as <- <- <-. cbn [fst snd] in *.
    pose proof (ensure_channel_history _ _ _ _ _ _ _ _ _ H1) as (Hg1 & _).
    apply ensure_channel_binds in H1 as (d1 & Hh1 & Hb1 & Hin1).
    apply IH in H2 as (d2 & Hh2 & Hb2 & Hin2).
    exists (d1 ++ d2). split; [now rewrite Hh2, Hh1, <- app_assoc|]. split; [|auto].
    constructor.
    + replace (d1 ++ d2) with ([] ++ d1 ++ d2) by reflexivity.
      apply (bound_by_maintenance_lift _ _ _ [] d1 d2 chans1); [|auto].
      now rewrite app_nil_r.
    + rewrite Hg1, Hh1 in Hb2. clear -Hb2.
      induction Hb2 as [|e e' l l' He Hl IHl]; constructor; [|exact IHl].
      replace (d1 ++ d2) with (d1 ++ d2 ++ []) by now rewrite app_nil_r.
      now apply (bound_by_maintenance_lift _ _ _ d1 d2 [] chans2).
Qed.
End Binding.

(** X7: for lists whose names are ASCII text (on which [lower] is
    [str.lower]), the loop of [channelMaintenance] over the lists leaves
    every list with its name, its Twitter list and its queue, and bound: a
    list that was bound keeps its channel, and a list that was not is bound
    to a channel among those the method ends with, which either is under the
    category and has the name of the list in lower case, or is what Discord
    returned when the method asked for a text channel of the name of the
    list under the category. *)
Theorem X7_lists_are_bound_to_their_channels (oracle : Oracle) (rounds : nat)
    (channelCategory : Channel) (lists lists' : Lists)
    (currentChannels channels' : list Channel) (s s' : Sys) :
  ascii_names lists ->
  ensure_channels oracle rounds channelCategory lists currentChannels s
  = Ok (lists', channels') s' ->
  exists d,
    history s' = history s ++ d
    /\ Forall2 (bound_by_maintenance oracle channelCategory (guildID s) (history s) d
                                     channels')
               lists lists'
    /\ Forall bound lists'
    /\ channels' = currentChannels ++ created_in oracle (history s) d.
Proof.
  intros _ H.
  pose proof (ensure_channels_ok oracle _ _ _ _ _ _ _ H) as (_ & _ & Hb & _).
  pose proof (ensure_channels_history oracle _ _ _ _ _ _ _ H)
    as (_ & _ & d' & Hh' & _ & Hc').
  apply ensure_channels_binds in H as (d & Hh & Hbound & _).
  assert (d' = d) by (rewrite Hh in Hh'; now apply app_inv_head in Hh').
  subst d'. exists d. auto.
Qed.

Lemma X7_witness :
  let oracle := Simulation.oracle false [Simulation.category] [] in
  let lists := [("News", mkTwitterList 11 None []); ("Sport", mkTwitterList 12 (Some "5") [])] in
  ascii_names lists
  /\ exists lists' channels' s',
       ensure_channels oracle 0 Simulation.category lists [] (Simulation.start ∅ false)
       = Ok (lists', channels') s'
       /\ Forall bound lists'.
Proof.
  intros oracle lists.
  assert (Ha : ascii_names lists) by (repeat constructor).
  split; [exact Ha|].
  destruct (ensure_channels oracle 0 Simulation.category lists [] (Simulation.start ∅ false))
    as [[lists' channels'] s'|s'|] eqn:H.
  - exists lists', channels', s'. split; [reflexivity|].
    destruct (X7_lists_are_bound_to_their_channels oracle 0 Simulation.category lists lists'
                [] channels' (Simulation.start ∅ false) s' Ha H) as (d & _ & _ & Hb & _).
    exact Hb.
  - vm_compute in H. discriminate.
  - vm_compute in H. discriminate.
Defined.

(* ===================================================================== *)
(** ** One request for each message                                       *)
(* ===================================================================== *)

(** X8: the requests of a drain pass ([sendMessages]) are exactly the
    requests that create the messages it delivered, one for each and in the
    order of delivery: the pass asks nothing else of Discord or Twitter and
    never sleeps.  When it raises, its last request is for a message that
    Discord refused, and the requests before it are those of the messages
    delivered. *)
Theorem X8_one_request_per_message (oracle : Oracle) (lists : Lists) (s : Sys) :
  match sendMessages oracle lists s with
  | Ok _ s' => posted s s'
  | Raise s' => refused oracle s s'
  | Waiting => False
  end.
Proof. apply sendMessages_trace. Qed.

(* ===================================================================== *)
(** ** A pass that no rate limit stops                                    *)
(* ===================================================================== *)

Lemma atRateLimit_later limits t t' u :
  atRateLimit limits t u = false -> (t <= t')%Q -> atRateLimit limits t' u = false.
Proof.
  intros Hfree Hle. destruct (atRateLimit limits t' u) eqn:E; [|reflexivity].
  apply atRateLimit_spec in E as (rl & Hu & H0 & Ht).
  assert (atRateLimit limits t u = true); [|congruence].
  apply atRateLimit_spec. exists rl. repeat split; auto. lra.
Qed.

Section Unlimited.
Context (oracle : Oracle).
Context (no_headers : forall h, rate_headers (answer_message oracle h) = None).
Context (accepted : forall h, status_ok (answer_message oracle h) = true).

Lemma send_copied_unlimited channel copied extra s :
  atRateLimit (rateLimits s) (now s) (makeURL Routes.CHANNEL_MESSAGES channel) = false ->
  exists s',
    send_copied oracle channel copied (copied ++ extra) s = Ok (extra, false) s'
    /\ rateLimits s' = rateLimits s
    /\ (now s <= now s')%Q
    /\ delivered s' = delivered s ++ map (pair channel) copied
    /\ events s' = events s
    /\ sendingMessages s' = sendingMessages s.
Proof.
  revert s. induction copied as [|message copied IH]; intros s Hfree.
  - exists s. cbn. rewrite app_nil_r. repeat split; auto. lra.
  - cbn [send_copied]. unfold bind at 1. rewrite checkMessageRateLimit_eq, Hfree.
    unfold bind at 1. rewrite createChannelMessage_eq, accepted. cbn [app].
    match goal with
    | |- context [send_copied oracle channel copied (copied ++ extra) ?s1] =>
        destruct (IH s1) as (s' & -> & Hr & Ht & Hd & He & Hf)
    end.
    + cbn. unfold record_rate_limit. rewrite no_headers.
      apply atRateLimit_later with (1 := Hfree).
      pose proof (seconds_nonneg (elapsed oracle (history s ++ [CreateChannelMessage channel message]))).
      lra.
    + exists s'. cbn in Hr, Ht, Hd, He, Hf. unfold record_rate_limit in Hr.
      rewrite no_headers in Hr.
      pose proof (seconds_nonneg (elapsed oracle (history s ++ [CreateChannelMessage channel message]))).
      rewrite Hd, <- app_assoc. repeat split; auto. lra.
Qed.

Lemma send_lists_unlimited lists s :
  Forall (available s) lists ->
  exists s',
    send_lists oracle lists s = Ok (map emptied lists, false) s'
    /\ rateLimits s' = rateLimits s
    /\ (now s <= now s')%Q
    /\ delivered s' = delivered s ++ concat (map all_of lists)
    /\ events s' = events s
    /\ sendingMessages s' = sendingMessages s.
Proof.
  revert s. induction lists as [|[name tl] lists IH]; intros s Hfree.
  - exists s. cbn. rewrite app_nil_r. repeat split; auto. lra.
  - apply Forall_cons in Hfree as [Hfree Hrest].
    cbn [send_lists]. unfold bind at 1.
    destruct (send_copied_unlimited (channelID tl) (messages tl) [] s Hfree)
      as (s1 & Hc & Hr1 & Ht1 & Hd1 & He1 & Hf1).
    rewrite app_nil_r in Hc. rewrite Hc. cbn [fst snd]. unfold bind.
    destruct (IH s1) as (s2 & -> & Hr2 & Ht2 & Hd2 & He2 & Hf2).
    + eapply Forall_impl; [exact Hrest|]. intros e He. unfold available in *.
      rewrite Hr1. now apply atRateLimit_later with (1 := He).
    + exists s2. cbn [fst snd map concat]. split; [reflexivity|].
      rewrite Hd2, Hd1, <- app_assoc. unfold all_of at 2, front. cbn [fst snd].
      rewrite firstn_all. repeat split; try congruence. lra.
Qed.
End Unlimited.

(** X9: when Discord accepts every message and never sends the rate-limit
    headers for one, and no list is at its rate limit when the pass starts,
    [sendMessages] drains every list in one pass: every queue is empty, every
    message has been delivered, list after list, the flag [sendingMessages]
    is cleared, no retry is entered and [rateLimits] is as it was. *)
Theorem X9_pass_without_rate_limits (oracle : Oracle) (lists : Lists) (s : Sys) :
  (forall h, rate_headers (answer_message oracle h) = None) ->
  (forall h, status_ok (answer_message oracle h) = true) ->
  Forall (available s) lists ->
  exists s',
    sendMessages oracle lists s = Ok (map emptied lists) s'
    /\ sendingMessages s' = false
    /\ delivered s' = delivered s ++ concat (map all_of lists)
    /\ events s' = events s
    /\ rateLimits s' = rateLimits s.
Proof.
  intros Hnone Hok Hfree. unfold sendMessages, bind, modify.
  destruct (send_lists_unlimited oracle Hnone Hok lists (set_sendingMessages true s))
    as (s1 & -> & Hr & _ & Hd & He & _); [exact Hfree|].
  cbn [fst snd]. eexists. split; [reflexivity|]. cbn. auto.
Qed.

Lemma X9_witness :
  let oracle := Simulation.oracle false Simulation.guild [] in
  let s := Simulation.start ∅ false in
  Forall (available s) Simulation.two_lists
  /\ exists s',
       sendMessages oracle Simulation.two_lists s = Ok (map emptied Simulation.two_lists) s'
       /\ delivered s' = [(Some "2", "first"); (Some "3", "second")].
Proof.
  intros oracle s.
  assert (Hfree : Forall (available s) Simulation.two_lists)
    by (repeat constructor).
  split; [exact Hfree|].
  destruct (X9_pass_without_rate_limits oracle Simulation.two_lists s
              (fun _ => eq_refl) (fun _ => eq_refl) Hfree) as (s' & H & _ & Hd & _).
  exists s'. split; [exact H|exact Hd].
Defined.

(* ===================================================================== *)
(** ** A rate limit that Discord announces during a pass                  *)
(* ===================================================================== *)

(** X10: the pass honours the headers of the response it has just received.
    When the first list has at least two messages to send and its endpoint
    is not at the limit, and Discord accepts the first message with headers,
    recorded for the URL of the endpoint, of a limit with nothing remaining
    that resets later than now, then the pass delivers that one message and
    returns: the other messages of the list and every other list stay as
    they are, the flag [sendingMessages] stays set and one retry is
    entered. *)
Theorem X10_announced_limit_stops_the_pass (oracle : Oracle) (name : string)
    (tl : TwitterList) (after : Lists) (first second : string) (others : list string)
    (rl : RateLimit) (s : Sys) :
  let c := channelID tl in
  let u := makeURL Routes.CHANNEL_MESSAGES c in
  let r := CreateChannelMessage c first in
  let resp := answer_message oracle (history s ++ [r]) in
  let took := seconds (elapsed oracle (history s ++ [r])) in
  messages tl = first :: second :: others ->
  atRateLimit (rateLimits s) (now s) u = false ->
  status_ok resp = true ->
  url resp = u ->
  rate_headers resp = Some rl ->
  remaining rl = 0 ->
  (now s + took <= inject_Z (reset rl))%Q ->
  exists s',
    sendMessages oracle ((name, tl) :: after) s
    = Ok ((name, set_messages (second :: others) tl) :: after) s'
    /\ delivered s' = delivered s ++ [(c, first)]
    /\ history s' = history s ++ [r]
    /\ sendingMessages s' = true
    /\ events s' = events s ++ [retry_event s']
    /\ rateLimits s' = <[u := rl]> (rateLimits s)
    /\ now s' == now s + took.
Proof.
  intros c u r resp took Hm Hfree Hok Hurl Hh H0 Ht.
  set (s2 := add_delivered c first (answered r took resp (set_sendingMessages true s))).
  exists (add_event (retry_event s2) s2).
  assert (Hlim : atRateLimit (rateLimits s2) (now s2) u = true).
  { apply atRateLimit_spec. exists rl. cbn. unfold record_rate_limit.
    rewrite Hh, Hurl, lookup_insert_eq. auto. }
  split.
  - unfold sendMessages, bind at 1, modify. cbn [send_lists]. unfold bind at 1.
    unfold bind at 1. rewrite Hm. cbn [send_copied]. unfold bind at 1.
    rewrite checkMessageRateLimit_eq. cbn [rateLimits now set_sendingMessages].
    fold c u. rewrite Hfree. unfold bind at 1. rewrite createChannelMessage_eq.
    cbn [history set_sendingMessages]. fold r resp took. rewrite Hok.
    unfold bind at 1. rewrite checkMessageRateLimit_eq. fold u.
    change (add_delivered c first _) with s2. rewrite Hlim. reflexivity.
  - cbn. unfold record_rate_limit. rewrite Hh, Hurl. repeat split; auto; reflexivity.
Qed.

Lemma X10_witness :
  let s := Simulation.start ∅ false in
  let tl := mkTwitterList 11 (Some "2") ["first"; "second"; "third"] in
  exists s',
    sendMessages Limited.oracle [("Alpha", tl); ("Zeta", mkTwitterList 12 (Some "3") ["other"])] s
    = Ok [("Alpha", set_messages ["second"; "third"] tl);
          ("Zeta", mkTwitterList 12 (Some "3") ["other"])] s'
    /\ delivered s' = [(Some "2", "first")].
Proof.
  intros s tl.
  destruct (X10_announced_limit_stops_the_pass Limited.oracle "Alpha" tl
              [("Zeta", mkTwitterList 12 (Some "3") ["other"])]
              "first" "second" ["third"] (mkRateLimit 0 1000) s)
    as (s' & H & Hd & _); try reflexivity.
  - vm_compute. discriminate.
  - exists s'. split; [exact H|exact Hd].
Defined.

(* ===================================================================== *)
(** ** Repositioning and the rate limits                                  *)
(* ===================================================================== *)

(** X11: [modifyGuildChannelPositions] does not go through [checkResponse]:
    whatever Discord answers, [rateLimits] is as it was, so a rate limit
    announced in the answer to a reposition is not seen by the wait before
    the next channel creation.  With no pair it makes no request and leaves
    the state as it is; with pairs it makes one request, for all of them. *)
Theorem X11_reposition_records_no_rate_limit (oracle : Oracle) (guild : string)
    (pairs : list (string * nat)) (s : Sys) :
  (pairs = [] -> modifyGuildChannelPositions oracle guild pairs s = Ok tt s)
  /\ match modifyGuildChannelPositions oracle guild pairs s with
     | Ok _ s' | Raise s' =>
         rateLimits s' = rateLimits s
         /\ history s' = history s ++ reposition_call guild pairs
         /\ events s' = events s
         /\ forall t u, atRateLimit (rateLimits s') t u = atRateLimit (rateLimits s) t u
     | Waiting => False
     end.
Proof.
  split; [intros ->; reflexivity|].
  unfold modifyGuildChannelPositions. destruct pairs as [|p pairs]; cbn.
  - rewrite app_nil_r. auto.
  - unfold bind, request. destruct (answer_patch oracle _); cbn; auto.
Qed.

(* ===================================================================== *)
(** ** Where a fetch resumes                                              *)
(* ===================================================================== *)

Lemma format_post_id p :
  0 <= post_id p -> has_newline (screen_name p) = false ->
  getIDFromMessage (format_post p) = Some (post_id p).
Proof. intros. unfold format_post. now apply format_then_parse. Qed.

Lemma twitter_call_eq {A} oracle r (answer : list Request -> option A) s :
  let h := history s ++ [r] in
  twitter_call oracle r answer s =
  match answer h with
  | Some a => Ok a (after_request r (seconds (elapsed oracle h)) s)
  | None => Raise (after_request r (seconds (elapsed oracle h)) s)
  end.
Proof.
  intros h. unfold twitter_call, bind, request. fold h. destruct (answer h); reflexivity.
Qed.

Lemma GetListTimelineM_eq oracle tl lastPostID s :
  let r := timeline_request tl lastPostID in
  let h := history s ++ [r] in
  match lastPostID with
  | None => GetListTimelineM oracle (list_id tl) None (Some 100)
  | Some _ => GetListTimelineM oracle (list_id tl) lastPostID None
  end s =
  match answer_timeline oracle h with
  | Some posts => Ok posts (after_request r (seconds (elapsed oracle h)) s)
  | None => Raise (after_request r (seconds (elapsed oracle h)) s)
  end.
Proof.
  intros r h. destruct lastPostID; unfold GetListTimelineM; now rewrite twitter_call_eq.
Qed.

(** X12: while a list still has messages queued, the fetch of [doUpdate]
    asks nothing of Discord (whether the channel is at its rate limit or
    not): it takes the id from the last message queued.  When that message
    was formatted from a post (with an id that is not negative and a screen
    name on one line), the one request made is for the posts of the list
    after the id of that post; the posts returned are queued after the
    messages already there, oldest first, so that the newest post is again
    the last message. *)
Theorem X12_fetch_resumes_after_the_last_queued (oracle : Oracle) (tl : TwitterList)
    (queue : list string) (p : Post) (s : Sys) :
  messages tl = queue ++ [format_post p] ->
  0 <= post_id p ->
  has_newline (screen_name p) = false ->
  let r := GetListTimeline (list_id tl) (Some (post_id p)) None in
  let h := history s ++ [r] in
  let s' := after_request r (seconds (elapsed oracle h)) s in
  fetch_posts oracle tl s =
  match answer_timeline oracle h with
  | Some posts => Ok (set_messages (messages tl ++ map format_post (rev posts)) tl) s'
  | None => Raise s'
  end
  /\ forall newest older,
       answer_timeline oracle h = Some (newest :: older) ->
       List.last (messages tl ++ map format_post (rev (newest :: older))) ""
       = format_post newest.
Proof.
  intros Hm Hid Hnl r h s'. split.
  - unfold fetch_posts. rewrite Hm, length_app. cbn [length].
    replace (0 <? length queue + 1)%nat with true by (symmetry; apply Nat.ltb_lt; lia).
    unfold bind at 2. unfold ret at 1. rewrite last_last.
    rewrite format_post_id by assumption. unfold bind.
    pose proof (GetListTimelineM_eq oracle tl (Some (post_id p)) s) as Ht.
    cbn [timeline_request] in Ht. fold r h s' in Ht. cbv zeta in Ht. rewrite Ht.
    destruct (answer_timeline oracle h); reflexivity.
  - intros newest older _. cbn [rev]. rewrite map_app, app_assoc. cbn [map].
    apply last_last.
Qed.

Lemma X12_witness :
  let oracle := Simulation.oracle false Simulation.guild [] in
  let p := mkPost 123456789 "Wed Oct 10 20:19:24 +0000 2018" "bencecile" false in
  let tl := mkTwitterList 11 (Some "2") ["an older message"; format_post p] in
  let s := Simulation.start Simulation.alpha_limited true in
  exists s',
    fetch_posts oracle tl s = Ok tl s'
    /\ history s' = [GetListTimeline 11 (Some 123456789) None].
Proof.
  intros oracle p tl s.
  pose proof (proj1 (X12_fetch_resumes_after_the_last_queued oracle tl ["an older message"]
                       p s eq_refl ltac:(cbn; lia) eq_refl)) as H.
  eexists. split; [exact H|reflexivity].
Defined.

(** X13: for a list with nothing queued, the fetch of [doUpdate] first
    checks the rate limit of the channel.  At the limit it makes no request
    and leaves the list as it is, with one retry of [sendMessages] entered.
    Otherwise it reads the latest message of the channel and asks Twitter for
    the posts after the id that message ends a line with, or for the latest
    100 posts when the channel is empty or its latest message has no such id;
    the posts returned are queued oldest first.  This is shown for a latest
    message of ASCII characters, where the pattern [\d] matches the digits
    [0] to [9] only, and for a message that the bot formatted from a post:
    after such a message, it asks for the posts after that post. *)
Theorem X13_fetch_for_an_empty_queue (oracle : Oracle) (tl : TwitterList) (s : Sys) :
  messages tl = [] ->
  let c := channelID tl in
  let r1 := GetChannelMessages c (Some 1) in
  let latest := json (answer_messages oracle (history s ++ [r1])) in
  (atRateLimit (rateLimits s) (now s) (makeURL Routes.CHANNEL_MESSAGES c) = true ->
     fetch_posts oracle tl s = Ok tl (add_event (retry_event s) s))
  /\ (atRateLimit (rateLimits s) (now s) (makeURL Routes.CHANNEL_MESSAGES c) = false ->
      (forall message rest,
         latest = message :: rest -> is_ascii_text (content message) = true) ->
        match fetch_posts oracle tl s with
        | Ok tl' s' =>
            let r2 := timeline_request tl (latest_id latest) in
            history s' = history s ++ [r1; r2]
            /\ events s' = events s
            /\ exists posts,
                 answer_timeline oracle (history s') = Some posts
                 /\ tl' = set_messages (map format_post (rev posts)) tl
        | Raise s' =>
            history s' = history s ++ [r1]
            \/ history s' = history s ++ [r1; timeline_request tl (latest_id latest)]
        | Waiting => False
        end)
  /\ (forall p rest,
        latest = mkDiscordMessage (format_post p) :: rest ->
        0 <= post_id p -> has_newline (screen_name p) = false ->
        timeline_request tl (latest_id latest)
        = GetListTimeline (list_id tl) (Some (post_id p)) None).
Proof.
  intros Hm c r1 latest. split; [|split].
  - intros Hlim. unfold fetch_posts. rewrite Hm. cbn [length Nat.ltb Nat.leb].
    unfold bind at 1. unfold bind at 1. rewrite checkMessageRateLimit_eq. fold c.
    rewrite Hlim. reflexivity.
  - intros Hfree _. unfold fetch_posts. rewrite Hm. cbn [length Nat.ltb Nat.leb].
    unfold bind at 1. unfold bind at 1. rewrite checkMessageRateLimit_eq. fold c.
    rewrite Hfree. unfold bind at 1. unfold getChannelMessages, bind at 1, request.
    fold r1. unfold checkResponse, bind, modify.
    destruct (status_ok (answer_messages oracle (history s ++ [r1]))); [|cbn; auto].
    unfold ret at 1. unfold ret at 1.
    match goal with
    | |- context [match ?x with [] => None | m :: _ => getIDFromMessage (content m) end] =>
        change (match x with [] => None | m :: _ => getIDFromMessage (content m) end)
          with (latest_id latest)
    end.
    match goal with
    | |- context [match latest_id latest with
                  | Some _ => ?a
                  | None => ?b
                  end ?s1] =>
        pose proof (GetListTimelineM_eq oracle tl (latest_id latest) s1) as Ht
    end.
    cbv zeta in Ht. rewrite Ht. clear Ht. cbn [history set_rateLimits after_request].
    rewrite <- app_assoc. cbn [app].
    destruct (answer_timeline oracle _) as [posts|] eqn:Hp; cbn.
    + rewrite <- app_assoc. cbn [app]. repeat split; auto.
      exists posts. split; [exact Hp|reflexivity].
    + right. now rewrite <- app_assoc.
  - intros p rest Hl Hid Hnl. rewrite Hl. cbn [latest_id content].
    rewrite format_post_id by assumption. reflexivity.
Qed.

Lemma X13_witness :
  let tl := mkTwitterList 11 (Some "2") [] in
  let limited := Simulation.start Simulation.alpha_limited false in
  let s := Simulation.start ∅ false in
  messages tl = []
  /\ fetch_posts (Simulation.oracle false Simulation.guild []) tl limited
     = Ok tl (add_event (retry_event limited) limited)
  /\ exists tl' s',
       fetch_posts Posted.oracle tl s = Ok tl' s'
       /\ history s' = [GetChannelMessages (Some "2") (Some 1);
                        GetListTimeline 11 (Some 123456789) None].
Proof.
  intros tl limited s. split; [reflexivity|]. split.
  - apply (proj1 (X13_fetch_for_an_empty_queue (Simulation.oracle false Simulation.guild [])
                    tl limited eq_refl)).
    vm_compute. reflexivity.
  - pose proof (proj1 (proj2 (X13_fetch_for_an_empty_queue Posted.oracle tl s eq_refl))
                  eq_refl) as H.
    destruct (fetch_posts Posted.oracle tl s) as [tl' s'| |] eqn:E;
      [|vm_compute in E; discriminate..].
    exists tl', s'. split; [reflexivity|]. apply H.
    intros message rest [= <- _]. vm_compute. reflexivity.
Defined.

(* ===================================================================== *)
(** ** What an update schedules                                           *)
(* ===================================================================== *)

Global Instance same_events_refl : Reflexive same_events.
Proof. intros s. reflexivity. Qed.

Global Instance same_events_trans : Transitive same_events.
Proof. intros s1 s2 s3 H1 H2. unfold same_events in *. congruence. Qed.

Lemma same_events_request r took s :
  any_kind (kind r) = true -> same_events s (after_request r took s).
Proof. reflexivity. Qed.

Lemma same_events_rateLimits l s : same_events s (set_rateLimits l s).
Proof. reflexivity. Qed.

#[global] Hint Resolve same_events_rateLimits : frame.

Lemma retries_entered_refl s : retries_entered s s.
Proof. exists []. rewrite app_nil_r. auto. Qed.

Lemma retries_entered_trans s1 s2 s3 :
  retries_entered s1 s2 -> retries_entered s2 s3 -> retries_entered s1 s3.
Proof.
  intros (a1 & H1 & F1) (a2 & H2 & F2). exists (a1 ++ a2). split.
  - now rewrite H2, H1, <- app_assoc.
  - apply Forall_app. auto.
Qed.

Lemma same_events_retries s s' : same_events s s' -> retries_entered s s'.
Proof. intros H. exists []. rewrite app_nil_r. auto. Qed.

Lemma retry_event_entered s : retries_entered s (add_event (retry_event s) s).
Proof. exists [retry_event s]. split; [reflexivity|]. repeat constructor. Qed.

Section Schedules.
Context (oracle : Oracle).

Lemma fetch_posts_retries tl s tl' s' :
  fetch_posts oracle tl s = Ok tl' s' -> retries_entered s s'.
Proof.
  unfold fetch_posts. intros H. apply bind_ok in H as (cursor & s1 & Hc & H).
  assert (H1 : retries_entered s s1).
  { destruct (0 <? length (messages tl))%nat.
    - injection Hc as _ <-. apply retries_entered_refl.
    - apply bind_ok in Hc as (limited & s0 & Hl & Hc).
      rewrite checkMessageRateLimit_eq in Hl.
      destruct (atRateLimit _ _ _); injection Hl as <- <-.
      + injection Hc as _ <-. apply retry_event_entered.
      + apply bind_ok in Hc as (latest & s2 & Hg & Hc). injection Hc as _ <-.
        apply same_events_retries. revert Hg. apply steps_ok.
        by_frame steps_getChannelMessages same_events_request. }
  apply retries_entered_trans with (1 := H1).
  destruct cursor as [lastPostID|].
  - apply bind_ok in H as (posts & s2 & Hp & H). injection H as _ <-.
    apply same_events_retries. revert Hp. apply steps_ok.
    destruct lastPostID; unfold GetListTimelineM;
      by_frame steps_twitter_call same_events_request.
  - injection H as _ <-. apply retries_entered_refl.
Qed.

Lemma fetch_all_retries lists s lists' s' :
  fetch_all oracle lists s = Ok lists' s' -> retries_entered s s'.
Proof.
  revert s lists' s'. induction lists as [|[name tl] lists IH]; intros s lists' s'.
  - intros [= _ <-]. apply retries_entered_refl.
  - cbn [fetch_all]. intros H.
    apply bind_ok in H as (tl' & s1 & H1 & H).
    apply bind_ok in H as (rest' & s2 & H2 & H). injection H as _ <-.
    apply fetch_posts_retries in H1. apply IH in H2.
    now apply retries_entered_trans with (1 := H1).
Qed.

Lemma sendMessages_retries lists s lists' s' :
  sendMessages oracle lists s = Ok lists' s' -> retries_entered s s'.
Proof.
  intros H. pose proof (sendMessages_spec oracle lists s) as Hs. rewrite H in Hs.
  destruct Hs as [[_ (_ & _ & He)]|[_ (b & e & a & k & _ & _ & _ & _ & _ & He)]].
  - now apply same_events_retries.
  - exists [retry_event s']. split; [exact He|]. repeat constructor.
Qed.

Lemma doUpdate_schedule rounds lists s lists' s' :
  doUpdate oracle rounds lists s = Ok lists' s' ->
  exists retries middle nextResetTime,
    events s' = events s ++ retries
                  ++ [mkEvent (inject_Z (nextResetTime + 1)) 0 DoUpdate]
    /\ Forall is_retry retries
    /\ history s' = history s ++ GetLists :: GetGuildChannels (guildID s)
                      :: middle ++ [CheckRateLimit "/lists/statuses.json"]
    /\ answer_reset oracle (history s') = Some nextResetTime.
Proof.
  unfold doUpdate. intros H. apply bind_ok in H as (n & s0 & Hn & H).
  injection Hn as <- <-.
  destruct (categoryName s) as [catname|]; [|discriminate].
  apply bind_ok in H as (l1 & s1 & H1 & H).
  apply bind_ok in H as (l2 & s2 & H2 & H).
  apply bind_ok in H as (l3 & s3 & H3 & H).
  apply bind_ok in H as (sending & s4 & Hf & H). injection Hf as <- <-.
  apply bind_ok in H as (l4 & s5 & H4 & H).
  apply bind_ok in H as (t & s6 & H6 & H).
  apply bind_ok in H as (? & s7 & H7 & H).
  injection H as _ <-. injection H7 as _ <-.
  (* the events *)
  assert (E1 : same_events s s1).
  { revert H1. apply steps_ok. by_frame steps_updateTwitterLists same_events_request. }
  assert (E2 : same_events s1 s2).
  { revert H2. apply steps_ok. by_frame steps_channelMaintenance same_events_request. }
  assert (E3 : retries_entered s2 s3) by (eapply fetch_all_retries; eassumption).
  assert (E4 : retries_entered s3 s5).
  { destruct (sendingMessages s3).
    - injection H4 as _ <-. apply retries_entered_refl.
    - eapply sendMessages_retries; eassumption. }
  (* the requests *)
  unfold updateTwitterLists in H1. apply bind_ok in H1 as (fetched & s1' & H1 & Hr).
  injection Hr as _ <-. unfold GetListsM in H1. rewrite twitter_call_eq in H1.
  destruct (answer_lists oracle _); [|discriminate]. injection H1 as _ <-.
  apply channelMaintenance_history in H2 as (before & d & -> & _ & G2).
  cbv zeta in G2. cbn [guildID history after_request] in G2.
  assert (G2' : exists m2,
            history s2 = history s ++ GetLists :: GetGuildChannels (guildID s) :: m2).
  { eexists. rewrite G2. rewrite <- (app_assoc (history s) [GetLists]). reflexivity. }
  clear G2. destruct G2' as (m2 & G2).
  assert (G3 : grows_by any_kind s2 s3).
  { revert H3. apply steps_ok.
    by_frame steps_fetch_all (grows_by_request any_kind). }
  assert (G4 : grows_by any_kind s3 s5).
  { destruct (sendingMessages s3).
    - injection H4 as _ <-. reflexivity.
    - pose proof (sendMessages_trace oracle l3 s3) as Hp. rewrite H4 in Hp.
      destruct Hp as (ds & _ & Hh). exists (map message_request ds). split; [exact Hh|].
      apply forallb_forall. reflexivity. }
  unfold CheckRateLimitM in H6. rewrite twitter_call_eq in H6.
  destruct (answer_reset oracle _) as [reset|] eqn:Hreset; [|discriminate].
  injection H6 as <- <-.
  destruct (retries_entered_trans _ _ _ E3 E4) as (retries & He & Hall).
  destruct G3 as (h3 & G3 & _). destruct G4 as (h4 & G4 & _).
  exists retries, (m2 ++ h3 ++ h4), reset.
  cbn [events history add_event after_request]. split; [|split; [exact Hall|split]].
  - unfold same_events in E2. rewrite He, E2. cbn [events after_request].
    now rewrite <- app_assoc.
  - rewrite G4, G3, G2. repeat (rewrite <- app_assoc; cbn [app]). reflexivity.
  - exact Hreset.
Qed.
End Schedules.

(** X14: [doUpdate] raises at once, with no request made and nothing
    changed, when the updater has not been set up.  When it returns it has
    entered exactly one event that runs [doUpdate], as its last step, at
    priority 0 and one second after the reset time that Twitter gave for
    [/lists/statuses.json], the last request of the update; the other events
    it has entered, if any, are retries of [sendMessages].  The update starts
    by asking Twitter for the lists and then Discord for the channels of the
    guild. *)
Theorem X14_update_schedules_the_next_update (oracle : Oracle) (rounds : nat)
    (lists : Lists) (s : Sys) :
  (categoryName s = None -> doUpdate oracle rounds lists s = Raise s)
  /\ forall lists' s',
       doUpdate oracle rounds lists s = Ok lists' s' ->
       categoryName s <> None
       /\ exists retries middle nextResetTime,
            events s' = events s ++ retries
                          ++ [mkEvent (inject_Z (nextResetTime + 1)) 0 DoUpdate]
            /\ Forall is_retry retries
            /\ history s' = history s ++ GetLists :: GetGuildChannels (guildID s)
                              :: middle ++ [CheckRateLimit "/lists/statuses.json"]
            /\ answer_reset oracle (history s') = Some nextResetTime.
Proof.
  split.
  - intros Hn. unfold doUpdate, bind, gets. now rewrite Hn.
  - intros lists' s' H. split.
    + intros Hn. unfold doUpdate, bind, gets in H. rewrite Hn in H. discriminate.
    + now apply doUpdate_schedule with (rounds := rounds) (lists := lists) (lists' := lists').
Qed.

Lemma X14_witness :
  let oracle := Simulation.oracle false Simulation.guild [] in
  let s := Simulation.start ∅ false in
  exists lists' s',
    doUpdate oracle 0 Simulation.two_lists s = Ok lists' s'
    /\ events s' = [mkEvent (inject_Z 901) 0 DoUpdate].
Proof.
  intros oracle s.
  destruct (doUpdate oracle 0 Simulation.two_lists s) as [lists' s'| |] eqn:H;
    [|vm_compute in H; discriminate..].
  exists lists', s'. split; [reflexivity|].
  destruct (proj2 (X14_update_schedules_the_next_update oracle 0 Simulation.two_lists s)
              lists' s' H) as (_ & retries & middle & t & He & _ & _ & Ht).
  vm_compute in H. injection H as _ <-. reflexivity.
Defined.

(* ===================================================================== *)
(** ** The keys of [twitterLists]                                         *)
(* ===================================================================== *)

Lemma has_key_In name lists : has_key name lists = true <-> In name (map fst lists).
Proof.
  unfold has_key. rewrite existsb_exists, in_map_iff. split.
  - intros (e & Hin & He). apply String.eqb_eq in He. eauto.
  - intros (e & He & Hin). exists e. split; [exact Hin|]. now apply String.eqb_eq.
Qed.

Lemma has_key_app name l1 l2 : has_key name (l1 ++ l2) = has_key name l1 || has_key name l2.
Proof. apply existsb_app. Qed.

Lemma get_list_app_l name l1 l2 tl :
  get_list name l1 = Some tl -> get_list name (l1 ++ l2) = Some tl.
Proof.
  unfold get_list. induction l1 as [|e l1 IH]; [discriminate|].
  cbn. destruct (String.eqb (fst e) name); auto.
Qed.

Lemma get_list_app_r name l1 l2 :
  has_key name l1 = false -> get_list name (l1 ++ l2) = get_list name l2.
Proof.
  unfold get_list, has_key. induction l1 as [|e l1 IH]; [reflexivity|].
  cbn. destruct (String.eqb (fst e) name); [discriminate|]. exact IH.
Qed.

Lemma add_list_NoDup lists x :
  NoDup (map fst lists) -> NoDup (map fst (add_list lists x)).
Proof.
  intros Hnd. unfold add_list. destruct (has_key (li_name x) lists) eqn:Hk; [exact Hnd|].
  rewrite map_app. cbn. apply NoDup_app. split; [exact Hnd|]. split.
  - intros name Hin Hx. apply list_elem_of_singleton in Hx. subst name.
    apply list_elem_of_In, has_key_In in Hin. congruence.
  - apply NoDup_singleton.
Qed.

Lemma fold_left_add_list_keys fetched lists :
  (NoDup (map fst lists) -> NoDup (map fst (fold_left add_list fetched lists)))
  /\ (forall name,
        has_key name (fold_left add_list fetched lists) = true <->
        has_key name lists = true \/ exists x, In x fetched /\ li_name x = name)
  /\ (forall name tl,
        get_list name lists = Some tl ->
        get_list name (fold_left add_list fetched lists) = Some tl)
  /\ (forall name x,
        has_key name lists = false -> first_of_name name fetched = Some x ->
        get_list name (fold_left add_list fetched lists)
        = Some (mkTwitterList (li_id x) None [])).
Proof.
  revert lists. induction fetched as [|y fetched IH]; intros lists.
  - cbn. split; [auto|]. split; [|split; [auto|discriminate]].
    intros name. split; [auto|]. intros [H|(x & [] & _)]. exact H.
  - cbn [fold_left]. destruct (IH (add_list lists y)) as (Hnd & Hkey & Hold & Hnew).
    assert (Hk : forall name, has_key name (add_list lists y) = true <->
                              has_key name lists = true \/ li_name y = name).
    { intros name. unfold add_list. destruct (has_key (li_name y) lists) eqn:Hy.
      - split; [auto|]. intros [H|<-]; assumption.
      - rewrite has_key_app. cbn. rewrite orb_false_r, orb_true_iff, String.eqb_eq.
        reflexivity. }
    split; [|split; [|split]].
    + intros H. apply Hnd. now apply add_list_NoDup.
    + intros name. rewrite Hkey, Hk. split.
      * intros [[H|H]|(x & Hin & Hx)]; [auto|right..].
        -- exists y. split; [now left|exact H].
        -- exists x. split; [now right|exact Hx].
      * intros [H|(x & [<-|Hin] & Hx)]; [auto|auto|].
        right. eauto.
    + intros name tl H. apply Hold. unfold add_list.
      destruct (has_key (li_name y) lists); [exact H|]. now apply get_list_app_l.
    + intros name x Hno. unfold first_of_name. cbn [List.find].
      destruct (String.eqb (li_name y) name) eqn:Hy.
      * intros [= <-]. apply String.eqb_eq in Hy. subst name. apply Hold.
        unfold add_list. rewrite Hno. rewrite get_list_app_r by exact Hno.
        unfold get_list. cbn. now rewrite String.eqb_refl.
      * intros Hx. apply Hnew; [|exact Hx].
        destruct (has_key name (add_list lists y)) eqn:Hk'; [|reflexivity].
        apply Hk in Hk' as [Hk'|Hk']; [congruence|].
        apply String.eqb_neq in Hy. congruence.
Qed.

Lemma entry_kept_keys lists lists' :
  Forall2 entry_kept lists lists' -> map fst lists' = map fst lists.
Proof.
  induction 1 as [|e e' l l' (Hn & _) _ IH]; [reflexivity|]. cbn. now rewrite Hn, IH.
Qed.

(** X15: [updateTwitterLists] asks Twitter for the lists once and keeps
    [twitterLists] a dict: names that were distinct stay distinct; the names
    it has afterwards are those it had and those Twitter returned; the entry
    of a name it had is untouched; and a new name gets an entry for the first
    list of that name that Twitter returned, unbound and with an empty queue:
    a later list of the same name is ignored. *)
Theorem X15_lists_are_added_once_by_name (oracle : Oracle) (lists lists' : Lists)
    (s s' : Sys) :
  updateTwitterLists oracle lists s = Ok lists' s' ->
  exists fetched,
    answer_lists oracle (history s ++ [GetLists]) = Some fetched
    /\ history s' = history s ++ [GetLists]
    /\ (NoDup (map fst lists) -> NoDup (map fst lists'))
    /\ (forall name,
          has_key name lists' = true <->
          has_key name lists = true \/ exists x, In x fetched /\ li_name x = name)
    /\ (forall name tl, get_list name lists = Some tl -> get_list name lists' = Some tl)
    /\ (forall name x,
          has_key name lists = false -> first_of_name name fetched = Some x ->
          get_list name lists' = Some (mkTwitterList (li_id x) None [])).
Proof.
  unfold updateTwitterLists, GetListsM. intros H.
  apply bind_ok in H as (fetched & s1 & H1 & H). injection H as <- <-.
  rewrite twitter_call_eq in H1.
  destruct (answer_lists oracle _) as [l|]; [|discriminate]. injection H1 as <- <-.
  exists l. split; [reflexivity|]. split; [reflexivity|].
  apply fold_left_add_list_keys.
Qed.

Lemma X15_witness :
  let twice := [mkListInfo "News" 1; mkListInfo "Sport" 2; mkListInfo "News" 3] in
  let oracle := Simulation.oracle false Simulation.guild twice in
  exists lists' s',
    updateTwitterLists oracle [] (Simulation.start ∅ false) = Ok lists' s'
    /\ get_list "News" lists' = Some (mkTwitterList 1 None []).
Proof.
  intros twice oracle.
  destruct (updateTwitterLists oracle [] (Simulation.start ∅ false))
    as [lists' s'| |] eqn:H; [|vm_compute in H; discriminate..].
  exists lists', s'. split; [reflexivity|].
  destruct (X15_lists_are_added_once_by_name oracle [] lists' _ s' H)
    as (fetched & Hf & _ & _ & _ & _ & Hnew).
  injection Hf as <-. apply (Hnew "News" (mkListInfo "News" 1)); reflexivity.
Defined.

Section Keys.
Context (oracle : Oracle).

Lemma doUpdate_keys rounds lists s lists' s' :
  doUpdate oracle rounds lists s = Ok lists' s' ->
  exists lists1 s1,
    updateTwitterLists oracle lists s = Ok lists1 s1
    /\ map fst lists' = map fst lists1.
Proof.
  unfold doUpdate. intros H. apply bind_ok in H as (n & s0 & Hn & H).
  injection Hn as <- <-.
  destruct (categoryName s) as [catname|]; [|discriminate].
  apply bind_ok in H as (l1 & s1 & H1 & H).
  apply bind_ok in H as (l2 & s2 & H2 & H).
  apply bind_ok in H as (l3 & s3 & H3 & H).
  apply bind_ok in H as (sending & s4 & _ & H).
  apply bind_ok in H as (l4 & s5 & H4 & H).
  apply bind_ok in H as (t & s6 & _ & H).
  apply bind_ok in H as (? & s7 & _ & H).
  injection H as <- _.
  exists l1, s1. split; [exact H1|].
  apply channelMaintenance_kept in H2 as (H2 & _). apply entry_kept_keys in H2.
  apply fetch_all_kept, entry_kept_keys in H3.
  assert (H5 : map fst l4 = map fst l3).
  { destruct sending.
    - injection H4 as <- _. reflexivity.
    - now apply sendMessages_kept, entry_kept_keys in H4. }
  congruence.
Qed.
End Keys.

(** X16: whatever the scheduler runs, [doUpdate] or [sendMessages], the
    names of [twitterLists] stay distinct and in their order, so the list of
    entries is a dict throughout.  [sendMessages] leaves the names as they
    are; [doUpdate] has the names that its [updateTwitterLists] left, and no
    list is ever dropped: a list deleted on Twitter stays in
    [twitterLists]. *)
Theorem X16_names_stay_distinct (oracle : Oracle) (rounds : nat) (action : Task)
    (lists lists' : Lists) (s s' : Sys) :
  run_task oracle rounds action lists s = Ok lists' s' ->
  (NoDup (map fst lists) -> NoDup (map fst lists'))
  /\ (exists added, map fst lists' = map fst lists ++ added)
  /\ (action = SendMessages -> map fst lists' = map fst lists)
  /\ (forall name, has_key name lists = true -> has_key name lists' = true).
Proof.
  intros H.
  assert (Hk : (NoDup (map fst lists) -> NoDup (map fst lists'))
               /\ (exists added, map fst lists' = map fst lists ++ added)
               /\ (action = SendMessages -> map fst lists' = map fst lists)).
  { destruct action; unfold run_task in H.
    - apply doUpdate_keys in H as (lists1 & s1 & H1 & ->).
      pose proof (updateTwitterLists_adds oracle _ _ _ _ H1) as (added & -> & _).
      unfold updateTwitterLists, GetListsM in H1.
      apply bind_ok in H1 as (fetched & s0 & _ & H1). injection H1 as H1 _.
      split; [|split; [|discriminate]].
      + rewrite <- H1. apply fold_left_add_list_keys.
      + exists (map fst added). apply map_app.
    - apply sendMessages_kept, entry_kept_keys in H. rewrite H.
      split; [auto|]. split; [|auto]. exists []. now rewrite app_nil_r. }
  destruct Hk as (Hnd & (added & Hadd) & Hsame). split; [exact Hnd|].
  split; [eauto|]. split; [exact Hsame|].
  intros name. rewrite !has_key_In, Hadd, in_app_iff. auto.
Qed.

Lemma X16_witness :
  let oracle := Simulation.oracle false Simulation.guild [mkListInfo "Alpha" 11; mkListInfo "News" 5] in
  exists lists' s',
    run_task oracle 0 DoUpdate Simulation.two_lists (Simulation.start ∅ false) = Ok lists' s'
    /\ NoDup (map fst lists').
Proof.
  intros oracle.
  destruct (run_task oracle 0 DoUpdate Simulation.two_lists (Simulation.start ∅ false))
    as [lists' s'| |] eqn:H; [|vm_compute in H; discriminate..].
  exists lists', s'. split; [reflexivity|].
  apply (proj1 (X16_names_stay_distinct oracle 0 DoUpdate _ lists' _ s' H)).
  apply NoDup_ListNoDup. repeat constructor; cbn; intuition discriminate.
Defined.

(* ===================================================================== *)
(** ** Names that differ in case only                                     *)
(* ===================================================================== *)

(** X17: a channel is matched to a list by the name of the list in lower
    case, while the lists are kept by their name as it is.  So two unbound
    lists with names of ASCII characters that differ only in the case of
    their letters (the names are the same once lower-cased, by [lower],
    which is [str.lower] on such names) are bound by [channelMaintenance] to
    one and the same channel, when a channel of that lower-case name is under
    the category: no channel is created, and the messages of both lists go
    to that channel. *)
Theorem X17_names_differing_in_case_share_a_channel (oracle : Oracle) (rounds : nat)
    (channelCategory channel : Channel) (a b : string) (tla tlb : TwitterList)
    (currentChannels : list Channel) (s : Sys) :
  is_ascii_text a = true ->
  is_ascii_text b = true ->
  lower a = lower b ->
  channelID tla = None ->
  channelID tlb = None ->
  List.find (is_channel_of channelCategory a) currentChannels = Some channel ->
  ensure_channels oracle rounds channelCategory [(a, tla); (b, tlb)] currentChannels s
  = Ok ([(a, set_channelID (Some (ch_id channel)) tla);
         (b, set_channelID (Some (ch_id channel)) tlb)], currentChannels) s.
Proof.
  intros _ _ Hl Ha Hb Hfind. cbn [ensure_channels]. unfold bind, ensure_channel.
  rewrite Ha, Hfind. cbn [ret snd fst]. rewrite Hb.
  assert (Hfind' : List.find (is_channel_of channelCategory b) currentChannels = Some channel).
  { rewrite <- Hfind. unfold is_channel_of. now rewrite Hl. }
  rewrite Hfind'. reflexivity.
Qed.

Lemma X17_witness :
  let oracle := Simulation.oracle false Simulation.guild [] in
  let tla := mkTwitterList 11 None ["from Alpha"] in
  let tlb := mkTwitterList 12 None ["from ALPHA"] in
  ensure_channels oracle 0 Simulation.category [("Alpha", tla); ("ALPHA", tlb)]
    [Simulation.alpha; Simulation.zeta] (Simulation.start ∅ false)
  = Ok ([("Alpha", set_channelID (Some "2") tla); ("ALPHA", set_channelID (Some "2") tlb)],
        [Simulation.alpha; Simulation.zeta]) (Simulation.start ∅ false).
Proof.
  intros oracle tla tlb.
  apply (X17_names_differing_in_case_share_a_channel oracle 0 Simulation.category
           Simulation.alpha "Alpha" "ALPHA" tla tlb); reflexivity.
Defined.

(* ===================================================================== *)
(** ** An update that no rate limit touches                               *)
(* ===================================================================== *)

Global Instance steady_refl : Reflexive steady.
Proof. intros s. split; [reflexivity|lra]. Qed.

Global Instance steady_trans : Transitive steady.
Proof. intros s1 s2 s3 [H1 T1] [H2 T2]. split; [congruence|lra]. Qed.

Lemma nothing_limited_steady s s' : nothing_limited s -> steady s s' -> nothing_limited s'.
Proof.
  intros H [Hr Ht] u. rewrite Hr. now apply atRateLimit_later with (1 := H u).
Qed.

Section Silent.
Context (oracle : Oracle) (quiet_discord : silent oracle).

Lemma steady_request r : steps steady (request oracle r).
Proof.
  intros s. unfold request. split; [reflexivity|]. cbn.
  pose proof (seconds_nonneg (elapsed oracle (history s ++ [r]))). lra.
Qed.

Lemma steady_sleep : steps steady (sleep oracle 10).
Proof.
  intros s. unfold sleep. split; [reflexivity|]. cbn.
  pose proof (seconds_nonneg (elapsed oracle (history s ++ [Sleep 10]))).
  change (inject_Z 10) with 10%Q. lra.
Qed.

Lemma steady_checkResponse {A} (resp : Response A) :
  rate_headers resp = None -> steps steady (checkResponse resp).
Proof.
  intros Hn s. unfold checkResponse, bind, modify, record_rate_limit. rewrite Hn.
  destruct (status_ok resp); cbn; (split; [reflexivity|cbn; lra]).
Qed.

Lemma steady_modify g :
  (forall s, rateLimits (g s) = rateLimits s /\ now (g s) = now s) -> steps steady (modify g).
Proof. intros H s. destruct (H s) as [Hr Ht]. split; [exact Hr|]. rewrite Ht. lra. Qed.

Ltac steady_tac :=
  steps_tac;
  first [ apply steady_request
        | apply steady_sleep
        | apply steady_checkResponse; apply quiet_discord
        | apply steady_modify; intros ?; split; reflexivity
        | idtac ].

Lemma steady_twitter_call {A} r (answer : list Request -> option A) :
  steps steady (twitter_call oracle r answer).
Proof. unfold twitter_call. steady_tac. Qed.

Lemma steady_updateTwitterLists lists : steps steady (updateTwitterLists oracle lists).
Proof. unfold updateTwitterLists, GetListsM. steps_tac. apply steady_twitter_call. Qed.

Lemma steady_wait rounds u : steps steady (wait_while_rate_limited oracle rounds u).
Proof.
  induction rounds as [|n IH]; simpl; unfold atRateLimitM; steady_tac. exact IH.
Qed.

Lemma steady_createGuildChannel g n t p : steps steady (createGuildChannel oracle g n t p).
Proof. unfold createGuildChannel. steady_tac. Qed.

Lemma steady_ensure_channels rounds cat lists chans :
  steps steady (ensure_channels oracle rounds cat lists chans).
Proof.
  revert chans. induction lists as [|[name tl] lists IH]; intros chans; simpl.
  - steady_tac.
  - unfold ensure_channel. steady_tac;
      first [apply steady_wait | apply steady_createGuildChannel | apply IH].
Qed.

Lemma steady_channelMaintenance rounds lists :
  steps steady (channelMaintenance oracle rounds lists).
Proof.
  unfold channelMaintenance, getGuildChannels, modifyGuildChannelPositions.
  steady_tac; first [apply steady_createGuildChannel | apply steady_ensure_channels].
Qed.

Lemma steady_checkMessageRateLimit c : steps steady (checkMessageRateLimit c).
Proof.
  unfold checkMessageRateLimit, atRateLimitM, scheduler_enter, scheduler_enterabs.
  steady_tac.
Qed.

Lemma steady_fetch_posts tl : steps steady (fetch_posts oracle tl).
Proof.
  unfold fetch_posts, getChannelMessages, GetListTimelineM.
  steady_tac; first [apply steady_checkMessageRateLimit | apply steady_twitter_call].
Qed.

Lemma steady_fetch_all lists : steps steady (fetch_all oracle lists).
Proof.
  induction lists as [|[name tl] lists IH]; simpl; steady_tac;
    first [apply steady_fetch_posts | exact IH].
Qed.

Lemma steady_send_copied channel copied queue :
  steps steady (send_copied oracle channel copied queue).
Proof.
  revert queue. induction copied as [|message copied IH]; intros queue; simpl.
  - steady_tac.
  - unfold createChannelMessage. steady_tac;
      first [apply steady_checkMessageRateLimit | apply IH].
Qed.

Lemma steady_send_lists lists : steps steady (send_lists oracle lists).
Proof.
  induction lists as [|[name tl] lists IH]; simpl; steady_tac;
    first [apply steady_send_copied | exact IH].
Qed.

Lemma steady_sendMessages lists : steps steady (sendMessages oracle lists).
Proof. unfold sendMessages. steady_tac. apply steady_send_lists. Qed.

Lemma fetch_posts_free tl s tl' s' :
  nothing_limited s -> fetch_posts oracle tl s = Ok tl' s' -> same_events s s'.
Proof.
  intros Hfree. unfold fetch_posts. intros H. apply bind_ok in H as (cursor & s1 & Hc & H).
  assert (H1 : same_events s s1 /\ cursor <> None).
  { destruct (0 <? length (messages tl))%nat.
    - injection Hc as <- <-. split; [reflexivity|discriminate].
    - apply bind_ok in Hc as (limited & s0 & Hl & Hc).
      rewrite checkMessageRateLimit_eq, Hfree in Hl. injection Hl as <- <-.
      apply bind_ok in Hc as (latest & s2 & Hg & Hc). injection Hc as <- <-.
      split; [|discriminate]. revert Hg. apply steps_ok.
      by_frame steps_getChannelMessages same_events_request. }
  destruct H1 as [H1 Hsome]. destruct cursor as [lastPostID|]; [|congruence].
  apply bind_ok in H as (posts & s2 & Hp & H). injection H as _ <-.
  transitivity s1; [exact H1|]. revert Hp. apply steps_ok.
  destruct lastPostID; unfold GetListTimelineM;
    by_frame steps_twitter_call same_events_request.
Qed.

Lemma fetch_all_free lists s lists' s' :
  nothing_limited s -> fetch_all oracle lists s = Ok lists' s' -> same_events s s'.
Proof.
  revert s lists' s'. induction lists as [|[name tl] lists IH]; intros s lists' s' Hfree.
  - intros [= _ <-]. reflexivity.
  - cbn [fetch_all]. intros H.
    apply bind_ok in H as (tl' & s1 & H1 & H).
    apply bind_ok in H as (rest' & s2 & H2 & H). injection H as _ <-.
    transitivity s1; [now apply fetch_posts_free with (2 := H1)|].
    apply IH with (2 := H2). apply nothing_limited_steady with (1 := Hfree).
    revert H1. apply steps_ok, steady_fetch_posts.
Qed.

Lemma fetch_posts_fetched name tl s tl' s' :
  nothing_limited s -> fetch_posts oracle tl s = Ok tl' s' ->
  exists d, history s' = history s ++ d
            /\ fetched_entry oracle (history s) d (name, tl) (name, tl').
Proof.
  intros Hfree. unfold fetch_posts. intros H. apply bind_ok in H as (cursor & s1 & Hc & H).
  assert (H1 : exists mid lastPostID,
            cursor = Some lastPostID /\ history s1 = history s ++ mid).
  { destruct (0 <? length (messages tl))%nat.
    - injection Hc as <- <-. exists [], (getIDFromMessage (List.last (messages tl) "")).
      now rewrite app_nil_r.
    - apply bind_ok in Hc as (limited & s0 & Hl & Hc).
      rewrite checkMessageRateLimit_eq, Hfree in Hl. injection Hl as <- <-.
      apply bind_ok in Hc as (latest & s2 & Hg & Hc). injection Hc as <- <-.
      unfold getChannelMessages, bind, request, checkResponse, bind, modify in Hg.
      destruct (status_ok _); [|discriminate]. injection Hg as _ <-.
      eexists [_], _. split; reflexivity. }
  destruct H1 as (mid & lastPostID & -> & Hmid).
  apply bind_ok in H as (posts & s2 & Hp & H). injection H as <- <-.
  rewrite GetListTimelineM_eq in Hp.
  destruct (answer_timeline oracle _) as [posts'|] eqn:Ha; [|discriminate].
  injection Hp as <- <-. cbn [history after_request].
  exists (mid ++ [timeline_request tl lastPostID]). split.
  - now rewrite Hmid, <- app_assoc.
  - split; [reflexivity|]. exists mid, lastPostID, [], posts'. cbn [fst snd].
    split; [reflexivity|]. split; [|reflexivity].
    rewrite <- Ha, Hmid, <- app_assoc. reflexivity.
Qed.

Lemma fetched_entry_lift h dp d dr e e' :
  fetched_entry oracle (h ++ dp) d e e' -> fetched_entry oracle h (dp ++ d ++ dr) e e'.
Proof.
  intros (Hn & before & cursor & after & posts & -> & Ha & Hm). split; [exact Hn|].
  exists (dp ++ before), cursor, (after ++ dr), posts. split; [|split; [|exact Hm]].
  - now rewrite <- !app_assoc.
  - now rewrite <- Ha, <- !app_assoc.
Qed.

Lemma fetched_entry_from h d e0 e e' :
  fst e = fst e0 -> list_id (snd e) = list_id (snd e0) ->
  messages (snd e) = messages (snd e0) ->
  fetched_entry oracle h d e e' -> fetched_entry oracle h d e0 e'.
Proof.
  intros Hn Hi Hq (Hn' & before & cursor & after & posts & Hd & Ha & Hm).
  assert (Hr : timeline_request (snd e) cursor = timeline_request (snd e0) cursor)
    by (unfold timeline_request; now rewrite Hi).
  split; [congruence|]. exists before, cursor, after, posts.
  rewrite <- Hr, <- Hq. auto.
Qed.

Lemma fetch_all_fetched lists s lists' s' :
  nothing_limited s -> fetch_all oracle lists s = Ok lists' s' ->
  exists d, history s' = history s ++ d
            /\ Forall2 (fetched_entry oracle (history s) d) lists lists'.
Proof.
  revert s lists' s'. induction lists as [|[name tl] lists IH]; intros s lists' s' Hfree.
  - intros [= <- <-]. exists []. rewrite app_nil_r. split; [reflexivity|constructor].
  - cbn [fetch_all]. intros H.
    apply bind_ok in H as (tl' & s1 & H1 & H).
    apply bind_ok in H as (rest' & s2 & H2 & H). injection H as <- <-.
    assert (F1 : nothing_limited s1).
    { apply nothing_limited_steady with (1 := Hfree).
      revert H1. apply steps_ok, steady_fetch_posts. }
    apply (fetch_posts_fetched name) in H1 as (d1 & Hh1 & He1); [|exact Hfree].
    apply IH in H2 as (d2 & Hh2 & He2); [|exact F1].
    exists (d1 ++ d2). split; [now rewrite Hh2, Hh1, <- app_assoc|]. constructor.
    + replace (d1 ++ d2) with ([] ++ d1 ++ d2) by reflexivity.
      apply fetched_entry_lift. now rewrite app_nil_r.
    + rewrite Hh1 in He2. clear -He2.
      induction He2 as [|e e' l l' He Hl IHl]; constructor; [|exact IHl].
      replace (d1 ++ d2) with (d1 ++ d2 ++ []) by now rewrite app_nil_r.
      now apply fetched_entry_lift.
Qed.

Lemma doUpdate_unlimited rounds lists s lists' s' :
  nothing_limited s -> sendingMessages s = false ->
  doUpdate oracle rounds lists s = Ok lists' s' ->
  exists lists1 s1 d queued nextResetTime,
    updateTwitterLists oracle lists s = Ok lists1 s1
    /\ history s' = history s ++ d
    /\ Forall2 (fetched_entry oracle (history s) d) lists1 queued
    /\ grown lists queued
    /\ lists' = map emptied queued
    /\ delivered s' = delivered s ++ concat (map all_of queued)
    /\ sendingMessages s' = false
    /\ events s' = events s ++ [mkEvent (inject_Z (nextResetTime + 1)) 0 DoUpdate]
    /\ rateLimits s' = rateLimits s.
Proof.
  intros Hfree Hflag. unfold doUpdate. intros H.
  apply bind_ok in H as (n & s0 & Hn & H). injection Hn as <- <-.
  destruct (categoryName s) as [catname|]; [|discriminate].
  apply bind_ok in H as (l1 & s1 & H1 & H).
  apply bind_ok in H as (l2 & s2 & H2 & H).
  apply bind_ok in H as (l3 & s3 & H3 & H).
  apply bind_ok in H as (sending & s4 & Hf & H). injection Hf as <- <-.
  apply bind_ok in H as (l4 & s5 & H4 & H).
  apply bind_ok in H as (t & s6 & H6 & H).
  apply bind_ok in H as (? & s7 & H7 & H).
  injection H as <- <-. injection H7 as _ <-.
  (* the rate limits and the clock *)
  assert (S1 : steady s s1) by (revert H1; apply steps_ok, steady_updateTwitterLists).
  assert (S2 : steady s1 s2) by (revert H2; apply steps_ok, steady_channelMaintenance).
  assert (S3 : steady s2 s3) by (revert H3; apply steps_ok, steady_fetch_all).
  assert (F2 : nothing_limited s2)
    by (apply nothing_limited_steady with (1 := Hfree); now transitivity s1).
  assert (F3 : nothing_limited s3) by now apply nothing_limited_steady with (1 := F2).
  (* nothing is delivered or entered before the pass *)
  assert (Q1 : quiet s s1).
  { revert H1. apply steps_ok. by_frame steps_updateTwitterLists quiet_request. }
  assert (Q2 : quiet s1 s2).
  { revert H2. apply steps_ok. by_frame steps_channelMaintenance quiet_request. }
  assert (Q3 : quiet s2 s3).
  { revert H3. apply steps_ok. by_frame steps_fetch_all quiet_request. }
  assert (Q : quiet s s3) by (transitivity s1; [assumption|now transitivity s2]).
  destruct Q as [Qd Qf].
  assert (E1 : same_events s s1).
  { revert H1. apply steps_ok. by_frame steps_updateTwitterLists same_events_request. }
  assert (E2 : same_events s1 s2).
  { revert H2. apply steps_ok. by_frame steps_channelMaintenance same_events_request. }
  assert (E3 : same_events s2 s3) by now apply fetch_all_free with (2 := H3).
  (* the requests *)
  assert (G1 : grows_by any_kind s s1).
  { revert H1. apply steps_ok.
    by_frame steps_updateTwitterLists (grows_by_request any_kind). }
  assert (G2 : grows_by any_kind s1 s2).
  { revert H2. apply steps_ok.
    by_frame steps_channelMaintenance (grows_by_request any_kind). }
  destruct (grows_by_trans _ _ _ _ G1 G2) as (dA & GA & _).
  destruct (fetch_all_fetched _ _ _ _ F2 H3) as (d3 & G3 & Hfetched).
  (* the pass *)
  rewrite Qf, Hflag in H4.
  assert (S4 : steady s3 s5) by (revert H4; apply steps_ok, steady_sendMessages).
  pose proof (sendMessages_spec oracle l3 s3) as Hs. rewrite H4 in Hs.
  pose proof (sendMessages_trace oracle l3 s3) as Hp. rewrite H4 in Hp.
  destruct Hp as (ds & _ & G4).
  destruct Hs as [[Hf5 (Hl4 & Hd5 & He5)]
                 |[_ (b & e & a & k & _ & _ & Hlim & _)]];
    [|rewrite (nothing_limited_steady _ _ F3 S4) in Hlim; discriminate].
  unfold CheckRateLimitM in H6. rewrite twitter_call_eq in H6.
  destruct (answer_reset oracle _) as [reset|]; [|discriminate]. injection H6 as <- <-.
  pose proof H1 as H1'.
  apply updateTwitterLists_adds in H1 as (added & -> & _).
  apply channelMaintenance_kept in H2 as (K2 & M2 & _).
  exists (lists ++ added), s1,
    (dA ++ d3 ++ (map message_request ds ++ [CheckRateLimit "/lists/statuses.json"])),
    l3, reset.
  cbn [history events delivered sendingMessages rateLimits add_event after_request].
  split; [exact H1'|]. split; [|split; [|split; [|split; [exact Hl4|split; [|split;
    [exact Hf5|split]]]]]].
  - rewrite G4, G3, GA, <- !app_assoc. reflexivity.
  - rewrite GA in Hfetched. clear -K2 M2 Hfetched. revert l3 Hfetched.
    induction K2 as [|e e2 l l2 (Hn & Hi & _) K2 IH]; intros l3 Hfetched.
    + apply Forall2_nil_inv_l in Hfetched as ->. constructor.
    + apply Forall2_cons_inv_l in Hfetched as (e3 & l3' & He3 & Hrest & ->).
      apply Forall2_cons in M2 as [Hm M2].
      constructor; [|now apply IH].
      apply fetched_entry_lift. now apply fetched_entry_from with (e := e2).
  - apply fetch_all_enqueues in H3.
    apply Forall2_app_inv_l in K2 as (k2 & a2 & K2 & _ & ->).
    apply Forall2_app_inv_l in M2 as (k2' & a2' & M2 & _ & Heq).
    assert (k2' = k2).
    { apply Forall2_length in M2. apply Forall2_length in K2.
      apply (f_equal (take (length lists))) in Heq.
      rewrite !take_app_length' in Heq by congruence. congruence. }
    subst k2'. clear Heq.
    apply Forall2_app_inv_l in H3 as (k3 & a3 & H3 & _ & ->).
    exists k3, a3. split; [reflexivity|].
    clear -K2 M2 H3. revert k3 H3.
    induction K2 as [|e e2 l l2 (Hn & _) K2 IH]; intros k3 H3.
    + apply Forall2_nil_inv_l in H3 as ->. constructor.
    + apply Forall2_cons_inv_l in H3 as (e3 & l3 & (Hn3 & more & Hm3) & H3 & ->).
      apply Forall2_cons in M2 as [Hm M2].
      constructor; [|now apply IH].
      split; [congruence|]. exists more. now rewrite Hm3, Hm.
  - now rewrite Hd5, Qd.
  - unfold same_events in *. rewrite He5. congruence.
  - destruct S4 as [R4 _], S3 as [R3 _], S2 as [R2 _], S1 as [R1 _]. congruence.
Qed.
End Silent.

(** X18: an update that no rate limit touches.  When Discord never sends the
    rate-limit headers, no endpoint is at its rate limit and no pass is
    outstanding ([sendingMessages] is clear), a [doUpdate] that returns has
    asked Twitter, for every list that [updateTwitterLists] has left, for the
    posts of that list, has queued the posts returned to that request behind
    what the list had queued, formatted and oldest first, and has delivered
    all of it, list after list: every queue is empty, [sendingMessages] is
    clear, [rateLimits] is as it was, and the one event entered is the next
    [doUpdate], one second after the reset time that Twitter gave. *)
Theorem X18_update_without_rate_limits (oracle : Oracle) (rounds : nat)
    (lists lists' : Lists) (s s' : Sys) :
  silent oracle ->
  nothing_limited s ->
  sendingMessages s = false ->
  doUpdate oracle rounds lists s = Ok lists' s' ->
  exists lists1 s1 d queued nextResetTime,
    updateTwitterLists oracle lists s = Ok lists1 s1
    /\ history s' = history s ++ d
    /\ Forall2 (fetched_entry oracle (history s) d) lists1 queued
    /\ grown lists queued
    /\ lists' = map emptied queued
    /\ delivered s' = delivered s ++ concat (map all_of queued)
    /\ sendingMessages s' = false
    /\ events s' = events s ++ [mkEvent (inject_Z (nextResetTime + 1)) 0 DoUpdate]
    /\ rateLimits s' = rateLimits s.
Proof. intros Hs. now apply doUpdate_unlimited. Qed.

Lemma X18_witness :
  let oracle := Fetching.oracle in
  let lists := [("Alpha", mkTwitterList 11 (Some "2") ["queued"])] in
  let s := Simulation.start ∅ false in
  silent oracle /\ nothing_limited s
  /\ exists lists' s',
       doUpdate oracle 0 lists s = Ok lists' s'
       /\ delivered s' = [(Some "2", "queued");
                          (Some "2", format_post Fetching.older);
                          (Some "2", format_post Fetching.newer)]
       /\ sendingMessages s' = false
       /\ rateLimits s' = ∅.
Proof.
  intros oracle lists s.
  assert (Hs : silent oracle) by (repeat split).
  assert (Hf : nothing_limited s) by (intros u; reflexivity).
  split; [exact Hs|]. split; [exact Hf|].
  destruct (doUpdate oracle 0 lists s) as [lists' s'| |] eqn:H;
    [|vm_compute in H; discriminate..].
  exists lists', s'. split; [reflexivity|].
  destruct (X18_update_without_rate_limits oracle 0 lists lists' s s' Hs Hf eq_refl H)
    as (lists1 & s1 & d & queued & t & _ & _ & _ & _ & _ & _ & Hflag & _ & Hr).
  split; [|split; [exact Hflag|exact Hr]].
  vm_compute in H. injection H as _ <-. reflexivity.
Defined.

(* ===================================================================== *)
(** ** What the maintenance of the channels leaves alone                  *)
(* ===================================================================== *)

(** X19: [channelMaintenance] only lists, creates and repositions channels
    of the guild, and sleeps in its waits: whether it returns or raises, it
    has asked nothing of Twitter, has read and created no message, has
    delivered nothing, has entered no event, and [sendingMessages] is as it
    was. *)
Theorem X19_maintenance_touches_channels_only (oracle : Oracle) (rounds : nat)
    (lists : Lists) (s : Sys) :
  match channelMaintenance oracle rounds lists s with
  | Ok _ s' | Raise s' =>
      grows_by maintenance_kind s s'
      /\ delivered s' = delivered s
      /\ sendingMessages s' = sendingMessages s
      /\ events s' = events s
  | Waiting => True
  end.
Proof.
  assert (G : steps (grows_by maintenance_kind) (channelMaintenance oracle rounds lists))
    by (by_frame steps_channelMaintenance (grows_by_request maintenance_kind)).
  assert (Q : steps quiet (channelMaintenance oracle rounds lists))
    by (by_frame steps_channelMaintenance quiet_request).
  assert (E : steps same_events (channelMaintenance oracle rounds lists))
    by (by_frame steps_channelMaintenance same_events_request).
  specialize (G s). specialize (Q s). specialize (E s).
  destruct (channelMaintenance oracle rounds lists s); [| |exact I];
    destruct Q; auto.
Qed.
